(** * Crossword puzzle solver: a shallow embedding of [crossword.py] and
    [generate.py], and the properties of its constraint-satisfaction core.

    Modelling conventions.
    - Python integers that only ever hold indices produced by [range] are
      [nat].
    - A Python [set] is a list without repetition, read in its iteration
      order; a set comprehension keeps the order of the set it iterates,
      set difference is a filter.  Python leaves that order unspecified, so
      the general theorems below are stated for whatever enumeration the
      lists carry.
    - A Python [dict] is an association list in insertion order with unique
      keys.
    - A Python exception is an explicit outcome [Raise e]; loops whose
      termination is not structural take fuel, and running out of it is the
      separate outcome [OutOfFuel]. *)

From Stdlib Require Import List Arith Bool Lia String Ascii PeanoNat Permutation Sorted.
Import ListNotations.


(** ** Outcomes: values, exceptions, exhausted fuel *)

Inductive exn : Type := KeyError | TypeError | IndexError | ValueError.

Inductive res (A : Type) : Type :=
| Ok (a : A)
| Raise (e : exn)
| OutOfFuel.

Arguments Ok {A} a.
Arguments Raise {A} e.
Arguments OutOfFuel {A}.

Definition bind {A B : Type} (m : res A) (f : A -> res B) : res B :=
  match m with
  | Ok a => f a
  | Raise e => Raise e
  | OutOfFuel => OutOfFuel
  end.

Declare Scope res_scope.
Delimit Scope res_scope with res.
Notation "x <- m ;; k" := (bind m (fun x => k))
  (at level 61, m at next level, right associativity) : res_scope.
Notation "' p <- m ;; k" := (bind m (fun p => k))
  (at level 61, p pattern, m at next level, right associativity) : res_scope.
Local Open Scope res_scope.

(** ** Association lists (Python dicts) *)

Section Assoc.
Context {K V : Type}.
Variable keqb : K -> K -> bool.

(** [d.get(k)]: the value bound to [k], if any. *)
Fixpoint lookup (k : K) (l : list (K * V)) : option V :=
  match l with
  | [] => None
  | (k', v) :: r => if keqb k' k then Some v else lookup k r
  end.

(** [d[k] = v]: overwrite in place, or append a new binding at the end. *)
Fixpoint assign (l : list (K * V)) (k : K) (v : V) : list (K * V) :=
  match l with
  | [] => [(k, v)]
  | (k', v') :: r => if keqb k' k then (k', v) :: r else (k', v') :: assign r k v
  end.
End Assoc.

(** ** crossword.py: class Variable *)

Inductive direction : Type := ACROSS | DOWN.

Definition direction_eqb (a b : direction) : bool :=
  match a, b with
  | ACROSS, ACROSS => true
  | DOWN, DOWN => true
  | _, _ => false
  end.

Record Var : Type := mkVar {
  var_i : nat;
  var_j : nat;
  var_direction : direction;
  var_length : nat
}.

(** [Variable.__eq__] *)
Definition Var_eqb (a b : Var) : bool :=
  (var_i a =? var_i b) && (var_j a =? var_j b) &&
  direction_eqb (var_direction a) (var_direction b) &&
  (var_length a =? var_length b).

Definition cell : Type := (nat * nat)%type.

Definition cell_eqb (a b : cell) : bool :=
  (fst a =? fst b) && (snd a =? snd b).

(** [self.cells] as computed by [Variable.__init__] *)
Definition cells (v : Var) : list cell :=
  map (fun k =>
         (var_i v + (if direction_eqb (var_direction v) DOWN then k else 0),
          var_j v + (if direction_eqb (var_direction v) ACROSS then k else 0)))
      (seq 0 (var_length v)).

(** ** crossword.py: class Crossword *)

Record Crossword : Type := mkCrossword {
  height : nat;
  width : nat;
  structure : list (list bool);
  words : list string;
  variables : list Var;
  overlaps : list ((Var * Var) * option (nat * nat))
}.

(** [max(len(line) for line in contents)]; [max] of an empty sequence raises
    [ValueError]. *)
Definition max_len (contents : list string) : res nat :=
  match contents with
  | [] => Raise ValueError
  | l :: ls => Ok (fold_left Nat.max (map String.length ls) (String.length l))
  end.

(** One row of [self.structure]:
    [[j < len(line) and line[j] == "_" for j in range(width)]] *)
Definition structure_row (w : nat) (line : string) : list bool :=
  map (fun j =>
         (j <? String.length line) &&
         match String.get j line with
         | Some ch => Ascii.eqb ch "_"%char
         | None => false
         end)
      (seq 0 w).

(** [structure[i][j]].  Every use below has [i < height] and [j < width] by
    the bounds of the enclosing [range] loops, where the entry exists (lemma
    [structure_at_in_range]); the defaults are never reached. *)
Definition structure_at (s : list (list bool)) (i j : nat) : bool :=
  nth j (nth i s []) false.

(** The [for k in range(...)] loops that stop at the first cell that is not
    fillable: the number of leading [true] entries. *)
Fixpoint run (bs : list bool) : nat :=
  match bs with
  | true :: r => S (run r)
  | _ => 0
  end.

Definition down_length (s : list (list bool)) (h i j : nat) : nat :=
  1 + run (map (fun k => structure_at s k j) (seq (i + 1) (h - (i + 1)))).

Definition across_length (s : list (list bool)) (w i j : nat) : nat :=
  1 + run (map (fun k => structure_at s i k) (seq (j + 1) (w - (j + 1)))).

(** The variables added while visiting cell [(i, j)]: the vertical word first,
    then the horizontal one. *)
Definition down_slot (s : list (list bool)) (h i j : nat) : list Var :=
  if structure_at s i j && ((i =? 0) || negb (structure_at s (i - 1) j)) then
    let length := down_length s h i j in
    if 1 <? length then [mkVar i j DOWN length] else []
  else [].

Definition across_slot (s : list (list bool)) (w i j : nat) : list Var :=
  if structure_at s i j && ((j =? 0) || negb (structure_at s i (j - 1))) then
    let length := across_length s w i j in
    if 1 <? length then [mkVar i j ACROSS length] else []
  else [].

(** [set.add] *)
Definition set_add (acc : list Var) (v : Var) : list Var :=
  if existsb (Var_eqb v) acc then acc else acc ++ [v].

(** The candidates in the order the two nested [range] loops produce them. *)
Definition slot_candidates (s : list (list bool)) (h w : nat) : list Var :=
  flat_map (fun i =>
    flat_map (fun j => down_slot s h i j ++ across_slot s w i j) (seq 0 w))
    (seq 0 h).

Definition discover_variables (s : list (list bool)) (h w : nat) : list Var :=
  fold_left set_add (slot_candidates s h w) [].

(** [set(l1).intersection(l2)] *)
Definition intersection (l1 l2 : list cell) : list cell :=
  filter (fun c => existsb (cell_eqb c) l2) l1.

(** [list.index]: position of the first occurrence.  It is only applied to a
    cell taken from the intersection, which occurs in both lists, so the
    [ValueError] of an absent element cannot arise (an absent element would
    give the length of the list here). *)
Fixpoint index (c : cell) (l : list cell) : nat :=
  match l with
  | [] => 0
  | x :: r => if cell_eqb x c then 0 else S (index c r)
  end.

(** The value stored at [self.overlaps[v1, v2]].  [intersection.pop()] takes
    an arbitrary element; here the first one.  For the variables of a
    crossword the intersection never has two elements (lemma
    [variables_meet_once]), so the choice is immaterial. *)
Definition overlap_of (v1 v2 : Var) : option (nat * nat) :=
  match intersection (cells v1) (cells v2) with
  | [] => None
  | c :: _ => Some (index c (cells v1), index c (cells v2))
  end.

Definition compute_overlaps (vars : list Var)
  : list ((Var * Var) * option (nat * nat)) :=
  flat_map (fun v1 =>
    flat_map (fun v2 =>
      if Var_eqb v1 v2 then [] else [((v1, v2), overlap_of v1 v2)]) vars) vars.

(** [Crossword.__init__], from the lines of the structure file and the set of
    upper-cased words (reading and splitting the files is outside the model). *)
Definition Crossword_init (contents : list string) (vocabulary : list string)
  : res Crossword :=
  let h := List.length contents in
  w <- max_len contents ;;
  let s := map (structure_row w) contents in
  let vars := discover_variables s h w in
  Ok (mkCrossword h w s vocabulary vars (compute_overlaps vars)).

Definition pair_eqb (a b : Var * Var) : bool :=
  Var_eqb (fst a) (fst b) && Var_eqb (snd a) (snd b).

(** [self.overlaps.get((v1, v2))]: [None] when the key is absent,
    [Some None] when the stored value is [None]. *)
Definition overlaps_get (c : Crossword) (k : Var * Var)
  : option (option (nat * nat)) :=
  lookup pair_eqb k (overlaps c).

Definition not_None {A : Type} (o : option (option A)) : bool :=
  match o with
  | Some (Some _) => true
  | _ => false
  end.

(** [Crossword.neighbors] *)
Definition neighbors (c : Crossword) (var : Var) : list Var :=
  filter (fun v => negb (Var_eqb v var) && not_None (overlaps_get c (v, var)))
         (variables c).

(** ** generate.py: class CrosswordGenerator *)

(** [self.domains]: every variable with its set of candidate words. *)
Definition domains : Type := list (Var * list string).

(** An assignment: variables with the word chosen for each. *)
Definition assignment : Type := list (Var * string).

(** [CrosswordGenerator.__init__]:
    [{var: self.crossword.words.copy() for var in self.crossword.variables}] *)
Definition init_domains (c : Crossword) : domains :=
  map (fun var => (var, words c)) (variables c).

(** [self.domains[v]] *)
Definition dom_get (d : domains) (v : Var) : res (list string) :=
  match lookup Var_eqb v d with
  | Some ws => Ok ws
  | None => Raise KeyError
  end.

(** [s.remove(word)] on a set *)
Definition set_remove (word : string) (s : list string) : list string :=
  filter (fun w => negb (String.eqb w word)) s.

(** [self.domains[x].remove(word)], the set being mutated in place. *)
Definition dom_remove (d : domains) (x : Var) (word : string) : domains :=
  map (fun e => if Var_eqb (fst e) x then (fst e, set_remove word (snd e)) else e) d.

(** [word[i]] *)
Definition str_index (word : string) (i : nat) : res ascii :=
  match String.get i word with
  | Some ch => Ok ch
  | None => Raise IndexError
  end.

(** [value in s] *)
Definition mem (w : string) (s : list string) : bool :=
  existsb (String.eqb w) s.

(** [ensure_node_consistency]: for each entry, the inner loop runs over a
    copy of the set and removes from the live one. *)
Definition ensure_node_consistency (d : domains) : domains :=
  map (fun e =>
         (fst e,
          fold_left (fun live word =>
                       if negb (String.length word =? var_length (fst e))
                       then set_remove word live else live)
                    (snd e) (snd e)))
      d.

(** The [for y_word in self.domains[y]] loop of [revise_domains]; the
    accumulator is the flag [remove]. *)
Fixpoint revise_inner (i j : nat) (x_word : string) (ys : list string)
         (remove : bool) : res bool :=
  match ys with
  | [] => Ok remove
  | y_word :: ys' =>
      a <- str_index x_word i ;;
      b <- str_index y_word j ;;
      revise_inner i j x_word ys' (if Ascii.eqb a b then false else remove)
  end.

(** The [for x_word in set(self.domains[x])] loop of [revise_domains]. *)
Fixpoint revise_loop (i j : nat) (x y : Var) (xs : list string) (d : domains)
         (revised : bool) : res (bool * domains) :=
  match xs with
  | [] => Ok (revised, d)
  | x_word :: xs' =>
      ys <- dom_get d y ;;
      remove <- revise_inner i j x_word ys true ;;
      if remove then revise_loop i j x y xs' (dom_remove d x x_word) true
      else revise_loop i j x y xs' d revised
  end.

(** [revise_domains]: [i, j = self.crossword.overlaps[x, y]] raises
    [KeyError] on an absent key and [TypeError] when the entry is [None]. *)
Definition revise_domains (c : Crossword) (d : domains) (x y : Var)
  : res (bool * domains) :=
  match overlaps_get c (x, y) with
  | None => Raise KeyError
  | Some None => Raise TypeError
  | Some (Some (i, j)) =>
      xs <- dom_get d x ;;
      revise_loop i j x y xs d false
  end.

(** The worklist [arcs] is a Python list used as a stack ([pop] takes the
    last element, [append] adds one after it); it is kept here with its last
    element at the head. *)
Definition worklist : Type := list (Var * Var).

(** [[(x, y) for x in self.domains for y in self.crossword.neighbors(x)]] *)
Definition all_arcs (c : Crossword) (d : domains) : list (Var * Var) :=
  flat_map (fun x => map (fun y => (x, y)) (neighbors c x)) (map fst d).

(** [for z in self.crossword.neighbors(x) - {y}: arcs.append((z, x))] *)
Definition enqueue (c : Crossword) (x y : Var) (arcs : worklist) : worklist :=
  fold_left (fun st z => (z, x) :: st)
            (filter (fun z => negb (Var_eqb z y)) (neighbors c x)) arcs.

(** The [while arcs] loop of [apply_ac3]. *)
Fixpoint ac3_loop (fuel : nat) (c : Crossword) (d : domains) (arcs : worklist)
  : res (bool * domains) :=
  match fuel with
  | 0 => OutOfFuel
  | S fuel' =>
      match arcs with
      | [] => Ok (true, d)
      | (x, y) :: rest =>
          '(revised, d') <- revise_domains c d x y ;;
          if revised then
            dx <- dom_get d' x ;;
            match dx with
            | [] => Ok (false, d')
            | _ :: _ => ac3_loop fuel' c d' (enqueue c x y rest)
            end
          else ac3_loop fuel' c d' rest
      end
  end.

Definition total_size (d : domains) : nat :=
  list_sum (map (fun e => List.length (snd e)) d).

(** Enough fuel for the loop to finish (lemma [ac3_loop_stable]). *)
Definition ac3_fuel (c : Crossword) (d : domains) (arcs : worklist) : nat :=
  S (total_size d * S (List.length (variables c)) + List.length arcs).

(** [apply_ac3(arcs=None)]; the result is the returned boolean together with
    the domains as the call leaves them. *)
Definition apply_ac3 (c : Crossword) (d : domains)
           (arcs : option (list (Var * Var))) : res (bool * domains) :=
  let arcs :=
    match arcs with
    | None => all_arcs c d
    | Some l => l
    end in
  ac3_loop (ac3_fuel c d (rev arcs)) c d (rev arcs).

(** [is_assignment_complete] *)
Definition is_assignment_complete (c : Crossword) (a : assignment) : bool :=
  List.length (variables c) =? List.length a.

(** The loop over the neighbors of [var] inside [is_consistent]. *)
Fixpoint check_neighbors (c : Crossword) (a : assignment) (var : Var)
         (word : string) (ns : list Var) : res bool :=
  match ns with
  | [] => Ok true
  | neighbor :: ns' =>
      match lookup Var_eqb neighbor a with
      | None => check_neighbors c a var word ns'
      | Some nword =>
          match overlaps_get c (var, neighbor) with
          | None => Raise KeyError
          | Some None => Raise TypeError
          | Some (Some (i, j)) =>
              ca <- str_index word i ;;
              cb <- str_index nword j ;;
              if Ascii.eqb ca cb then check_neighbors c a var word ns'
              else Ok false
          end
      end
  end.

(** The [for var in assignment] loop of [is_consistent]; [used] is
    [used_words]. *)
Fixpoint is_consistent_loop (c : Crossword) (a : assignment)
         (entries : assignment) (used : list string) : res bool :=
  match entries with
  | [] => Ok true
  | (var, word) :: rest =>
      if mem word used then Ok false
      else if negb (String.length word =? var_length var) then Ok false
      else
        ok <- check_neighbors c a var word (neighbors c var) ;;
        if ok then is_consistent_loop c a rest (word :: used) else Ok false
  end.

Definition is_consistent (c : Crossword) (a : assignment) : res bool :=
  is_consistent_loop c a a [].

(** [variables - set(assignment)] *)
Definition minus_assigned (vs : list Var) (a : assignment) : list Var :=
  filter (fun v => match lookup Var_eqb v a with Some _ => false | None => true end) vs.

(** The count [n[value]] built by [order_values]: one for every neighbor in
    [neighbors(var) - set(assignment)] whose domain contains [value]. *)
Fixpoint count_value (d : domains) (value : string) (ns : list Var) (n : nat)
  : res nat :=
  match ns with
  | [] => Ok n
  | neighbor :: ns' =>
      dn <- dom_get d neighbor ;;
      count_value d value ns' (if mem value dn then n + 1 else n)
  end.

Fixpoint count_values (c : Crossword) (d : domains) (var : Var) (a : assignment)
         (vals : list string) : res (list (string * nat)) :=
  match vals with
  | [] => Ok []
  | value :: vals' =>
      k <- count_value d value (minus_assigned (neighbors c var) a) 0 ;;
      r <- count_values c d var a vals' ;;
      Ok ((value, k) :: r)
  end.

(** [sorted(n, key=n.get)]: a stable sort of the keys by their count; every
    element is inserted in front of the later ones that do not count less. *)
Fixpoint insert_by_count (e : string * nat) (l : list (string * nat))
  : list (string * nat) :=
  match l with
  | [] => [e]
  | e' :: r => if snd e' <? snd e then e' :: insert_by_count e r else e :: l
  end.

Definition sorted_by_count (n : list (string * nat)) : list string :=
  map fst (fold_right insert_by_count [] n).

(** [order_values] *)
Definition order_values (c : Crossword) (d : domains) (var : Var)
           (a : assignment) : res (list string) :=
  vals <- dom_get d var ;;
  n <- count_values c d var a vals ;;
  Ok (sorted_by_count n).

(** The loop of [select_variable]; [best] starts as [None]. *)
Fixpoint select_loop (c : Crossword) (d : domains) (vs : list Var)
         (best : option Var) : res (option Var) :=
  match vs with
  | [] => Ok best
  | var :: vs' =>
      match best with
      | None => select_loop c d vs' (Some var)
      | Some b =>
          dv <- dom_get d var ;;
          db <- dom_get d b ;;
          if (List.length dv <? List.length db) ||
             (List.length (neighbors c b) <? List.length (neighbors c var))
          then select_loop c d vs' (Some var)
          else select_loop c d vs' best
      end
  end.

(** [select_variable] *)
Definition select_variable (c : Crossword) (d : domains) (a : assignment)
  : res (option Var) :=
  select_loop c d (minus_assigned (variables c) a) None.

(** Ghost record of the search: each tentative [assignment[var] = value], in
    the order the statements are executed. *)
Definition trail : Type := list (Var * string).

(** The [for value in self.domains[var]] loop of [perform_backtracking];
    [recurse] is the recursive call.  The dictionary is shared and mutated in
    place; a call that returns [None] has popped every key it added, so the
    loop continues from [a] itself. *)
Fixpoint try_values (c : Crossword)
         (recurse : assignment -> res (option assignment * trail))
         (a : assignment) (var : Var) (vals : list string) (t : trail)
  : res (option assignment * trail) :=
  match vals with
  | [] => Ok (None, t)
  | value :: vals' =>
      let a' := assign Var_eqb a var value in
      ok <- is_consistent c a' ;;
      if ok then
        '(result, t') <- recurse a' ;;
        match result with
        | Some s => Ok (Some s, t ++ (var, value) :: t')
        | None => try_values c recurse a var vals' (t ++ (var, value) :: t')
        end
      else try_values c recurse a var vals' (t ++ [(var, value)])
  end.

(** [perform_backtracking]; when [select_variable] returns [None] the lookup
    [self.domains[None]] raises [KeyError]. *)
Fixpoint backtrack (fuel : nat) (c : Crossword) (d : domains) (a : assignment)
  : res (option assignment * trail) :=
  match fuel with
  | 0 => OutOfFuel
  | S fuel' =>
      if is_assignment_complete c a then Ok (Some a, [])
      else
        best <- select_variable c d a ;;
        match best with
        | None => Raise KeyError
        | Some var =>
            vals <- dom_get d var ;;
            try_values c (backtrack fuel' c d) a var vals []
        end
  end.

(** The recursion adds one unassigned variable per level (lemma
    [backtrack_terminates]). *)
Definition perform_backtracking (c : Crossword) (d : domains) (a : assignment)
  : res (option assignment * trail) :=
  backtrack (S (List.length (minus_assigned (variables c) a))) c d a.

(** [find_solution]: the value returned by [apply_ac3] is discarded. *)
Definition find_solution (c : Crossword) : res (option assignment * trail) :=
  let d := ensure_node_consistency (init_domains c) in
  '(_, d') <- apply_ac3 c d None ;;
  perform_backtracking c d' [].

(** The whole program: build the crossword, then solve. *)
Definition solve (contents : list string) (vocabulary : list string)
  : res (option assignment * trail) :=
  c <- Crossword_init contents vocabulary ;;
  find_solution c.

(** ** Specification vocabulary for the puzzle graph *)

(** Cell [(r, k)] lies inside the grid and is fillable. *)
Definition fillable (c : Crossword) (r k : nat) : Prop :=
  r < height c /\ k < width c /\ structure_at (structure c) r k = true.

(** The [n] cells going down from [(i, j)] form a maximal run of fillable
    cells: all of them are fillable, the cell above the first and the cell
    below the last are blocked or outside the grid. *)
Definition maximal_run_down (c : Crossword) (i j n : nat) : Prop :=
  1 <= n /\
  (forall k, k < n -> fillable c (i + k) j) /\
  (i = 0 \/ ~ fillable c (i - 1) j) /\
  ~ fillable c (i + n) j.

Definition maximal_run_across (c : Crossword) (i j n : nat) : Prop :=
  1 <= n /\
  (forall k, k < n -> fillable c i (j + k)) /\
  (j = 0 \/ ~ fillable c i (j - 1)) /\
  ~ fillable c i (j + n).

(** A grid as [Crossword.__init__] builds it: [height] rows of [width]
    entries each. *)
Definition rectangular (c : Crossword) : Prop :=
  List.length (structure c) = height c /\
  forall row, In row (structure c) -> List.length row = width c.

(** A crossword as [Crossword.__init__] leaves it: a rectangular grid, the
    variables the discovery loops find in it, and the overlap table computed
    from them. *)
Definition built (c : Crossword) : Prop :=
  rectangular c /\
  variables c = discover_variables (structure c) (height c) (width c) /\
  overlaps c = compute_overlaps (variables c).

(** Two variables meet in at most one cell. *)
Definition meet_once (a b : Var) : Prop :=
  forall x y, In x (cells a) -> In x (cells b) ->
              In y (cells a) -> In y (cells b) -> x = y.

(** ** Specification vocabulary for the consistency engine *)

(** [wx[i] == wy[j]], both indices in range. *)
Definition agree (i j : nat) (wx wy : string) : bool :=
  match String.get i wx, String.get j wy with
  | Some a, Some b => Ascii.eqb a b
  | _, _ => false
  end.

(** Some word of [ys] agrees with [wx]. *)
Definition supported (i j : nat) (ys : list string) (wx : string) : bool :=
  existsb (agree i j wx) ys.

(** The same against the current domain of [y]. *)
Definition supported_in (d : domains) (y : Var) (i j : nat) (wx : string) : bool :=
  match lookup Var_eqb y d with
  | Some ys => supported i j ys wx
  | None => false
  end.

(** Keep in the domain of [x] the words that satisfy [f]. *)
Definition dom_filter (d : domains) (x : Var) (f : string -> bool) : domains :=
  map (fun e => if Var_eqb (fst e) x then (fst e, filter f (snd e)) else e) d.

(** The arc [(x, y)] is consistent in [d]: every word left for [x] agrees
    with some word left for [y] at their overlap. *)
Definition arc_consistent (c : Crossword) (d : domains) (x y : Var) : Prop :=
  forall i j dx wx,
    overlaps_get c (x, y) = Some (Some (i, j)) ->
    lookup Var_eqb x d = Some dx -> In wx dx ->
    exists dy wy, lookup Var_eqb y d = Some dy /\ In wy dy /\ agree i j wx wy = true.

(** Every word of every domain has the length of its variable. *)
Definition node_consistent (d : domains) : Prop :=
  forall v ws w, In (v, ws) d -> In w ws -> String.length w = var_length v.

(** [d'] has the keys of [d], each with a subset of its former words. *)
Definition shrinks (d d' : domains) : Prop :=
  map fst d' = map fst d /\
  forall v ws', lookup Var_eqb v d' = Some ws' ->
                exists ws, lookup Var_eqb v d = Some ws /\ incl ws' ws.

(** Variable [v] had candidates in [d] and has none in [d']. *)
Definition emptied (d d' : domains) (v : Var) : Prop :=
  (exists ws, lookup Var_eqb v d = Some ws /\ ws <> []) /\
  lookup Var_eqb v d' = Some [].

(** The worklist [apply_ac3] starts from, last element first. *)
Definition initial_worklist (c : Crossword) (d : domains)
           (arcs : option (list (Var * Var))) : worklist :=
  rev (match arcs with
       | None => all_arcs c d
       | Some l => l
       end).

(** One pass of the [while arcs] loop after which the loop goes on.  The
    last arc [(x, y)] of the worklist is popped and revised: either no word
    was removed and the worklist is what the pop left, or words were removed,
    the domain of [x] still has a word, and the arcs [(z, x)] of the other
    neighbors of [x] have been appended. *)
Inductive ac3_pass (c : Crossword) :
  domains * worklist -> domains * worklist -> Prop :=
| pass_unrevised (d : domains) (x y : Var) (rest : worklist) (d1 : domains) :
    revise_domains c d x y = Ok (false, d1) ->
    ac3_pass c (d, (x, y) :: rest) (d1, rest)
| pass_revised (d : domains) (x y : Var) (rest : worklist) (d1 : domains)
               (w : string) (ws : list string) :
    revise_domains c d x y = Ok (true, d1) ->
    lookup Var_eqb x d1 = Some (w :: ws) ->
    ac3_pass c (d, (x, y) :: rest) (d1, enqueue c x y rest).

(** Any number of such passes, one after the other. *)
Inductive ac3_passes (c : Crossword) :
  domains * worklist -> domains * worklist -> Prop :=
| passes_none (s : domains * worklist) : ac3_passes c s s
| passes_more (s1 s2 s3 : domains * worklist) :
    ac3_pass c s1 s2 -> ac3_passes c s2 s3 -> ac3_passes c s1 s3.

(** The pass that leaves the loop with [return False]: the revision of the
    popped arc [(x, y)] removed the last word of the domain of [x]; [d'] are
    the domains it leaves. *)
Definition ac3_empties (c : Crossword) (s : domains * worklist) (d' : domains)
  : Prop :=
  exists x y rest,
    snd s = (x, y) :: rest /\
    revise_domains c (fst s) x y = Ok (true, d') /\
    lookup Var_eqb x d' = Some [].

(** ** Specification vocabulary for the search *)

(** The constraints an assignment has to meet: no word used for two
    variables, every word of its variable's length, and equal letters in the
    shared cell of any two assigned variables that overlap. *)
Definition consistent_assignment (c : Crossword) (a : assignment) : Prop :=
  (forall v1 v2 w, In (v1, w) a -> In (v2, w) a -> v1 = v2) /\
  (forall v w, In (v, w) a -> String.length w = var_length v) /\
  (forall x y wx wy i j,
      In (x, wx) a -> In (y, wy) a ->
      overlaps_get c (x, y) = Some (Some (i, j)) ->
      exists ch, String.get i wx = Some ch /\ String.get j wy = Some ch).

(** A partial assignment as the search builds it: a dictionary over
    variables of the crossword, every word taken from the domain of its
    variable. *)
Definition search_state (c : Crossword) (d : domains) (a : assignment) : Prop :=
  NoDup (map fst a) /\
  incl (map fst a) (variables c) /\
  forall v w, In (v, w) a -> exists ws, lookup Var_eqb v d = Some ws /\ In w ws.

(** What the search returns: a complete dictionary over the variables that
    passed the consistency check (or is empty, for a crossword without
    variables). *)
Definition solved (c : Crossword) (d : domains) (s : assignment) : Prop :=
  search_state c d s /\
  is_assignment_complete c s = true /\
  (s = [] \/ is_consistent c s = Ok true).

(** The count the least-constraining-value rule asks for: the words of the
    domains of the neighbors of [var] not yet assigned that disagree with
    [value] at the overlap of [var] with that neighbor. *)
Definition lcv_count_spec (c : Crossword) (d : domains) (var : Var)
           (a : assignment) (value : string) : nat :=
  list_sum
    (map (fun neighbor =>
            match overlaps_get c (var, neighbor), lookup Var_eqb neighbor d with
            | Some (Some (i, j)), Some dn =>
                List.length (filter (fun w => negb (agree i j value w)) dn)
            | _, _ => 0
            end)
         (minus_assigned (neighbors c var) a)).

(** ** Concrete puzzles *)

(** The crossword of a structure and a vocabulary (an empty one when
    [Crossword.__init__] raises). *)
Definition the_crossword (contents vocabulary : list string) : Crossword :=
  match Crossword_init contents vocabulary with
  | Ok c => c
  | _ => mkCrossword 0 0 [] [] [] []
  end.

(** The domains [find_solution] hands to AC-3. *)
Definition start_domains (c : Crossword) : domains :=
  ensure_node_consistency (init_domains c).

(** Two DOWN words of length 2 hanging from the ends of an ACROSS word of
    length 3 in the bottom row. *)
Definition grid_bottom : list string := ["_#_"; "___"]%string.
Definition words_bottom : list string := ["CAT"; "COT"; "OC"; "OT"]%string.

(** An ACROSS word of length 2 whose second cell starts a DOWN word of
    length 2. *)
Definition grid_corner : list string := ["__"; "#_"]%string.
Definition words_corner : list string := ["AB"; "BC"; "BD"; "XA"]%string.

(** A second vocabulary for the same grid: AC-3 leaves [BB] and [AC] to the
    ACROSS word and [BB], [CD] and [CE] to the DOWN word. *)
Definition words_square : list string := ["BB"; "AC"; "CD"; "CE"]%string.

(** An ACROSS word of length 3 in the top row with a DOWN word of length 2
    at each end. *)
Definition grid_top : list string := ["___"; "_#_"]%string.
Definition words_top : list string := ["CAT"; "COX"; "TO"; "TA"]%string.

(** ** Further parts of the two files *)

(** [Variable.__hash__] hashes this tuple. *)
Definition hash_key (v : Var) : nat * nat * direction * nat :=
  (var_i v, var_j v, var_direction v, var_length v).

(** The cell a variable occupies at position [k]. *)
Definition cell_at (v : Var) (k : nat) : cell :=
  match var_direction v with
  | DOWN => (var_i v + k, var_j v)
  | ACROSS => (var_i v, var_j v + k)
  end.

(** A complete assignment within the domains [d] that meets every
    constraint: what the solver is looking for. *)
Definition full_solution (c : Crossword) (d : domains) (s : assignment) : Prop :=
  NoDup (map fst s) /\
  (forall v, In v (variables c) -> exists w, In (v, w) s) /\
  consistent_assignment c s /\
  (forall v w, In (v, w) s -> exists ws, lookup Var_eqb v d = Some ws /\ In w ws).

(** [len(self.domains[v])], read as 0 for a variable without a domain. *)
Definition domain_size (d : domains) (v : Var) : nat :=
  match lookup Var_eqb v d with
  | Some ws => List.length ws
  | None => 0
  end.

(** [len(self.crossword.neighbors(v))] *)
Definition degree (c : Crossword) (v : Var) : nat :=
  List.length (neighbors c v).

(** The number of neighbors of [var] outside the assignment whose domain
    contains [value]. *)
Definition membership_count (c : Crossword) (d : domains) (var : Var)
           (a : assignment) (value : string) : nat :=
  List.length
    (filter (fun neighbor =>
               match lookup Var_eqb neighbor d with
               | Some dn => mem value dn
               | None => false
               end)
            (minus_assigned (neighbors c var) a)).

(** A solution of the puzzle: one vocabulary word for each variable of the
    crossword and for nothing else, meeting every constraint. *)
Definition puzzle_solution (c : Crossword) (s : assignment) : Prop :=
  NoDup (map fst s) /\
  (forall v, In v (variables c) -> exists w, In (v, w) s) /\
  (forall v w, In (v, w) s -> In v (variables c) /\ In w (words c)) /\
  consistent_assignment c s.

(** ** generate.py: create_letter_grid *)

(** The grid of letters: a row per grid row, [None] for a cell without
    letter. *)
Definition letter_grid : Type := list (list (option ascii)).

(** [l[n] = x] for a position inside the list. *)
Fixpoint list_set {A : Type} (l : list A) (n : nat) (x : A) : list A :=
  match l, n with
  | [], _ => []
  | _ :: r, 0 => x :: r
  | y :: r, S n' => y :: list_set r n' x
  end.

(** [grid[row][col] = ch]; [IndexError] when the row or the column does not
    exist. *)
Definition grid_set (g : letter_grid) (row col : nat) (ch : ascii)
  : res letter_grid :=
  match nth_error g row with
  | None => Raise IndexError
  | Some line =>
      if col <? List.length line
      then Ok (list_set g row (list_set line col (Some ch)))
      else Raise IndexError
  end.

(** The [for index in range(len(word))] loop of [create_letter_grid]. *)
Fixpoint write_word (var : Var) (word : string) (indices : list nat)
         (g : letter_grid) : res letter_grid :=
  match indices with
  | [] => Ok g
  | index :: rest =>
      let row := var_i var
                 + (if direction_eqb (var_direction var) DOWN then index else 0) in
      let col := var_j var
                 + (if direction_eqb (var_direction var) ACROSS then index else 0) in
      ch <- str_index word index ;;
      g' <- grid_set g row col ch ;;
      write_word var word rest g'
  end.

(** The [for var, word in assignment.items()] loop. *)
Fixpoint write_words (a : assignment) (g : letter_grid) : res letter_grid :=
  match a with
  | [] => Ok g
  | (var, word) :: rest =>
      g' <- write_word var word (seq 0 (String.length word)) g ;;
      write_words rest g'
  end.

(** [create_letter_grid] *)
Definition create_letter_grid (c : Crossword) (a : assignment) : res letter_grid :=
  write_words a (repeat (repeat None (width c)) (height c)).

(** [grid[row][col]]: [None] when the entry does not exist, [Some None] for
    a cell without letter. *)
Definition grid_at (g : letter_grid) (cl : cell) : option (option ascii) :=
  match nth_error g (fst cl) with
  | Some line => nth_error line (snd cl)
  | None => None
  end.

(** The assignment puts letter [x] on cell [cl]. *)
Definition puts (a : assignment) (cl : cell) (x : ascii) : Prop :=
  exists v w k, In (v, w) a /\ String.get k w = Some x /\ cell_at v k = cl.

(** [g'] extends [g] with letters allowed by [P]: same shape, the letters
    of [g] kept, every letter of [g'] allowed. *)
Definition extends_grid (P : cell -> ascii -> Prop) (g g' : letter_grid) : Prop :=
  List.length g' = List.length g /\
  (forall cl, grid_at g' cl = None <-> grid_at g cl = None) /\
  (forall cl x, grid_at g cl = Some (Some x) -> grid_at g' cl = Some (Some x)) /\
  (forall cl x, grid_at g' cl = Some (Some x) -> P cl x).

(** * Basic facts *)

Lemma direction_eqb_eq (a b : direction) : direction_eqb a b = true <-> a = b.
Proof. destruct a, b; simpl; split; intro H; try reflexivity; discriminate H. Qed.

Lemma Var_eqb_eq (a b : Var) : Var_eqb a b = true <-> a = b.
Proof.
  unfold Var_eqb. destruct a as [i j dr n], b as [i' j' dr' n']; simpl.
  rewrite !andb_true_iff, !Nat.eqb_eq, direction_eqb_eq.
  split.
  - intros [[[-> ->] ->] ->]. reflexivity.
  - intros H. injection H as -> -> -> ->. auto.
Qed.

Lemma Var_eqb_refl (a : Var) : Var_eqb a a = true.
Proof. apply Var_eqb_eq. reflexivity. Qed.

Lemma Var_eqb_neq (a b : Var) : Var_eqb a b = false <-> a <> b.
Proof.
  split.
  - intros H E. apply Var_eqb_eq in E. congruence.
  - intros H. destruct (Var_eqb a b) eqn:E; [apply Var_eqb_eq in E; contradiction | reflexivity].
Qed.

Lemma Var_eqb_sym (a b : Var) : Var_eqb a b = Var_eqb b a.
Proof.
  destruct (Var_eqb b a) eqn:E.
  - apply Var_eqb_eq in E. subst. apply Var_eqb_refl.
  - apply Var_eqb_neq in E. apply Var_eqb_neq. congruence.
Qed.

Lemma Var_eq_dec (a b : Var) : {a = b} + {a <> b}.
Proof.
  destruct (Var_eqb a b) eqn:E.
  - left. apply Var_eqb_eq, E.
  - right. apply Var_eqb_neq, E.
Defined.

Lemma cell_eqb_eq (a b : cell) : cell_eqb a b = true <-> a = b.
Proof.
  unfold cell_eqb. destruct a, b; simpl.
  rewrite andb_true_iff, !Nat.eqb_eq. split.
  - intros [-> ->]. reflexivity.
  - intros H. injection H as -> ->. auto.
Qed.

Lemma pair_eqb_eq (a b : Var * Var) : pair_eqb a b = true <-> a = b.
Proof.
  unfold pair_eqb. destruct a, b; simpl.
  rewrite andb_true_iff, !Var_eqb_eq. split.
  - intros [-> ->]. reflexivity.
  - intros H. injection H as -> ->. auto.
Qed.

Lemma existsb_Var_eqb (v : Var) (l : list Var) :
  existsb (Var_eqb v) l = true <-> In v l.
Proof.
  rewrite existsb_exists. split.
  - intros [x [Hx E]]. apply Var_eqb_eq in E. subst. exact Hx.
  - intros H. exists v. split; [exact H | apply Var_eqb_refl].
Qed.

Lemma existsb_cell_eqb (c : cell) (l : list cell) :
  existsb (cell_eqb c) l = true <-> In c l.
Proof.
  rewrite existsb_exists. split.
  - intros [x [Hx E]]. apply cell_eqb_eq in E. subst. exact Hx.
  - intros H. exists c. split; [exact H | apply cell_eqb_eq; reflexivity].
Qed.

Lemma mem_In (w : string) (s : list string) : mem w s = true <-> In w s.
Proof.
  unfold mem. rewrite existsb_exists. split.
  - intros [x [Hx E]]. apply String.eqb_eq in E. subst. exact Hx.
  - intros H. exists w. split; [exact H | apply String.eqb_refl].
Qed.

(** ** Association lists whose key test decides equality *)

Section AssocFacts.
Context {K V : Type}.
Variable keqb : K -> K -> bool.
Hypothesis keqb_eq : forall a b, keqb a b = true <-> a = b.

Lemma lookup_In (k : K) (v : V) (l : list (K * V)) :
  lookup keqb k l = Some v -> In (k, v) l.
Proof.
  induction l as [|[k' v'] r IH]; simpl; [discriminate|].
  destruct (keqb k' k) eqn:E.
  - intros H. injection H as ->. apply keqb_eq in E. subst. now left.
  - intros H. right. auto.
Qed.

Lemma lookup_None (k : K) (l : list (K * V)) :
  lookup keqb k l = None <-> ~ In k (map fst l).
Proof.
  induction l as [|[k' v'] r IH]; simpl.
  - split; auto.
  - destruct (keqb k' k) eqn:E.
    + apply keqb_eq in E. subst. split; [discriminate | intros H; exfalso; auto].
    + rewrite IH. split.
      * intros H [H1|H1]; [|auto]. subst.
        assert (keqb k k = true) by (apply keqb_eq; reflexivity). congruence.
      * intros H H1. auto.
Qed.

Lemma lookup_Some_key (k : K) (v : V) (l : list (K * V)) :
  lookup keqb k l = Some v -> In k (map fst l).
Proof. intros H. apply lookup_In in H. apply (in_map fst) in H. exact H. Qed.

Lemma In_lookup (k : K) (v : V) (l : list (K * V)) :
  NoDup (map fst l) -> In (k, v) l -> lookup keqb k l = Some v.
Proof.
  induction l as [|[k' v'] r IH]; simpl; [contradiction|].
  intros ND [H|H].
  - injection H as -> ->.
    assert (E : keqb k k = true) by (apply keqb_eq; reflexivity).
    now rewrite E.
  - inversion ND as [|? ? Hn ND']; subst.
    destruct (keqb k' k) eqn:E.
    + apply keqb_eq in E. subst. exfalso. apply Hn.
      apply (in_map fst) in H. exact H.
    + auto.
Qed.

Lemma lookup_app (k : K) (l1 l2 : list (K * V)) :
  lookup keqb k (l1 ++ l2) =
  match lookup keqb k l1 with
  | Some v => Some v
  | None => lookup keqb k l2
  end.
Proof.
  induction l1 as [|[k' v'] r IH]; simpl; [reflexivity|].
  destruct (keqb k' k); auto.
Qed.

(** Assigning to an absent key appends a binding. *)
Lemma assign_fresh (l : list (K * V)) (k : K) (v : V) :
  lookup keqb k l = None -> assign keqb l k v = l ++ [(k, v)].
Proof.
  induction l as [|[k' v'] r IH]; simpl; [reflexivity|].
  destruct (keqb k' k); [discriminate|].
  intros H. now rewrite IH.
Qed.
End AssocFacts.

(** * Puzzle graph construction *)

Lemma Crossword_init_inv (contents vocabulary : list string) (c : Crossword) :
  Crossword_init contents vocabulary = Ok c ->
  exists w,
    max_len contents = Ok w /\
    c = mkCrossword (List.length contents) w (map (structure_row w) contents)
          vocabulary
          (discover_variables (map (structure_row w) contents)
             (List.length contents) w)
          (compute_overlaps
             (discover_variables (map (structure_row w) contents)
                (List.length contents) w)).
Proof.
  unfold Crossword_init. destruct (max_len contents) as [w| |]; simpl; try discriminate.
  intros H. injection H as <-. exists w. split; reflexivity.
Qed.

Lemma Crossword_init_rectangular (contents vocabulary : list string) (c : Crossword) :
  Crossword_init contents vocabulary = Ok c -> rectangular c.
Proof.
  intros H. apply Crossword_init_inv in H. destruct H as [w [_ ->]].
  split; simpl.
  - apply length_map.
  - intros row Hr. apply in_map_iff in Hr. destruct Hr as [line [<- _]].
    unfold structure_row. rewrite length_map, length_seq. reflexivity.
Qed.

(** Inside the grid [structure[i][j]] exists, so the defaults of
    [structure_at] play no role there. *)
Lemma structure_at_in_range (c : Crossword) (i j : nat) :
  rectangular c -> i < height c -> j < width c ->
  exists row b, nth_error (structure c) i = Some row /\ nth_error row j = Some b /\
                structure_at (structure c) i j = b.
Proof.
  intros [Hh Hw] Hi Hj.
  destruct (nth_error (structure c) i) as [row|] eqn:E.
  - assert (Hin : In row (structure c)) by (eapply nth_error_In; eauto).
    specialize (Hw row Hin).
    destruct (nth_error row j) as [b|] eqn:E2.
    + exists row, b. repeat split; auto.
      unfold structure_at. rewrite (nth_error_nth _ _ _ E).
      apply nth_error_nth. exact E2.
    + apply nth_error_None in E2. lia.
  - apply nth_error_None in E. lia.
Qed.

Lemma structure_at_true_bounds (c : Crossword) (i j : nat) :
  rectangular c -> structure_at (structure c) i j = true ->
  i < height c /\ j < width c.
Proof.
  intros [Hh Hw] H. unfold structure_at in H.
  destruct (Nat.lt_ge_cases i (height c)) as [Hi|Hi].
  - split; [exact Hi|].
    destruct (Nat.lt_ge_cases j (width c)) as [Hj|Hj]; [exact Hj|].
    rewrite nth_overflow in H; [discriminate|].
    rewrite Hw; [exact Hj|]. apply nth_In. lia.
  - rewrite (nth_overflow (structure c)) in H by lia.
    destruct j; discriminate H.
Qed.

Lemma fillable_iff (c : Crossword) (r k : nat) :
  rectangular c -> (fillable c r k <-> structure_at (structure c) r k = true).
Proof.
  intros R. unfold fillable. split.
  - intros [_ [_ H]]. exact H.
  - intros H. destruct (structure_at_true_bounds _ _ _ R H). auto.
Qed.

Lemma not_fillable_iff (c : Crossword) (r k : nat) :
  rectangular c -> (~ fillable c r k <-> structure_at (structure c) r k = false).
Proof.
  intros R. rewrite (fillable_iff _ _ _ R).
  destruct (structure_at (structure c) r k); split; congruence.
Qed.

(** ** The run-counting loop *)

Lemma run_prefix (l : list bool) (k : nat) : k < run l -> nth k l false = true.
Proof.
  revert k. induction l as [|b r IH]; simpl; intros k H; [lia|].
  destruct b; [|lia]. destruct k; [reflexivity|]. apply IH. lia.
Qed.

Lemma run_stop (l : list bool) : nth (run l) l false = false.
Proof.
  induction l as [|b r IH]; simpl; [reflexivity|].
  destruct b; [exact IH | reflexivity].
Qed.

Lemma run_unique (l : list bool) (m : nat) :
  (forall k, k < m -> nth k l false = true) -> nth m l false = false -> run l = m.
Proof.
  revert m. induction l as [|b r IH]; simpl; intros m Hp Hs.
  - destruct m; [reflexivity|]. specialize (Hp 0 (Nat.lt_0_succ _)). discriminate Hp.
  - destruct b.
    + destruct m; [discriminate Hs|]. f_equal. apply IH; [|exact Hs].
      intros k Hk. apply (Hp (S k)). lia.
    + destruct m; [reflexivity|]. specialize (Hp 0 (Nat.lt_0_succ _)). discriminate Hp.
Qed.

Lemma nth_map_seq (f : nat -> bool) (a len k : nat) :
  nth k (map f (seq a len)) false = if k <? len then f (a + k) else false.
Proof.
  destruct (k <? len) eqn:E.
  - apply Nat.ltb_lt in E.
    rewrite (nth_indep _ false (f 0)) by (rewrite length_map, length_seq; exact E).
    rewrite map_nth, seq_nth by exact E. reflexivity.
  - apply Nat.ltb_ge in E. apply nth_overflow.
    rewrite length_map, length_seq. exact E.
Qed.

Lemma down_cells_nth (c : Crossword) (i j k : nat) :
  rectangular c ->
  nth k (map (fun r => structure_at (structure c) r j)
             (seq (i + 1) (height c - (i + 1)))) false
  = structure_at (structure c) (i + 1 + k) j.
Proof.
  intros R. rewrite nth_map_seq.
  destruct (k <? height c - (i + 1)) eqn:E; [reflexivity|].
  apply Nat.ltb_ge in E.
  destruct (structure_at (structure c) (i + 1 + k) j) eqn:E2; [|reflexivity].
  apply (structure_at_true_bounds _ _ _ R) in E2. lia.
Qed.

Lemma across_cells_nth (c : Crossword) (i j k : nat) :
  rectangular c ->
  nth k (map (fun r => structure_at (structure c) i r)
             (seq (j + 1) (width c - (j + 1)))) false
  = structure_at (structure c) i (j + 1 + k).
Proof.
  intros R. rewrite nth_map_seq.
  destruct (k <? width c - (j + 1)) eqn:E; [reflexivity|].
  apply Nat.ltb_ge in E.
  destruct (structure_at (structure c) i (j + 1 + k)) eqn:E2; [|reflexivity].
  apply (structure_at_true_bounds _ _ _ R) in E2. lia.
Qed.

Lemma down_length_maximal (c : Crossword) (i j n : nat) :
  rectangular c ->
  (structure_at (structure c) i j = true /\
   n = down_length (structure c) (height c) i j
   <-> 1 <= n /\ (forall k, k < n -> fillable c (i + k) j) /\ ~ fillable c (i + n) j).
Proof.
  intros R. unfold down_length. split.
  - intros [H0 ->]. split; [lia|]. split.
    + intros k Hk. apply (fillable_iff _ _ _ R).
      destruct k; [now rewrite Nat.add_0_r|].
      assert (Hk' : k < run (map (fun r => structure_at (structure c) r j)
                               (seq (i + 1) (height c - (i + 1))))) by lia.
      apply run_prefix in Hk'. rewrite (down_cells_nth _ _ _ _ R) in Hk'.
      replace (i + S k) with (i + 1 + k) by lia. exact Hk'.
    + apply (not_fillable_iff _ _ _ R).
      pose proof (run_stop (map (fun r => structure_at (structure c) r j)
                                (seq (i + 1) (height c - (i + 1))))) as Hs.
      rewrite (down_cells_nth _ _ _ _ R) in Hs.
      match goal with |- structure_at _ ?a _ = _ =>
        match type of Hs with structure_at _ ?b _ = _ => replace a with b by lia end end.
      exact Hs.
  - intros [Hn [Hall Hend]]. split.
    + specialize (Hall 0 ltac:(lia)). apply (fillable_iff _ _ _ R) in Hall.
      now rewrite Nat.add_0_r in Hall.
    + assert (E : run (map (fun r => structure_at (structure c) r j)
                           (seq (i + 1) (height c - (i + 1)))) = n - 1).
      { apply run_unique.
        - intros k Hk. rewrite (down_cells_nth _ _ _ _ R).
          replace (i + 1 + k) with (i + S k) by lia.
          apply (fillable_iff _ _ _ R). apply Hall. lia.
        - rewrite (down_cells_nth _ _ _ _ R).
          replace (i + 1 + (n - 1)) with (i + n) by lia.
          apply (not_fillable_iff _ _ _ R). exact Hend. }
      rewrite E. lia.
Qed.

Lemma across_length_maximal (c : Crossword) (i j n : nat) :
  rectangular c ->
  (structure_at (structure c) i j = true /\
   n = across_length (structure c) (width c) i j
   <-> 1 <= n /\ (forall k, k < n -> fillable c i (j + k)) /\ ~ fillable c i (j + n)).
Proof.
  intros R. unfold across_length. split.
  - intros [H0 ->]. split; [lia|]. split.
    + intros k Hk. apply (fillable_iff _ _ _ R).
      destruct k; [now rewrite Nat.add_0_r|].
      assert (Hk' : k < run (map (fun r => structure_at (structure c) i r)
                               (seq (j + 1) (width c - (j + 1))))) by lia.
      apply run_prefix in Hk'. rewrite (across_cells_nth _ _ _ _ R) in Hk'.
      replace (j + S k) with (j + 1 + k) by lia. exact Hk'.
    + apply (not_fillable_iff _ _ _ R).
      pose proof (run_stop (map (fun r => structure_at (structure c) i r)
                                (seq (j + 1) (width c - (j + 1))))) as Hs.
      rewrite (across_cells_nth _ _ _ _ R) in Hs.
      match goal with |- structure_at _ _ ?a = _ =>
        match type of Hs with structure_at _ _ ?b = _ => replace a with b by lia end end.
      exact Hs.
  - intros [Hn [Hall Hend]]. split.
    + specialize (Hall 0 ltac:(lia)). apply (fillable_iff _ _ _ R) in Hall.
      now rewrite Nat.add_0_r in Hall.
    + assert (E : run (map (fun r => structure_at (structure c) i r)
                           (seq (j + 1) (width c - (j + 1)))) = n - 1).
      { apply run_unique.
        - intros k Hk. rewrite (across_cells_nth _ _ _ _ R).
          replace (j + 1 + k) with (j + S k) by lia.
          apply (fillable_iff _ _ _ R). apply Hall. lia.
        - rewrite (across_cells_nth _ _ _ _ R).
          replace (j + 1 + (n - 1)) with (j + n) by lia.
          apply (not_fillable_iff _ _ _ R). exact Hend. }
      rewrite E. lia.
Qed.

(** ** The set of discovered variables *)

Lemma set_add_In (acc : list Var) (v x : Var) :
  In x (set_add acc v) <-> In x acc \/ x = v.
Proof.
  unfold set_add. destruct (existsb (Var_eqb v) acc) eqn:E.
  - apply existsb_Var_eqb in E. split; [auto|]. intros [H| ->]; assumption.
  - rewrite in_app_iff. simpl. split.
    + intros [H|[H|[]]]; auto.
    + intros [H|H]; auto.
Qed.

Lemma set_add_NoDup (acc : list Var) (v : Var) :
  NoDup acc -> NoDup (set_add acc v).
Proof.
  intros ND. unfold set_add. destruct (existsb (Var_eqb v) acc) eqn:E; [exact ND|].
  assert (Hn : ~ In v acc).
  { intros H. apply existsb_Var_eqb in H. congruence. }
  apply NoDup_app; [exact ND | repeat constructor; simpl; tauto |].
  intros x Hx [<-|[]]. contradiction.
Qed.

Lemma fold_set_add_In (l acc : list Var) (x : Var) :
  In x (fold_left set_add l acc) <-> In x acc \/ In x l.
Proof.
  revert acc. induction l as [|v r IH]; simpl; intros acc.
  - tauto.
  - rewrite IH, set_add_In. intuition auto.
Qed.

Lemma fold_set_add_NoDup (l acc : list Var) :
  NoDup acc -> NoDup (fold_left set_add l acc).
Proof.
  revert acc. induction l as [|v r IH]; simpl; intros acc ND; [exact ND|].
  apply IH, set_add_NoDup, ND.
Qed.

Lemma discover_variables_In (s : list (list bool)) (h w : nat) (v : Var) :
  In v (discover_variables s h w) <->
  exists i j, i < h /\ j < w /\ (In v (down_slot s h i j) \/ In v (across_slot s w i j)).
Proof.
  unfold discover_variables, slot_candidates.
  rewrite fold_set_add_In. simpl. split.
  - intros [[]|H]. apply in_flat_map in H. destruct H as [i [Hi H]].
    apply in_flat_map in H. destruct H as [j [Hj H]].
    apply in_seq in Hi. apply in_seq in Hj. apply in_app_iff in H.
    exists i, j. repeat split; try lia; exact H.
  - intros [i [j [Hi [Hj H]]]]. right.
    apply in_flat_map. exists i. split; [apply in_seq; lia|].
    apply in_flat_map. exists j. split; [apply in_seq; lia|].
    apply in_app_iff. exact H.
Qed.

Lemma down_slot_In (s : list (list bool)) (h i j : nat) (v : Var) :
  In v (down_slot s h i j) <->
  structure_at s i j = true /\
  (i = 0 \/ structure_at s (i - 1) j = false) /\
  1 < down_length s h i j /\
  v = mkVar i j DOWN (down_length s h i j).
Proof.
  unfold down_slot.
  destruct (structure_at s i j) eqn:E1; simpl.
  - destruct (i =? 0) eqn:E2; simpl.
    + apply Nat.eqb_eq in E2.
      destruct (1 <? down_length s h i j) eqn:E3.
      * apply Nat.ltb_lt in E3. simpl. intuition auto.
      * apply Nat.ltb_ge in E3. simpl. intuition lia.
    + apply Nat.eqb_neq in E2.
      destruct (structure_at s (i - 1) j) eqn:E4; simpl.
      * intuition (try lia; try discriminate).
      * destruct (1 <? down_length s h i j) eqn:E3.
        -- apply Nat.ltb_lt in E3. simpl. intuition auto.
        -- apply Nat.ltb_ge in E3. simpl. intuition lia.
  - intuition discriminate.
Qed.

Lemma across_slot_In (s : list (list bool)) (w i j : nat) (v : Var) :
  In v (across_slot s w i j) <->
  structure_at s i j = true /\
  (j = 0 \/ structure_at s i (j - 1) = false) /\
  1 < across_length s w i j /\
  v = mkVar i j ACROSS (across_length s w i j).
Proof.
  unfold across_slot.
  destruct (structure_at s i j) eqn:E1; simpl.
  - destruct (j =? 0) eqn:E2; simpl.
    + apply Nat.eqb_eq in E2.
      destruct (1 <? across_length s w i j) eqn:E3.
      * apply Nat.ltb_lt in E3. simpl. intuition auto.
      * apply Nat.ltb_ge in E3. simpl. intuition lia.
    + apply Nat.eqb_neq in E2.
      destruct (structure_at s i (j - 1)) eqn:E4; simpl.
      * intuition (try lia; try discriminate).
      * destruct (1 <? across_length s w i j) eqn:E3.
        -- apply Nat.ltb_lt in E3. simpl. intuition auto.
        -- apply Nat.ltb_ge in E3. simpl. intuition lia.
  - intuition discriminate.
Qed.

(** A crossword whose variables are the ones the discovery loops find in its
    own grid, with the overlap table computed from them: what
    [Crossword.__init__] returns. *)
Lemma Crossword_init_built (contents vocabulary : list string) (c : Crossword) :
  Crossword_init contents vocabulary = Ok c -> built c.
Proof.
  intros H. split; [eapply Crossword_init_rectangular; eauto|].
  apply Crossword_init_inv in H. destruct H as [w [_ ->]]. simpl. split; reflexivity.
Qed.

Lemma variables_NoDup (c : Crossword) : built c -> NoDup (variables c).
Proof.
  intros [_ [-> _]]. apply fold_set_add_NoDup. constructor.
Qed.

Lemma variables_down (c : Crossword) (i j n : nat) :
  built c ->
  (In (mkVar i j DOWN n) (variables c) <-> maximal_run_down c i j n /\ 2 <= n).
Proof.
  intros [R [-> _]]. rewrite discover_variables_In. unfold maximal_run_down. split.
  - intros [i' [j' [Hi [Hj [H|H]]]]].
    + apply down_slot_In in H. destruct H as [H0 [Hup [Hlen E]]].
      injection E as -> -> ->.
      destruct (proj1 (down_length_maximal c i' j' _ R) (conj H0 eq_refl))
        as [H1 [H2 H3]].
      split; [|lia]. split; [exact H1|]. split; [exact H2|]. split; [|exact H3].
      destruct Hup as [Hup|Hup]; [left; exact Hup | right].
      apply (not_fillable_iff _ _ _ R). exact Hup.
    + apply across_slot_In in H. destruct H as [_ [_ [_ E]]]. discriminate E.
  - intros [[H1 [H2 [Hup H3]]] Hn].
    destruct (proj2 (down_length_maximal c i j n R) (conj H1 (conj H2 H3)))
      as [H0 E].
    destruct (structure_at_true_bounds _ _ _ R H0) as [Hi Hj].
    exists i, j. split; [exact Hi|]. split; [exact Hj|]. left.
    apply down_slot_In. split; [exact H0|]. split; [|split].
    + destruct Hup as [Hup|Hup]; [left; exact Hup | right].
      apply (not_fillable_iff _ _ _ R). exact Hup.
    + lia.
    + now rewrite <- E.
Qed.

Lemma variables_across (c : Crossword) (i j n : nat) :
  built c ->
  (In (mkVar i j ACROSS n) (variables c) <-> maximal_run_across c i j n /\ 2 <= n).
Proof.
  intros [R [-> _]]. rewrite discover_variables_In. unfold maximal_run_across. split.
  - intros [i' [j' [Hi [Hj [H|H]]]]].
    + apply down_slot_In in H. destruct H as [_ [_ [_ E]]]. discriminate E.
    + apply across_slot_In in H. destruct H as [H0 [Hup [Hlen E]]].
      injection E as -> -> ->.
      destruct (proj1 (across_length_maximal c i' j' _ R) (conj H0 eq_refl))
        as [H1 [H2 H3]].
      split; [|lia]. split; [exact H1|]. split; [exact H2|]. split; [|exact H3].
      destruct Hup as [Hup|Hup]; [left; exact Hup | right].
      apply (not_fillable_iff _ _ _ R). exact Hup.
  - intros [[H1 [H2 [Hup H3]]] Hn].
    destruct (proj2 (across_length_maximal c i j n R) (conj H1 (conj H2 H3)))
      as [H0 E].
    destruct (structure_at_true_bounds _ _ _ R H0) as [Hi Hj].
    exists i, j. split; [exact Hi|]. split; [exact Hj|]. right.
    apply across_slot_In. split; [exact H0|]. split; [|split].
    + destruct Hup as [Hup|Hup]; [left; exact Hup | right].
      apply (not_fillable_iff _ _ _ R). exact Hup.
    + lia.
    + now rewrite <- E.
Qed.

(** C7. Slot discovery produces exactly the maximal runs of fillable cells
    of length at least 2 in each orientation: a DOWN variable of length [n]
    starting at [(i, j)] is in the set iff the [n] cells from [(i, j)]
    downwards are a maximal fillable run and [n >= 2] (symmetrically for
    ACROSS); in particular no variable has length 1, and the set holds no
    variable twice. *)
Theorem slot_discovery_exact (contents vocabulary : list string) (c : Crossword) :
  Crossword_init contents vocabulary = Ok c ->
  NoDup (variables c) /\
  (forall i j n,
      In (mkVar i j DOWN n) (variables c) <-> maximal_run_down c i j n /\ 2 <= n) /\
  (forall i j n,
      In (mkVar i j ACROSS n) (variables c) <-> maximal_run_across c i j n /\ 2 <= n).
Proof.
  intros H. apply Crossword_init_built in H.
  split; [apply variables_NoDup, H|].
  split; intros i j n; [apply variables_down | apply variables_across]; exact H.
Qed.

(** ** Cells and overlaps *)

Lemma cells_length (v : Var) : List.length (cells v) = var_length v.
Proof. unfold cells. now rewrite length_map, length_seq. Qed.

Lemma cells_In (v : Var) (r k : nat) :
  In (r, k) (cells v) <->
  match var_direction v with
  | DOWN => k = var_j v /\ var_i v <= r < var_i v + var_length v
  | ACROSS => r = var_i v /\ var_j v <= k < var_j v + var_length v
  end.
Proof.
  unfold cells. rewrite in_map_iff. destruct v as [i j dr n]; simpl.
  destruct dr; simpl; split.
  - intros [x [E Hx]]. apply in_seq in Hx. injection E as <- <-. lia.
  - intros [-> H]. exists (k - j). split; [f_equal; lia | apply in_seq; lia].
  - intros [x [E Hx]]. apply in_seq in Hx. injection E as <- <-. lia.
  - intros [-> H]. exists (r - i). split; [f_equal; lia | apply in_seq; lia].
Qed.

Lemma intersection_In (l1 l2 : list cell) (x : cell) :
  In x (intersection l1 l2) <-> In x l1 /\ In x l2.
Proof.
  unfold intersection. rewrite filter_In, existsb_cell_eqb. tauto.
Qed.

Lemma index_nth_error (x : cell) (l : list cell) :
  In x l -> nth_error l (index x l) = Some x.
Proof.
  induction l as [|y r IH]; simpl; [contradiction|].
  intros H. destruct (cell_eqb y x) eqn:E.
  - apply cell_eqb_eq in E. subst. reflexivity.
  - simpl. apply IH. destruct H as [H|H]; [|exact H].
    subst. assert (cell_eqb x x = true) by (apply cell_eqb_eq; reflexivity). congruence.
Qed.

Lemma index_lt (x : cell) (l : list cell) : In x l -> index x l < List.length l.
Proof.
  intros H. apply index_nth_error in H.
  apply nth_error_Some. congruence.
Qed.

Lemma overlap_of_None_sym (a b : Var) :
  overlap_of a b = None -> overlap_of b a = None.
Proof.
  unfold overlap_of.
  destruct (intersection (cells a) (cells b)) as [|x r] eqn:E; [|discriminate].
  intros _.
  destruct (intersection (cells b) (cells a)) as [|y r'] eqn:E'; [reflexivity|].
  assert (H : In y (intersection (cells a) (cells b))).
  { apply intersection_In.
    assert (H : In y (intersection (cells b) (cells a))) by (rewrite E'; now left).
    apply intersection_In in H. tauto. }
  rewrite E in H. contradiction.
Qed.

Lemma overlap_of_Some_sym (a b : Var) (i j : nat) :
  meet_once a b ->
  overlap_of a b = Some (i, j) ->
  overlap_of b a = Some (j, i) /\
  i < var_length a /\ j < var_length b /\
  exists x, nth_error (cells a) i = Some x /\ nth_error (cells b) j = Some x.
Proof.
  intros M. unfold overlap_of.
  destruct (intersection (cells a) (cells b)) as [|x r] eqn:E; [discriminate|].
  intros H. injection H as <- <-.
  assert (Hx : In x (cells a) /\ In x (cells b)).
  { apply intersection_In. rewrite E. now left. }
  destruct Hx as [Hxa Hxb].
  destruct (intersection (cells b) (cells a)) as [|y r'] eqn:E'.
  - assert (H : In x (intersection (cells b) (cells a))) by (apply intersection_In; tauto).
    rewrite E' in H. contradiction.
  - assert (Hy : In y (cells b) /\ In y (cells a)).
    { apply intersection_In. rewrite E'. now left. }
    destruct Hy as [Hyb Hya].
    assert (y = x) by (apply M; assumption). subst y.
    split; [reflexivity|].
    split; [rewrite <- cells_length; now apply index_lt|].
    split; [rewrite <- cells_length; now apply index_lt|].
    exists x. split; now apply index_nth_error.
Qed.

Lemma compute_overlaps_In (vars : list Var) (a b : Var) (o : option (nat * nat)) :
  In ((a, b), o) (compute_overlaps vars) <->
  In a vars /\ In b vars /\ a <> b /\ o = overlap_of a b.
Proof.
  unfold compute_overlaps. rewrite in_flat_map. split.
  - intros [v1 [H1 H]]. apply in_flat_map in H. destruct H as [v2 [H2 H]].
    destruct (Var_eqb v1 v2) eqn:E; [contradiction|].
    destruct H as [H|[]]. injection H as -> -> <-.
    apply Var_eqb_neq in E. auto.
  - intros [Ha [Hb [Hn ->]]]. exists a. split; [exact Ha|].
    apply in_flat_map. exists b. split; [exact Hb|].
    apply Var_eqb_neq in Hn. rewrite Hn. now left.
Qed.

Lemma compute_overlaps_key (vars : list Var) (a b : Var) :
  In (a, b) (map fst (compute_overlaps vars)) <->
  In a vars /\ In b vars /\ a <> b.
Proof.
  rewrite in_map_iff. split.
  - intros [[[a' b'] o] [E H]]. simpl in E. injection E as -> ->.
    apply compute_overlaps_In in H. tauto.
  - intros [Ha [Hb Hn]]. exists ((a, b), overlap_of a b). split; [reflexivity|].
    apply compute_overlaps_In. auto.
Qed.

(** The table holds an entry exactly for the ordered pairs of distinct
    variables, and the entry is the computed overlap. *)
Lemma overlaps_get_built (c : Crossword) (a b : Var) :
  built c ->
  (In a (variables c) -> In b (variables c) -> a <> b ->
   overlaps_get c (a, b) = Some (overlap_of a b)) /\
  (forall o, overlaps_get c (a, b) = Some o ->
             In a (variables c) /\ In b (variables c) /\ a <> b /\ o = overlap_of a b).
Proof.
  intros [_ [_ Ho]]. unfold overlaps_get. rewrite Ho.
  assert (Hsome : forall o, lookup pair_eqb (a, b) (compute_overlaps (variables c)) = Some o ->
             In a (variables c) /\ In b (variables c) /\ a <> b /\ o = overlap_of a b).
  { intros o H. apply (lookup_In pair_eqb pair_eqb_eq) in H.
    apply compute_overlaps_In in H. exact H. }
  split; [|exact Hsome].
  intros Ha Hb Hn.
  destruct (lookup pair_eqb (a, b) (compute_overlaps (variables c))) as [o|] eqn:E.
  - destruct (Hsome o eq_refl) as [_ [_ [_ ->]]]. reflexivity.
  - apply (lookup_None pair_eqb pair_eqb_eq) in E. exfalso. apply E.
    apply compute_overlaps_key. auto.
Qed.

(** Distinct variables of a crossword meet in at most one cell: two runs of
    the same orientation that share a cell are the same maximal run, and an
    ACROSS and a DOWN run cross in one cell. *)
Lemma variables_meet_once (c : Crossword) (a b : Var) :
  built c -> In a (variables c) -> In b (variables c) -> a <> b -> meet_once a b.
Proof.
  intros B Ha Hb Hn [r1 k1] [r2 k2] H1a H1b H2a H2b.
  apply cells_In in H1a, H1b, H2a, H2b.
  destruct a as [ia ja da na], b as [ib jb db nb]; simpl in *.
  destruct da, db.
  - (* both ACROSS *)
    exfalso. apply Hn.
    apply (variables_across _ _ _ _ B) in Ha, Hb.
    destruct Ha as [[_ [Fa [Sa Ea]]] _], Hb as [[_ [Fb [Sb Eb]]] _].
    destruct H1a as [-> H1a], H1b as [E H1b]. subst ib.
    assert (ja = jb).
    { destruct (Nat.lt_trichotomy ja jb) as [L|[L|L]]; [|exact L|].
      - destruct Sb as [Sb|Sb]; [lia|]. exfalso. apply Sb.
        replace (jb - 1) with (ja + (jb - 1 - ja)) by lia. apply Fa. lia.
      - destruct Sa as [Sa|Sa]; [lia|]. exfalso. apply Sa.
        replace (ja - 1) with (jb + (ja - 1 - jb)) by lia. apply Fb. lia. }
    subst jb.
    assert (na = nb).
    { destruct (Nat.lt_trichotomy na nb) as [L|[L|L]]; [|exact L|].
      - exfalso. apply Ea. apply Fb. exact L.
      - exfalso. apply Eb. apply Fa. exact L. }
    subst nb. reflexivity.
  - f_equal; lia.
  - f_equal; lia.
  - (* both DOWN *)
    exfalso. apply Hn.
    apply (variables_down _ _ _ _ B) in Ha, Hb.
    destruct Ha as [[_ [Fa [Sa Ea]]] _], Hb as [[_ [Fb [Sb Eb]]] _].
    destruct H1a as [-> H1a], H1b as [E H1b]. subst jb.
    assert (ia = ib).
    { destruct (Nat.lt_trichotomy ia ib) as [L|[L|L]]; [|exact L|].
      - destruct Sb as [Sb|Sb]; [lia|]. exfalso. apply Sb.
        replace (ib - 1) with (ia + (ib - 1 - ia)) by lia. apply Fa. lia.
      - destruct Sa as [Sa|Sa]; [lia|]. exfalso. apply Sa.
        replace (ia - 1) with (ib + (ia - 1 - ib)) by lia. apply Fb. lia. }
    subst ib.
    assert (na = nb).
    { destruct (Nat.lt_trichotomy na nb) as [L|[L|L]]; [|exact L|].
      - exfalso. apply Ea. apply Fb. exact L.
      - exfalso. apply Eb. apply Fa. exact L. }
    subst nb. reflexivity.
Qed.

(** [self.overlaps] is symmetric: the two entries of a pair are both [None]
    or name the same cell with the indices swapped, each index within its
    variable. *)
Lemma overlaps_sym (c : Crossword) (a b : Var) :
  built c ->
  (overlaps_get c (a, b) = Some None -> overlaps_get c (b, a) = Some None) /\
  (forall i j, overlaps_get c (a, b) = Some (Some (i, j)) ->
     overlaps_get c (b, a) = Some (Some (j, i)) /\
     i < var_length a /\ j < var_length b /\
     exists x, nth_error (cells a) i = Some x /\ nth_error (cells b) j = Some x).
Proof.
  intros B. split.
  - intros H. apply (overlaps_get_built c a b B) in H.
    destruct H as [Ha [Hb [Hn Ho]]].
    rewrite (proj1 (overlaps_get_built c b a B)) by auto.
    f_equal. apply overlap_of_None_sym. now symmetry.
  - intros i j H. apply (overlaps_get_built c a b B) in H.
    destruct H as [Ha [Hb [Hn Ho]]].
    rewrite (proj1 (overlaps_get_built c b a B)) by auto.
    symmetry in Ho.
    apply overlap_of_Some_sym in Ho; [|now apply (variables_meet_once c a b B)].
    destruct Ho as [-> Hrest]. split; [reflexivity | exact Hrest].
Qed.

(** C8. For every ordered pair of distinct variables of a crossword, the
    overlap table has an entry for the pair and for the swapped pair; one is
    [None] iff the other is, and when [overlaps[A, B] = (i, j)] then
    [overlaps[B, A] = (j, i)] and the cell of [A] at index [i] is the cell of
    [B] at index [j]. *)
Theorem overlap_symmetry (contents vocabulary : list string) (c : Crossword)
        (A B : Var) :
  Crossword_init contents vocabulary = Ok c ->
  In A (variables c) -> In B (variables c) -> A <> B ->
  overlaps_get c (A, B) <> None /\ overlaps_get c (B, A) <> None /\
  (overlaps_get c (A, B) = Some None <-> overlaps_get c (B, A) = Some None) /\
  (forall i j, overlaps_get c (A, B) = Some (Some (i, j)) ->
     overlaps_get c (B, A) = Some (Some (j, i)) /\
     exists x, nth_error (cells A) i = Some x /\ nth_error (cells B) j = Some x).
Proof.
  intros H HA HB Hn. apply Crossword_init_built in H.
  split; [rewrite (proj1 (overlaps_get_built c A B H)) by auto; discriminate|].
  split; [rewrite (proj1 (overlaps_get_built c B A H)) by auto; discriminate|].
  split.
  - split; apply overlaps_sym; exact H.
  - intros i j E. apply (overlaps_sym c A B H) in E. tauto.
Qed.

(** * Domains *)

Lemma dom_get_Ok (d : domains) (v : Var) (ws : list string) :
  dom_get d v = Ok ws <-> lookup Var_eqb v d = Some ws.
Proof.
  unfold dom_get. destruct (lookup Var_eqb v d); split; intros H;
    try discriminate; injection H as ->; reflexivity.
Qed.

Lemma dom_get_not_timeout (d : domains) (v : Var) : dom_get d v <> OutOfFuel.
Proof. unfold dom_get. destruct (lookup Var_eqb v d); discriminate. Qed.

Lemma dom_get_key (d : domains) (v : Var) :
  In v (map fst d) -> exists ws, dom_get d v = Ok ws.
Proof.
  intros H. unfold dom_get. destruct (lookup Var_eqb v d) as [ws|] eqn:E.
  - now exists ws.
  - apply (lookup_None Var_eqb Var_eqb_eq) in E. contradiction.
Qed.

Lemma filter_filter {A : Type} (f g : A -> bool) (l : list A) :
  filter g (filter f l) = filter (fun a => f a && g a) l.
Proof.
  induction l as [|a r IH]; simpl; [reflexivity|].
  destruct (f a); simpl; [destruct (g a)|]; now rewrite IH.
Qed.

Lemma filter_all {A : Type} (f : A -> bool) (l : list A) :
  (forall a, In a l -> f a = true) -> filter f l = l.
Proof.
  induction l as [|a r IH]; simpl; intros H; [reflexivity|].
  rewrite (H a) by now left. f_equal. apply IH. intros b Hb. apply H. now right.
Qed.

Lemma filter_length_lt {A : Type} (f : A -> bool) (l : list A) (a : A) :
  In a l -> f a = false -> List.length (filter f l) < List.length l.
Proof.
  induction l as [|b r IH]; simpl; [contradiction|].
  intros [->|H] Hf.
  - rewrite Hf. pose proof (filter_length_le f r). lia.
  - specialize (IH H Hf). destruct (f b); simpl; lia.
Qed.

Lemma dom_remove_filter (d : domains) (x : Var) (w : string) :
  dom_remove d x w = dom_filter d x (fun w' => negb (String.eqb w' w)).
Proof. reflexivity. Qed.

Lemma dom_filter_keys (d : domains) (x : Var) (f : string -> bool) :
  map fst (dom_filter d x f) = map fst d.
Proof.
  unfold dom_filter. rewrite map_map. apply map_ext.
  intros e. now destruct (Var_eqb (fst e) x).
Qed.

Lemma dom_filter_compose (d : domains) (x : Var) (f g : string -> bool) :
  dom_filter (dom_filter d x f) x g = dom_filter d x (fun w => f w && g w).
Proof.
  unfold dom_filter. rewrite map_map. apply map_ext.
  intros [k ws]. simpl. destruct (Var_eqb k x) eqn:E; simpl; rewrite E; [|reflexivity].
  now rewrite filter_filter.
Qed.

Lemma dom_filter_true (d : domains) (x : Var) (f : string -> bool) :
  (forall w, f w = true) -> dom_filter d x f = d.
Proof.
  intros H. unfold dom_filter. rewrite <- (map_id d) at 2. apply map_ext.
  intros [k ws]. simpl. destruct (Var_eqb k x); [|reflexivity].
  f_equal. apply filter_all. auto.
Qed.

Lemma lookup_dom_filter (d : domains) (x v : Var) (f : string -> bool) :
  lookup Var_eqb v (dom_filter d x f) =
  if Var_eqb v x then option_map (filter f) (lookup Var_eqb v d)
  else lookup Var_eqb v d.
Proof.
  induction d as [|[k ws] r IH]; simpl.
  - now destruct (Var_eqb v x).
  - destruct (Var_eqb k x) eqn:Ekx; simpl; destruct (Var_eqb k v) eqn:Ekv.
    + apply Var_eqb_eq in Ekv. subst. now rewrite Ekx.
    + exact IH.
    + apply Var_eqb_eq in Ekv. subst. now rewrite Ekx.
    + exact IH.
Qed.

Lemma total_size_dom_filter_le (d : domains) (x : Var) (f : string -> bool) :
  total_size (dom_filter d x f) <= total_size d.
Proof.
  unfold total_size. induction d as [|[k ws] r IH]; simpl; [lia|].
  destruct (Var_eqb k x); simpl; [pose proof (filter_length_le f ws)|]; lia.
Qed.

Lemma total_size_dom_filter_lt (d : domains) (x : Var) (f : string -> bool)
      (ws : list string) (w : string) :
  In (x, ws) d -> In w ws -> f w = false ->
  total_size (dom_filter d x f) < total_size d.
Proof.
  intros Hin Hw Hf. induction d as [|[k ws'] r IH]; [contradiction|].
  destruct Hin as [E|Hin].
  - injection E as -> ->.
    pose proof (total_size_dom_filter_le r x f) as Hle.
    unfold total_size in *. simpl. rewrite Var_eqb_refl. simpl.
    pose proof (filter_length_lt f ws w Hw Hf). lia.
  - specialize (IH Hin). unfold total_size in *. simpl.
    destruct (Var_eqb k x); simpl; [pose proof (filter_length_le f ws')|]; lia.
Qed.

(** Node consistency keeps, in every domain, exactly the words of the
    variable's length. *)
Lemma node_filter_fold (n : nat) (ws live : list string) :
  fold_left (fun live word =>
               if negb (String.length word =? n) then set_remove word live else live)
            ws live
  = filter (fun w => negb (mem w (filter (fun w => negb (String.length w =? n)) ws))) live.
Proof.
  revert live. induction ws as [|w r IH]; simpl; intros live.
  - symmetry. apply filter_all. auto.
  - rewrite IH. destruct (String.length w =? n) eqn:E; simpl; [reflexivity|].
    unfold set_remove. rewrite filter_filter. apply filter_ext.
    intros a. unfold mem. simpl. rewrite negb_orb. reflexivity.
Qed.

Lemma ensure_node_consistency_entry (d : domains) (v : Var) (ws : list string) :
  In (v, ws) (ensure_node_consistency d) <->
  exists ws0, In (v, ws0) d /\
              ws = filter (fun w => String.length w =? var_length v) ws0.
Proof.
  unfold ensure_node_consistency. rewrite in_map_iff. split.
  - intros [[k ws0] [E H]]. simpl in E. injection E as -> <-.
    exists ws0. split; [exact H|]. rewrite node_filter_fold.
    apply filter_ext_in. intros w Hw.
    destruct (String.length w =? var_length v) eqn:E.
    + apply negb_true_iff. apply not_true_is_false. intros Hm.
      apply mem_In, filter_In in Hm. destruct Hm as [_ Hm]. rewrite E in Hm. discriminate.
    + apply negb_false_iff. apply mem_In, filter_In. split; [exact Hw|]. now rewrite E.
  - intros [ws0 [H ->]]. exists (v, ws0). split; [|exact H]. simpl. f_equal.
    rewrite node_filter_fold. apply filter_ext_in. intros w Hw.
    destruct (String.length w =? var_length v) eqn:E.
    + apply negb_true_iff. apply not_true_is_false. intros Hm.
      apply mem_In, filter_In in Hm. destruct Hm as [_ Hm]. rewrite E in Hm. discriminate.
    + apply negb_false_iff. apply mem_In, filter_In. split; [exact Hw|]. now rewrite E.
Qed.

Lemma ensure_node_consistency_keys (d : domains) :
  map fst (ensure_node_consistency d) = map fst d.
Proof.
  unfold ensure_node_consistency. rewrite map_map. apply map_ext. reflexivity.
Qed.

Lemma ensure_node_consistency_ok (d : domains) :
  node_consistent (ensure_node_consistency d).
Proof.
  intros v ws w H Hw. apply ensure_node_consistency_entry in H.
  destruct H as [ws0 [_ ->]]. apply filter_In in Hw. destruct Hw as [_ Hw].
  now apply Nat.eqb_eq.
Qed.

Lemma init_domains_keys (c : Crossword) : map fst (init_domains c) = variables c.
Proof.
  unfold init_domains. rewrite map_map. simpl. apply map_id.
Qed.

Lemma node_consistent_dom_filter (d : domains) (x : Var) (f : string -> bool) :
  node_consistent d -> node_consistent (dom_filter d x f).
Proof.
  intros N v ws w H Hw. unfold dom_filter in H. apply in_map_iff in H.
  destruct H as [[k ws0] [E H]]. simpl in E.
  destruct (Var_eqb k x).
  - injection E as -> <-. apply filter_In in Hw. eapply N; [exact H | tauto].
  - injection E as -> ->. eapply N; eauto.
Qed.

(** * Arc revision *)

Lemma get_in_range (w : string) (i : nat) :
  i < String.length w -> exists a, String.get i w = Some a.
Proof.
  revert i. induction w as [|ch r IH]; simpl; intros i H; [lia|].
  destruct i; [now exists ch|]. apply IH. lia.
Qed.

Lemma str_index_Ok (w : string) (i : nat) (a : ascii) :
  str_index w i = Ok a <-> String.get i w = Some a.
Proof.
  unfold str_index. destruct (String.get i w); split; intros H;
    try discriminate; injection H as ->; reflexivity.
Qed.

Lemma agree_swap (i j : nat) (wx wy : string) : agree i j wx wy = agree j i wy wx.
Proof.
  unfold agree. destruct (String.get i wx), (String.get j wy); try reflexivity.
  apply Ascii.eqb_sym.
Qed.

Lemma supported_true (i j : nat) (ys : list string) (wx : string) :
  supported i j ys wx = true <-> exists wy, In wy ys /\ agree i j wx wy = true.
Proof. unfold supported. apply existsb_exists. Qed.

Lemma revise_inner_Ok (i j : nat) (xw : string) (ys : list string) (r b : bool) :
  revise_inner i j xw ys r = Ok b -> b = r && negb (supported i j ys xw).
Proof.
  revert r. induction ys as [|yw ys' IH]; simpl; intros r H.
  - injection H as <-. now rewrite andb_true_r.
  - unfold agree.
    destruct (str_index xw i) as [a| |] eqn:Ea; simpl in H; try discriminate.
    destruct (str_index yw j) as [a'| |] eqn:Eb; simpl in H; try discriminate.
    apply str_index_Ok in Ea, Eb. rewrite Ea, Eb.
    apply IH in H. rewrite H. fold (agree i j xw). fold (supported i j ys' xw).
    destruct (Ascii.eqb a a'); simpl; [now rewrite andb_false_r | reflexivity].
Qed.

Lemma revise_inner_not_timeout (i j : nat) (xw : string) (ys : list string) (r : bool) :
  revise_inner i j xw ys r <> OutOfFuel.
Proof.
  revert r. induction ys as [|yw ys' IH]; simpl; intros r; [discriminate|].
  unfold str_index. destruct (String.get i xw); simpl; [|discriminate].
  destruct (String.get j yw); simpl; [apply IH | discriminate].
Qed.

Lemma revise_inner_safe (i j : nat) (xw : string) (ys : list string) (r : bool) :
  i < String.length xw -> (forall yw, In yw ys -> j < String.length yw) ->
  exists b, revise_inner i j xw ys r = Ok b.
Proof.
  intros Hi. revert r. induction ys as [|yw ys' IH]; simpl; intros r Hj.
  - now exists r.
  - destruct (get_in_range _ _ Hi) as [a Ea].
    destruct (get_in_range yw j) as [a' Eb]; [apply Hj; now left|].
    unfold str_index. rewrite Ea, Eb. simpl. apply IH. intros y Hy. apply Hj. now right.
Qed.

(** Facts about the revision loop that hold for any pair of variables:
    the result is the old map with the domain of [x] filtered; a [False]
    result leaves the map as it was; a [True] result that was not inherited
    removed some word of the list iterated. *)
Lemma revise_loop_general (i j : nat) (x y : Var) (xs : list string) (d d' : domains)
      (rev b : bool) :
  revise_loop i j x y xs d rev = Ok (b, d') ->
  (exists F, d' = dom_filter d x F /\
             (b = true -> rev = true \/ exists w, In w xs /\ F w = false)) /\
  (b = false -> d' = d /\ rev = false).
Proof.
  revert d rev. induction xs as [|xw xs' IH]; simpl; intros d rev H.
  - injection H as <- <-. split.
    + exists (fun _ => true). split; [symmetry; now apply dom_filter_true | auto].
    + auto.
  - destruct (dom_get d y) as [ys| |]; simpl in H; try discriminate.
    destruct (revise_inner i j xw ys true) as [rm| |]; simpl in H; try discriminate.
    destruct rm.
    + apply IH in H. destruct H as [[F [-> HF]] Hfalse]. split.
      * exists (fun w => negb (String.eqb w xw) && F w). split.
        -- rewrite dom_remove_filter. apply dom_filter_compose.
        -- intros _. right. exists xw. split; [now left|].
           now rewrite String.eqb_refl.
      * intros Hb. destruct (Hfalse Hb) as [_ Habs]. discriminate.
    + apply IH in H. destruct H as [[F [-> HF]] Hfalse]. split.
      * exists F. split; [reflexivity|]. intros Hb.
        destruct (HF Hb) as [Hr|[w [Hw HFw]]]; [now left | right].
        exists w. split; [now right | exact HFw].
      * exact Hfalse.
Qed.

Lemma revise_loop_not_timeout (i j : nat) (x y : Var) (xs : list string) (d : domains)
      (rev : bool) :
  revise_loop i j x y xs d rev <> OutOfFuel.
Proof.
  revert d rev. induction xs as [|xw xs' IH]; simpl; intros d rev; [discriminate|].
  destruct (dom_get d y) as [ys| |] eqn:E; simpl; try discriminate.
  - destruct (revise_inner i j xw ys true) as [rm| |] eqn:E2; simpl; try discriminate.
    + destruct rm; apply IH.
    + now apply revise_inner_not_timeout in E2.
  - now apply dom_get_not_timeout in E.
Qed.

Lemma supported_in_dom_filter (d : domains) (x y : Var) (f : string -> bool)
      (i j : nat) (w : string) :
  x <> y -> supported_in (dom_filter d x f) y i j w = supported_in d y i j w.
Proof.
  intros Hn. unfold supported_in. rewrite lookup_dom_filter.
  apply not_eq_sym in Hn. apply Var_eqb_neq in Hn. now rewrite Hn.
Qed.

(** For distinct variables the loop removes from the domain of [x] exactly
    the iterated words without support in the domain of [y]. *)
Lemma revise_loop_exact (i j : nat) (x y : Var) (xs : list string) (d d' : domains)
      (rev b : bool) :
  x <> y ->
  revise_loop i j x y xs d rev = Ok (b, d') ->
  exists F,
    d' = dom_filter d x F /\
    (forall w, F w = negb (mem w (filter (fun w => negb (supported_in d y i j w)) xs))) /\
    b = rev || existsb (fun w => negb (supported_in d y i j w)) xs.
Proof.
  intros Hn. revert d rev. induction xs as [|xw xs' IH]; simpl; intros d rev H.
  - injection H as <- <-. exists (fun _ => true). split; [|split].
    + symmetry. now apply dom_filter_true.
    + reflexivity.
    + now rewrite orb_false_r.
  - destruct (dom_get d y) as [ys| |] eqn:Ey; simpl in H; try discriminate.
    apply dom_get_Ok in Ey.
    destruct (revise_inner i j xw ys true) as [rm| |] eqn:Er; simpl in H; try discriminate.
    apply revise_inner_Ok in Er. simpl in Er.
    assert (Es : supported_in d y i j xw = supported i j ys xw).
    { unfold supported_in. now rewrite Ey. }
    rewrite Es, <- Er.
    destruct rm.
    + apply IH in H. destruct H as [F [-> [HF Hb]]].
      exists (fun w => negb (String.eqb w xw) && F w). split; [|split].
      * rewrite dom_remove_filter. apply dom_filter_compose.
      * intros w. rewrite HF. unfold mem. simpl. rewrite negb_orb. f_equal. f_equal.
        f_equal. apply filter_ext. intros a. rewrite dom_remove_filter.
        now rewrite supported_in_dom_filter.
      * subst b. simpl. now rewrite orb_true_r.
    + apply IH in H. destruct H as [F [-> [HF Hb]]].
      exists F. split; [reflexivity|]. split; [exact HF|]. exact Hb.
Qed.

Lemma revise_domains_not_timeout (c : Crossword) (d : domains) (x y : Var) :
  revise_domains c d x y <> OutOfFuel.
Proof.
  unfold revise_domains. destruct (overlaps_get c (x, y)) as [[[i j]|]|]; try discriminate.
  destruct (dom_get d x) as [xs| |] eqn:E; simpl; try discriminate.
  - apply revise_loop_not_timeout.
  - now apply dom_get_not_timeout in E.
Qed.

(** Every revision filters the domain of [x]; a [True] result removed one of
    its words, a [False] result changed nothing. *)
Lemma revise_domains_general (c : Crossword) (d d' : domains) (x y : Var) (b : bool) :
  revise_domains c d x y = Ok (b, d') ->
  exists F xs,
    lookup Var_eqb x d = Some xs /\
    d' = dom_filter d x F /\
    (b = true -> exists w, In w xs /\ F w = false) /\
    (b = false -> d' = d).
Proof.
  unfold revise_domains. destruct (overlaps_get c (x, y)) as [[[i j]|]|]; try discriminate.
  destruct (dom_get d x) as [xs| |] eqn:E; simpl; try discriminate.
  apply dom_get_Ok in E. intros H. apply revise_loop_general in H.
  destruct H as [[F [-> HF]] Hfalse]. exists F, xs.
  split; [exact E|]. split; [reflexivity|]. split.
  - intros Hb. destruct (HF Hb) as [Habs|Hw]; [discriminate | exact Hw].
  - intros Hb. now destruct (Hfalse Hb).
Qed.

(** For an arc of distinct variables: the new domain of [x] is the old one
    restricted to the words supported in the domain of [y], nothing else
    changes, and the result tells whether a word was removed. *)
Lemma revise_domains_exact (c : Crossword) (d d' : domains) (x y : Var) (b : bool) :
  x <> y ->
  revise_domains c d x y = Ok (b, d') ->
  exists i j dx,
    overlaps_get c (x, y) = Some (Some (i, j)) /\
    lookup Var_eqb x d = Some dx /\
    lookup Var_eqb x d' = Some (filter (supported_in d y i j) dx) /\
    (forall v, v <> x -> lookup Var_eqb v d' = lookup Var_eqb v d) /\
    map fst d' = map fst d /\
    b = existsb (fun w => negb (supported_in d y i j w)) dx.
Proof.
  intros Hn. unfold revise_domains.
  destruct (overlaps_get c (x, y)) as [[[i j]|]|]; try discriminate.
  destruct (dom_get d x) as [xs| |] eqn:E; simpl; try discriminate.
  apply dom_get_Ok in E. intros H. apply revise_loop_exact in H; [|exact Hn].
  destruct H as [F [-> [HF Hb]]].
  exists i, j, xs. split; [reflexivity|]. split; [exact E|]. split; [|split; [|split]].
  - rewrite lookup_dom_filter, Var_eqb_refl, E. simpl. f_equal.
    apply filter_ext_in. intros w Hw. rewrite HF.
    destruct (supported_in d y i j w) eqn:Es.
    + apply negb_true_iff. apply not_true_is_false. intros Hm.
      apply mem_In, filter_In in Hm. rewrite Es in Hm. destruct Hm. discriminate.
    + apply negb_false_iff. apply mem_In, filter_In. rewrite Es. auto.
  - intros v Hv. rewrite lookup_dom_filter. apply Var_eqb_neq in Hv. now rewrite Hv.
  - apply dom_filter_keys.
  - exact Hb.
Qed.

(** * Neighbors and the worklist *)

Lemma not_None_Some {A : Type} (o : option (option A)) :
  not_None o = true <-> exists a, o = Some (Some a).
Proof.
  destruct o as [[a|]|]; simpl; split; intros H; try discriminate.
  - now exists a.
  - reflexivity.
  - destruct H as [a H]. discriminate.
  - destruct H as [a H]. discriminate.
Qed.

Lemma neighbors_In (c : Crossword) (var v : Var) :
  In v (neighbors c var) <->
  In v (variables c) /\ v <> var /\ not_None (overlaps_get c (v, var)) = true.
Proof.
  unfold neighbors. rewrite filter_In, andb_true_iff, negb_true_iff, Var_eqb_neq.
  tauto.
Qed.

Lemma neighbors_length (c : Crossword) (var : Var) :
  List.length (neighbors c var) <= List.length (variables c).
Proof. apply filter_length_le. Qed.

Lemma neighbors_sym (c : Crossword) (var v : Var) :
  built c -> In v (neighbors c var) -> In var (neighbors c v).
Proof.
  intros B H. apply neighbors_In in H. destruct H as [Hv [Hn Ho]].
  apply not_None_Some in Ho. destruct Ho as [[i j] Ho].
  pose proof (proj2 (overlaps_get_built c v var B) _ Ho) as [_ [Hvar _]].
  apply (overlaps_sym c v var B) in Ho. destruct Ho as [Ho _].
  apply neighbors_In. split; [exact Hvar|]. split; [congruence|].
  now rewrite Ho.
Qed.

Lemma enqueue_eq (c : Crossword) (x y : Var) (arcs : worklist) :
  enqueue c x y arcs =
  rev (map (fun z => (z, x)) (filter (fun z => negb (Var_eqb z y)) (neighbors c x)))
  ++ arcs.
Proof.
  unfold enqueue. generalize (filter (fun z => negb (Var_eqb z y)) (neighbors c x)).
  intros zs. revert arcs. induction zs as [|z r IH]; simpl; intros arcs; [reflexivity|].
  rewrite IH, <- app_assoc. reflexivity.
Qed.

Lemma enqueue_In (c : Crossword) (x y : Var) (arcs : worklist) (a : Var * Var) :
  In a (enqueue c x y arcs) <->
  In a arcs \/ exists z, a = (z, x) /\ In z (neighbors c x) /\ z <> y.
Proof.
  rewrite enqueue_eq, in_app_iff, <- in_rev, in_map_iff. split.
  - intros [[z [E H]]|H]; [right | now left].
    apply filter_In in H. destruct H as [H1 H2].
    apply negb_true_iff, Var_eqb_neq in H2. exists z. auto.
  - intros [H|[z [E [H1 H2]]]]; [now right | left].
    exists z. split; [now symmetry|]. apply filter_In. split; [exact H1|].
    now apply negb_true_iff, Var_eqb_neq.
Qed.

Lemma enqueue_length (c : Crossword) (x y : Var) (arcs : worklist) :
  List.length (enqueue c x y arcs) <= List.length arcs + List.length (variables c).
Proof.
  rewrite enqueue_eq, length_app, length_rev, length_map.
  pose proof (filter_length_le (fun z => negb (Var_eqb z y)) (neighbors c x)).
  pose proof (neighbors_length c x). lia.
Qed.

(** * AC-3: termination *)

Lemma revise_domains_size (c : Crossword) (d d' : domains) (x y : Var) (b : bool) :
  revise_domains c d x y = Ok (b, d') ->
  (b = true -> total_size d' < total_size d) /\ (b = false -> d' = d).
Proof.
  intros H. apply revise_domains_general in H.
  destruct H as [F [xs [Hx [-> [Ht Hf]]]]]. split; [|exact Hf].
  intros Hb. destruct (Ht Hb) as [w [Hw HF]].
  apply (lookup_In Var_eqb Var_eqb_eq) in Hx.
  eapply total_size_dom_filter_lt; eauto.
Qed.

(** With fuel above the measure the loop finishes, and its outcome does not
    depend on the fuel. *)
Lemma ac3_loop_stable (c : Crossword) (fuel : nat) :
  forall fuel' d arcs,
    total_size d * S (List.length (variables c)) + List.length arcs < fuel ->
    total_size d * S (List.length (variables c)) + List.length arcs < fuel' ->
    ac3_loop fuel c d arcs = ac3_loop fuel' c d arcs /\
    ac3_loop fuel c d arcs <> OutOfFuel.
Proof.
  induction fuel as [|fuel IH]; intros fuel' d arcs H1 H2; [lia|].
  destruct fuel' as [|fuel']; [lia|].
  destruct arcs as [|[x y] rest]; simpl; [split; [reflexivity | discriminate]|].
  destruct (revise_domains c d x y) as [[b d1]| |] eqn:E; simpl.
  - apply revise_domains_size in E. destruct E as [Et Ef]. simpl in H1, H2.
    destruct b.
    + specialize (Et eq_refl).
      destruct (dom_get d1 x) as [dx| |] eqn:Ed; simpl.
      * destruct dx; [split; [reflexivity | discriminate]|].
        pose proof (enqueue_length c x y rest).
        assert (S (total_size d1) * S (List.length (variables c))
                <= total_size d * S (List.length (variables c)))
          by (apply Nat.mul_le_mono_r; lia).
        apply IH; lia.
      * split; [reflexivity | discriminate].
      * now apply dom_get_not_timeout in Ed.
    + rewrite (Ef eq_refl). apply IH; lia.
  - split; [reflexivity | discriminate].
  - now apply revise_domains_not_timeout in E.
Qed.

Lemma shrinks_refl (d : domains) : shrinks d d.
Proof.
  split; [reflexivity|]. intros v ws H. exists ws. split; [exact H | apply incl_refl].
Qed.

Lemma shrinks_trans (d1 d2 d3 : domains) :
  shrinks d1 d2 -> shrinks d2 d3 -> shrinks d1 d3.
Proof.
  intros [K1 S1] [K2 S2]. split; [congruence|].
  intros v ws3 H. destruct (S2 _ _ H) as [ws2 [H2 I2]].
  destruct (S1 _ _ H2) as [ws1 [H1 I1]].
  exists ws1. split; [exact H1 | eapply incl_tran; eauto].
Qed.

Lemma shrinks_dom_filter (d : domains) (x : Var) (f : string -> bool) :
  shrinks d (dom_filter d x f).
Proof.
  split; [apply dom_filter_keys|].
  intros v ws' H. rewrite lookup_dom_filter in H.
  destruct (Var_eqb v x).
  - destruct (lookup Var_eqb v d) as [ws|]; [|discriminate].
    simpl in H. injection H as <-. exists ws. split; [reflexivity|].
    intros w Hw. apply filter_In in Hw. tauto.
  - exists ws'. split; [exact H | apply incl_refl].
Qed.

Lemma revise_domains_shrinks (c : Crossword) (d d' : domains) (x y : Var) (b : bool) :
  revise_domains c d x y = Ok (b, d') -> shrinks d d'.
Proof.
  intros H. apply revise_domains_general in H.
  destruct H as [F [xs [_ [-> _]]]]. apply shrinks_dom_filter.
Qed.

Lemma emptied_earlier (d d1 d' : domains) (v : Var) :
  shrinks d d1 -> emptied d1 d' v -> emptied d d' v.
Proof.
  intros Hs [[ws1 [Hl Hne]] He]. split; [|exact He].
  destruct (proj2 Hs _ _ Hl) as [ws [Hws Hincl]].
  exists ws. split; [exact Hws|]. intros ->.
  destruct ws1 as [|w r]; [congruence|]. apply (Hincl w). now left.
Qed.

(** What a finished run tells: domains only shrank; on [True] no domain
    that had candidates lost them all; on [False] some domain did. *)
Lemma ac3_loop_result (c : Crossword) (fuel : nat) :
  forall d arcs b d',
    ac3_loop fuel c d arcs = Ok (b, d') ->
    shrinks d d' /\
    (b = true -> forall v, ~ emptied d d' v) /\
    (b = false -> exists v, emptied d d' v).
Proof.
  induction fuel as [|fuel IH]; intros d arcs b d' H; [discriminate|].
  destruct arcs as [|[x y] rest]; simpl in H.
  - injection H as <- <-. split; [apply shrinks_refl|]. split; [|discriminate].
    intros _ v [[ws [Hl Hne]] He]. congruence.
  - destruct (revise_domains c d x y) as [[rv d1]| |] eqn:E; simpl in H; try discriminate.
    pose proof (revise_domains_shrinks _ _ _ _ _ _ E) as Hs.
    apply revise_domains_general in E.
    destruct E as [F [xs [Hx [-> [Hrem Hsame]]]]].
    destruct rv.
    + destruct (Hrem eq_refl) as [w [Hw HFw]].
      destruct (dom_get (dom_filter d x F) x) as [dx| |] eqn:Ed; simpl in H; try discriminate.
      apply dom_get_Ok in Ed.
      destruct dx as [|w0 dx].
      * injection H as <- <-. split; [exact Hs|]. split; [discriminate|].
        intros _. exists x. split; [|exact Ed].
        exists xs. split; [exact Hx|]. intros ->. contradiction.
      * apply IH in H. destruct H as [Hs' [Ht Hf]].
        split; [eapply shrinks_trans; eauto|]. split.
        -- intros Hb v [[ws [Hl Hne]] He].
           apply (Ht Hb v). split; [|exact He].
           destruct (Var_eqb v x) eqn:Evx.
           ++ apply Var_eqb_eq in Evx. subst v.
              exists (w0 :: dx). split; [exact Ed | discriminate].
           ++ exists ws. split; [|exact Hne].
              rewrite lookup_dom_filter, Evx. exact Hl.
        -- intros Hb. destruct (Hf Hb) as [v Hv].
           exists v. eapply emptied_earlier; eauto.
    + rewrite (Hsame eq_refl) in H. apply IH in H. exact H.
Qed.

Lemma apply_ac3_unfold (c : Crossword) (d : domains) (arcs : option (list (Var * Var))) :
  apply_ac3 c d arcs =
  ac3_loop (ac3_fuel c d (initial_worklist c d arcs)) c d (initial_worklist c d arcs).
Proof. reflexivity. Qed.

(** A pass of the relation is one unfolding of the loop. *)
Lemma ac3_pass_loop (c : Crossword) (s1 s2 : domains * worklist) (fuel : nat) :
  ac3_pass c s1 s2 ->
  ac3_loop (S fuel) c (fst s1) (snd s1) = ac3_loop fuel c (fst s2) (snd s2).
Proof.
  intros H. destruct H as [d x y rest d1 E | d x y rest d1 w ws E Hl]; simpl.
  - rewrite E. reflexivity.
  - rewrite E. simpl. unfold dom_get. rewrite Hl. reflexivity.
Qed.

(** A loop that does not run out of fuel follows the passes. *)
Lemma ac3_passes_loop (c : Crossword) (s1 s2 : domains * worklist) :
  ac3_passes c s1 s2 ->
  forall fuel,
    ac3_loop fuel c (fst s1) (snd s1) <> OutOfFuel ->
    exists fuel',
      ac3_loop fuel c (fst s1) (snd s1) = ac3_loop fuel' c (fst s2) (snd s2).
Proof.
  induction 1 as [s | s1 s2 s3 Hp Hps IH]; intros fuel Hf.
  - exists fuel. reflexivity.
  - destruct fuel as [|fuel]; [exfalso; apply Hf; reflexivity|].
    rewrite (ac3_pass_loop c s1 s2 fuel Hp) in Hf.
    rewrite (ac3_pass_loop c s1 s2 fuel Hp).
    exact (IH fuel Hf).
Qed.

(** A finished loop is a sequence of passes: to the empty worklist when it
    returns [True], to a revision that empties a domain when it returns
    [False]. *)
Lemma ac3_loop_passes (c : Crossword) (fuel : nat) :
  forall d arcs b d',
    ac3_loop fuel c d arcs = Ok (b, d') ->
    (b = true -> ac3_passes c (d, arcs) (d', [])) /\
    (b = false ->
     exists s, ac3_passes c (d, arcs) s /\ ac3_empties c s d').
Proof.
  induction fuel as [|fuel IH]; intros d arcs b d' H; [discriminate|].
  destruct arcs as [|[x y] rest]; simpl in H.
  - injection H as <- <-. split; [intros _; apply passes_none | discriminate].
  - destruct (revise_domains c d x y) as [[rv d1]| |] eqn:E; simpl in H;
      try discriminate.
    destruct rv.
    + destruct (dom_get d1 x) as [dx| |] eqn:Ed; simpl in H; try discriminate.
      unfold dom_get in Ed.
      destruct (lookup Var_eqb x d1) as [ws|] eqn:El; [|discriminate].
      injection Ed as ->.
      destruct dx as [|w0 dx].
      * injection H as <- <-. split; [discriminate|]. intros _.
        exists (d, (x, y) :: rest). split; [apply passes_none|].
        exists x, y, rest. simpl. auto.
      * destruct (IH _ _ _ _ H) as [Ht Hf].
        assert (Hp : ac3_pass c (d, (x, y) :: rest) (d1, enqueue c x y rest))
          by (apply (pass_revised c d x y rest d1 w0 dx E El)).
        split.
        -- intros Hb. exact (passes_more c _ _ _ Hp (Ht Hb)).
        -- intros Hb. destruct (Hf Hb) as [s [Hs He]]. exists s.
           split; [exact (passes_more c _ _ _ Hp Hs) | exact He].
    + destruct (IH _ _ _ _ H) as [Ht Hf].
      assert (Hp : ac3_pass c (d, (x, y) :: rest) (d1, rest))
        by (apply (pass_unrevised c d x y rest d1 E)).
      split.
      * intros Hb. exact (passes_more c _ _ _ Hp (Ht Hb)).
      * intros Hb. destruct (Hf Hb) as [s [Hs He]]. exists s.
        split; [exact (passes_more c _ _ _ Hp Hs) | exact He].
Qed.

(** C9. [apply_ac3] terminates on every crossword, domain map and worklist:
    with the fuel it is given, and with any larger amount, the loop ends in
    the same outcome, which is a result or an exception, never exhausted
    fuel.  Every revision either strictly shrinks the total size of the
    domains, or returns [False], leaves the domains as they were and lets the
    loop continue with the rest of the worklist, nothing enqueued.  The call
    returns [True] exactly when the passes of the loop, each popping and
    revising the last arc and none of them emptying a domain, lead from the
    initial worklist to the empty worklist; it returns [False] exactly when
    such passes lead to an arc whose revision empties the domain of its first
    variable.  On [True] no domain that had candidates has lost them all, on
    [False] one has. *)
Theorem apply_ac3_terminates (c : Crossword) (d : domains)
        (arcs : option (list (Var * Var))) :
  (exists r,
      r <> OutOfFuel /\ apply_ac3 c d arcs = r /\
      forall fuel, ac3_fuel c d (initial_worklist c d arcs) <= fuel ->
                   ac3_loop fuel c d (initial_worklist c d arcs) = r) /\
  (forall d0 x y b d1,
      revise_domains c d0 x y = Ok (b, d1) ->
      (b = true /\ total_size d1 < total_size d0 /\ shrinks d0 d1) \/
      (b = false /\ d1 = d0 /\
       forall fuel rest,
         ac3_loop (S fuel) c d0 ((x, y) :: rest) = ac3_loop fuel c d0 rest)) /\
  (forall b d',
      apply_ac3 c d arcs = Ok (b, d') ->
      shrinks d d' /\ (b = true <-> ~ exists v, emptied d d' v)) /\
  (forall d',
      apply_ac3 c d arcs = Ok (true, d') <->
      ac3_passes c (d, initial_worklist c d arcs) (d', [])) /\
  (forall d',
      apply_ac3 c d arcs = Ok (false, d') <->
      exists s, ac3_passes c (d, initial_worklist c d arcs) s /\
                ac3_empties c s d').
Proof.
  assert (Hne : ac3_loop (ac3_fuel c d (initial_worklist c d arcs)) c d
                         (initial_worklist c d arcs) <> OutOfFuel).
  { apply (ac3_loop_stable c _ (ac3_fuel c d (initial_worklist c d arcs)));
      unfold ac3_fuel; lia. }
  split; [|split; [|split; [|split]]].
  - exists (apply_ac3 c d arcs). rewrite apply_ac3_unfold.
    split; [exact Hne|split; [reflexivity|]].
    intros fuel Hf. symmetry.
    apply ac3_loop_stable; unfold ac3_fuel in *; lia.
  - intros d0 x y b d1 E.
    pose proof (revise_domains_shrinks _ _ _ _ _ _ E) as Hs.
    pose proof (revise_domains_size _ _ _ _ _ _ E) as [Ht Hf].
    destruct b.
    + left. auto.
    + right. specialize (Hf eq_refl). subst d1. split; [reflexivity|].
      split; [reflexivity|]. intros fuel rest. simpl. rewrite E. reflexivity.
  - intros b d' H. rewrite apply_ac3_unfold in H. apply ac3_loop_result in H.
    destruct H as [Hs [Ht Hf]]. split; [exact Hs|]. split.
    + intros Hb [v Hv]. exact (Ht Hb v Hv).
    + intros Hn. destruct b; [reflexivity|]. exfalso. apply Hn. now apply Hf.
  - intros d'. rewrite apply_ac3_unfold. split.
    + intros H. apply ac3_loop_passes in H. now apply H.
    + intros H.
      destruct (ac3_passes_loop c _ _ H _ Hne) as [f' E]. cbn [fst snd] in E.
      rewrite E. destruct f' as [|f']; [|reflexivity].
      exfalso. apply Hne. rewrite E. reflexivity.
  - intros d'. rewrite apply_ac3_unfold. split.
    + intros H. apply ac3_loop_passes in H. now apply H.
    + intros [[d1 w1] [H [x [y [rest [Hw [Hr Hl]]]]]]]. simpl in Hw, Hr. subst w1.
      destruct (ac3_passes_loop c _ _ H _ Hne) as [f' E]. cbn [fst snd] in E.
      rewrite E. destruct f' as [|f'].
      * exfalso. apply Hne. rewrite E. reflexivity.
      * simpl. rewrite Hr. simpl. unfold dom_get. rewrite Hl. reflexivity.
Qed.

(** * AC-3: no exception under the solver's call sequence *)

Lemma revise_loop_safe (i j : nat) (x y : Var) (ys : list string) (xs : list string) :
  x <> y ->
  (forall w, In w xs -> i < String.length w) ->
  (forall w, In w ys -> j < String.length w) ->
  forall d rev,
    lookup Var_eqb y d = Some ys ->
    exists r, revise_loop i j x y xs d rev = Ok r.
Proof.
  intros Hn Hx Hy. induction xs as [|xw xs' IH]; simpl; intros d rev Hl.
  - eexists. reflexivity.
  - apply dom_get_Ok in Hl. rewrite Hl. simpl. apply dom_get_Ok in Hl.
    destruct (revise_inner_safe i j xw ys true) as [rm Hrm];
      [apply Hx; now left | exact Hy |].
    rewrite Hrm. simpl.
    destruct rm; apply IH; try (intros w Hw; apply Hx; now right); [|exact Hl].
    rewrite dom_remove_filter, lookup_dom_filter.
    apply not_eq_sym, Var_eqb_neq in Hn. now rewrite Hn.
Qed.

Lemma node_consistent_lookup (d : domains) (v : Var) (ws : list string) (w : string) :
  node_consistent d -> lookup Var_eqb v d = Some ws -> In w ws ->
  String.length w = var_length v.
Proof.
  intros N H Hw. apply (lookup_In Var_eqb Var_eqb_eq) in H. eapply N; eauto.
Qed.

Lemma lookup_key (d : domains) (v : Var) :
  In v (map fst d) -> exists ws, lookup Var_eqb v d = Some ws.
Proof.
  intros H. destruct (dom_get_key d v H) as [ws Hws].
  exists ws. now apply dom_get_Ok.
Qed.

Lemma revise_domains_safe (c : Crossword) (d : domains) (x y : Var) :
  built c -> map fst d = variables c -> node_consistent d ->
  not_None (overlaps_get c (x, y)) = true ->
  exists r, revise_domains c d x y = Ok r.
Proof.
  intros B K N Ho. apply not_None_Some in Ho. destruct Ho as [[i j] Ho].
  unfold revise_domains. rewrite Ho.
  destruct (proj2 (overlaps_get_built c x y B) _ Ho) as [Hx [Hy [Hn _]]].
  destruct (proj2 (overlaps_sym c x y B) _ _ Ho) as [_ [Hi [Hj _]]].
  rewrite <- K in Hx, Hy.
  destruct (lookup_key d x Hx) as [dx Hdx], (lookup_key d y Hy) as [dy Hdy].
  apply dom_get_Ok in Hdx. rewrite Hdx. simpl. apply dom_get_Ok in Hdx.
  apply (revise_loop_safe i j x y dy dx); try assumption.
  - intros w Hw. rewrite (node_consistent_lookup d x dx w N Hdx Hw). exact Hi.
  - intros w Hw. rewrite (node_consistent_lookup d y dy w N Hdy Hw). exact Hj.
Qed.

Lemma ac3_loop_safe (c : Crossword) (fuel : nat) :
  built c ->
  forall d arcs,
    map fst d = variables c -> node_consistent d ->
    (forall x y, In (x, y) arcs -> not_None (overlaps_get c (x, y)) = true) ->
    ac3_loop fuel c d arcs = OutOfFuel \/ exists r, ac3_loop fuel c d arcs = Ok r.
Proof.
  intros B. induction fuel as [|fuel IH]; intros d arcs K N A; [now left|].
  destruct arcs as [|[x y] rest]; simpl; [right; eexists; reflexivity|].
  destruct (revise_domains_safe c d x y B K N) as [[b d1] E]; [apply A; now left|].
  rewrite E. simpl.
  apply revise_domains_general in E. destruct E as [F [xs [Hx [-> [_ Hsame]]]]].
  assert (K1 : map fst (dom_filter d x F) = variables c)
    by (rewrite dom_filter_keys; exact K).
  assert (N1 : node_consistent (dom_filter d x F))
    by (apply node_consistent_dom_filter; exact N).
  destruct b.
  - destruct (dom_get_key (dom_filter d x F) x) as [dx Hdx].
    { rewrite dom_filter_keys. eapply (lookup_Some_key Var_eqb Var_eqb_eq). exact Hx. }
    rewrite Hdx. simpl. destruct dx; [right; eexists; reflexivity|].
    apply IH; try assumption.
    intros p q Hpq. apply enqueue_In in Hpq.
    destruct Hpq as [Hpq|[z [E [Hz _]]]]; [apply A; now right|].
    injection E as -> ->. apply neighbors_In in Hz. tauto.
  - apply IH; try assumption. intros p q Hpq. apply A. now right.
Qed.

Lemma all_arcs_In (c : Crossword) (d : domains) (x y : Var) :
  In (x, y) (all_arcs c d) <-> In x (map fst d) /\ In y (neighbors c x).
Proof.
  unfold all_arcs. rewrite in_flat_map. split.
  - intros [x' [Hx H]]. apply in_map_iff in H. destruct H as [y' [E Hy]].
    injection E as -> ->. auto.
  - intros [Hx Hy]. exists x. split; [exact Hx|]. apply in_map_iff. now exists y.
Qed.

Lemma all_arcs_overlap (c : Crossword) (d : domains) (x y : Var) :
  built c -> In (x, y) (all_arcs c d) -> not_None (overlaps_get c (x, y)) = true.
Proof.
  intros B H. apply all_arcs_In in H. destruct H as [_ H].
  apply (neighbors_sym c x y B) in H. apply neighbors_In in H. tauto.
Qed.

Lemma solver_domains_ready (c : Crossword) :
  map fst (ensure_node_consistency (init_domains c)) = variables c /\
  node_consistent (ensure_node_consistency (init_domains c)).
Proof.
  split.
  - rewrite ensure_node_consistency_keys. apply init_domains_keys.
  - apply ensure_node_consistency_ok.
Qed.

Lemma apply_ac3_safe (c : Crossword) (d : domains) :
  built c -> map fst d = variables c -> node_consistent d ->
  exists b d', apply_ac3 c d None = Ok (b, d').
Proof.
  intros B K N. rewrite apply_ac3_unfold.
  destruct (ac3_loop_safe c (ac3_fuel c d (initial_worklist c d None)) B d
              (initial_worklist c d None) K N) as [H|[[b d'] H]].
  - intros x y H. unfold initial_worklist in H. apply in_rev in H.
    now apply (all_arcs_overlap c d).
  - exfalso. revert H.
    apply (ac3_loop_stable c _ (ac3_fuel c d (initial_worklist c d None)));
      unfold ac3_fuel; lia.
  - now exists b, d'.
Qed.

(** C10. Under the call sequence of [find_solution] (node consistency, then
    AC-3 on its default worklist) domain revision raises nothing: every arc
    of the initial worklist has an overlap entry [(i, j)] that is not [None],
    with [i] and [j] inside every word of the two domains, and the whole
    call returns normally, so no revision on the way met a missing or [None]
    overlap or an index out of range. *)
Theorem revise_never_raises (contents vocabulary : list string) (c : Crossword) :
  Crossword_init contents vocabulary = Ok c ->
  let d := ensure_node_consistency (init_domains c) in
  (forall x y,
      In (x, y) (all_arcs c d) ->
      exists i j dx dy,
        overlaps_get c (x, y) = Some (Some (i, j)) /\
        lookup Var_eqb x d = Some dx /\ lookup Var_eqb y d = Some dy /\
        (forall w, In w dx -> i < String.length w) /\
        (forall w, In w dy -> j < String.length w)) /\
  exists b d', apply_ac3 c d None = Ok (b, d').
Proof.
  intros H d. apply Crossword_init_built in H.
  destruct (solver_domains_ready c) as [K N]. fold d in K, N.
  split; [|now apply apply_ac3_safe].
  intros x y Hxy. apply (all_arcs_overlap c d x y H) in Hxy.
  apply not_None_Some in Hxy. destruct Hxy as [[i j] Ho].
  destruct (proj2 (overlaps_get_built c x y H) _ Ho) as [Hx [Hy [Hn _]]].
  destruct (proj2 (overlaps_sym c x y H) _ _ Ho) as [_ [Hi [Hj _]]].
  rewrite <- K in Hx, Hy.
  destruct (lookup_key d x Hx) as [dx Hdx], (lookup_key d y Hy) as [dy Hdy].
  exists i, j, dx, dy. repeat split; try assumption.
  - intros w Hw. rewrite (node_consistent_lookup d x dx w N Hdx Hw). exact Hi.
  - intros w Hw. rewrite (node_consistent_lookup d y dy w N Hdy Hw). exact Hj.
Qed.

(** * AC-3: arc consistency on success *)

Lemma supported_in_true (d : domains) (y : Var) (i j : nat) (wx : string) :
  supported_in d y i j wx = true <->
  exists dy wy, lookup Var_eqb y d = Some dy /\ In wy dy /\ agree i j wx wy = true.
Proof.
  unfold supported_in. destruct (lookup Var_eqb y d) as [dy|].
  - rewrite supported_true. split.
    + intros [wy [H1 H2]]. exists dy, wy. auto.
    + intros [dy' [wy [E [H1 H2]]]]. injection E as <-. exists wy. auto.
  - split; [discriminate|]. intros [dy [wy [E _]]]. discriminate.
Qed.

(** One revision of [(x, y)] makes that arc consistent and keeps every
    consistent arc that does not point at [x], as well as the arc [(y, x)]. *)
Lemma revise_domains_arcs (c : Crossword) (d d1 : domains) (x y : Var) (b : bool) :
  built c -> x <> y ->
  revise_domains c d x y = Ok (b, d1) ->
  arc_consistent c d1 x y /\
  (forall p q, arc_consistent c d p q -> q <> x \/ p = y -> arc_consistent c d1 p q).
Proof.
  intros B Hn E. apply revise_domains_exact in E; [|exact Hn].
  destruct E as [i [j [dx [Ho [Hdx [Hdx1 [Hother [_ _]]]]]]]].
  assert (Hy : lookup Var_eqb y d1 = lookup Var_eqb y d)
    by (apply Hother; congruence).
  split.
  - intros i' j' dx' wx Ho' Hl Hw. rewrite Ho in Ho'. injection Ho' as <- <-.
    rewrite Hdx1 in Hl. injection Hl as <-. apply filter_In in Hw.
    destruct Hw as [_ Hw]. apply supported_in_true in Hw. rewrite Hy. exact Hw.
  - intros p q Hpq Hside i' j' dp wp Ho' Hl Hw.
    destruct (Var_eq_dec q x) as [->|Hq].
    + destruct Hside as [Habs| ->]; [contradiction|].
      rewrite Hy in Hl.
      destruct (Hpq i' j' dp wp Ho' Hl Hw) as [dx0 [wx [Hl0 [Hwx Hag]]]].
      rewrite Hdx in Hl0. injection Hl0 as <-.
      destruct (proj2 (overlaps_sym c x y B) _ _ Ho) as [Ho2 _].
      rewrite Ho2 in Ho'. injection Ho' as <- <-.
      exists (filter (supported_in d y i j) dx), wx.
      split; [exact Hdx1|]. split; [|exact Hag].
      apply filter_In. split; [exact Hwx|].
      apply supported_in_true. exists dp, wp.
      split; [exact Hl|]. split; [exact Hw|]. now rewrite agree_swap.
    + rewrite (Hother q Hq).
      destruct (Var_eq_dec p x) as [->|Hp].
      * rewrite Hdx1 in Hl. injection Hl as <-. apply filter_In in Hw.
        destruct Hw as [Hw _]. exact (Hpq i' j' dx wp Ho' Hdx Hw).
      * rewrite (Hother p Hp) in Hl. exact (Hpq i' j' dp wp Ho' Hl Hw).
Qed.

Lemma revise_domains_distinct (c : Crossword) (d : domains) (x y : Var)
      (r : bool * domains) :
  built c -> revise_domains c d x y = Ok r -> x <> y.
Proof.
  intros B. unfold revise_domains.
  destruct (overlaps_get c (x, y)) as [o|] eqn:Ho; [|discriminate].
  intros _. apply (overlaps_get_built c x y B) in Ho. tauto.
Qed.

(** The loop invariant of AC-3: every arc is on the worklist or consistent. *)
Lemma ac3_loop_consistent (c : Crossword) (keys : list Var) (fuel : nat) :
  built c ->
  forall d arcs d',
    (forall x y, In x keys -> In y (neighbors c x) ->
                 In (x, y) arcs \/ arc_consistent c d x y) ->
    ac3_loop fuel c d arcs = Ok (true, d') ->
    forall x y, In x keys -> In y (neighbors c x) -> arc_consistent c d' x y.
Proof.
  intros B. induction fuel as [|fuel IH]; intros d arcs d' Inv H; [discriminate|].
  destruct arcs as [|[x y] rest]; simpl in H.
  - injection H as <-. intros p q Hp Hq.
    destruct (Inv p q Hp Hq) as [[]|Hc]. exact Hc.
  - destruct (revise_domains c d x y) as [[b d1]| |] eqn:E; simpl in H; try discriminate.
    pose proof (revise_domains_distinct c d x y _ B E) as Hn.
    pose proof (revise_domains_arcs c d d1 x y b B Hn E) as [Hxy Hkeep].
    destruct b.
    + destruct (dom_get d1 x) as [dx| |]; simpl in H; try discriminate.
      destruct dx; [discriminate|].
      eapply IH; [|exact H]. clear H.
      intros p q Hp Hq.
      destruct (Inv p q Hp Hq) as [[Epq|Hin]|Hc].
      * injection Epq as <- <-. now right.
      * left. apply enqueue_In. now left.
      * destruct (Var_eq_dec q x) as [->|Hqx]; [|right; apply Hkeep; auto].
        destruct (Var_eq_dec p y) as [->|Hpy]; [right; apply Hkeep; auto|].
        left. apply enqueue_In. right. exists p.
        split; [reflexivity|]. split; [|exact Hpy].
        now apply neighbors_sym.
    + apply revise_domains_size in E. destruct E as [_ Ef].
      specialize (Ef eq_refl). subst d1.
      eapply IH; [|exact H]. clear H.
      intros p q Hp Hq.
      destruct (Inv p q Hp Hq) as [[Epq|Hin]|Hc].
      * injection Epq as <- <-. now right.
      * now left.
      * now right.
Qed.

(** The default worklist holds every arc. *)
Lemma default_worklist_covers (c : Crossword) (d : domains) :
  map fst d = variables c ->
  forall x y, In x (variables c) -> In y (neighbors c x) ->
              In (x, y) (initial_worklist c d None) \/ arc_consistent c d x y.
Proof.
  intros K x y Hx Hy. left. unfold initial_worklist. apply -> in_rev.
  apply all_arcs_In. rewrite K. auto.
Qed.

(** C6 (amended). Whenever [apply_ac3] returns [True] after starting from a
    worklist that holds every arc not already consistent (the default
    worklist holds every arc), the domains it leaves are arc consistent: for
    all variables [x] and [y] with overlap entry [(i, j)] and every word
    [wx] left in the domain of [x], some word [wy] left in the domain of [y]
    has [wx[i] == wy[j]]. *)
Theorem ac3_success_arc_consistent (contents vocabulary : list string)
        (c : Crossword) (d : domains) (arcs : option (list (Var * Var)))
        (d' : domains) :
  Crossword_init contents vocabulary = Ok c ->
  (forall x y, In x (variables c) -> In y (neighbors c x) ->
               In (x, y) (initial_worklist c d arcs) \/ arc_consistent c d x y) ->
  apply_ac3 c d arcs = Ok (true, d') ->
  forall x y i j dx wx,
    overlaps_get c (x, y) = Some (Some (i, j)) ->
    lookup Var_eqb x d' = Some dx -> In wx dx ->
    exists dy wy ch,
      lookup Var_eqb y d' = Some dy /\ In wy dy /\
      String.get i wx = Some ch /\ String.get j wy = Some ch.
Proof.
  intros H Hcov Hac x y i j dx wx Ho Hl Hw.
  apply Crossword_init_built in H.
  destruct (proj2 (overlaps_get_built c x y H) _ Ho) as [Hx [Hy [Hn _]]].
  assert (Hnb : In y (neighbors c x)).
  { apply (neighbors_sym c y x H). apply neighbors_In.
    split; [exact Hx|]. split; [exact Hn|]. now rewrite Ho. }
  rewrite apply_ac3_unfold in Hac.
  destruct (ac3_loop_consistent c (variables c) _ H _ _ _ Hcov Hac x y Hx Hnb
              i j dx wx Ho Hl Hw) as [dy [wy [Hly [Hwy Hag]]]].
  unfold agree in Hag.
  destruct (String.get i wx) as [a|] eqn:Ea; [|discriminate].
  destruct (String.get j wy) as [a'|] eqn:Eb; [|discriminate].
  apply Ascii.eqb_eq in Hag. subst a'.
  exists dy, wy, a. auto.
Qed.

(** * Consistency of an assignment *)

Lemma check_neighbors_true (c : Crossword) (a : assignment) (var : Var) (word : string)
      (ns : list Var) :
  check_neighbors c a var word ns = Ok true ->
  forall n nw, In n ns -> lookup Var_eqb n a = Some nw ->
    exists i j ch, overlaps_get c (var, n) = Some (Some (i, j)) /\
                   String.get i word = Some ch /\ String.get j nw = Some ch.
Proof.
  induction ns as [|n0 ns' IH]; simpl; intros H n nw Hn Hl; [contradiction|].
  destruct (lookup Var_eqb n0 a) as [nw0|] eqn:E0.
  - destruct (overlaps_get c (var, n0)) as [[[i j]|]|] eqn:Ho; try discriminate.
    destruct (str_index word i) as [ca| |] eqn:Ea; simpl in H; try discriminate.
    destruct (str_index nw0 j) as [cb| |] eqn:Eb; simpl in H; try discriminate.
    destruct (Ascii.eqb ca cb) eqn:Eab; [|discriminate].
    destruct Hn as [<-|Hn]; [|now apply IH].
    rewrite E0 in Hl. injection Hl as <-.
    apply Ascii.eqb_eq in Eab. subst cb.
    apply str_index_Ok in Ea, Eb. exists i, j, ca. auto.
  - destruct Hn as [<-|Hn]; [congruence | now apply IH].
Qed.

Lemma is_consistent_loop_true (c : Crossword) (a entries : assignment) :
  forall used,
    is_consistent_loop c a entries used = Ok true ->
    NoDup (map snd entries) /\
    forall v w, In (v, w) entries ->
      ~ In w used /\ String.length w = var_length v /\
      check_neighbors c a v w (neighbors c v) = Ok true.
Proof.
  induction entries as [|[var word] rest IH]; simpl; intros used H.
  - split; [constructor | contradiction].
  - destruct (mem word used) eqn:Em; [discriminate|].
    destruct (String.length word =? var_length var) eqn:El; simpl in H; [|discriminate].
    destruct (check_neighbors c a var word (neighbors c var)) as [ok| |] eqn:Ec;
      simpl in H; try discriminate.
    destruct ok; [|discriminate].
    apply IH in H. destruct H as [ND Hall]. split.
    + constructor; [|exact ND]. intros Hin. apply in_map_iff in Hin.
      destruct Hin as [[v w] [E Hin]]. simpl in E. subst w.
      destruct (Hall _ _ Hin) as [Hnot _]. apply Hnot. now left.
    + intros v w [E|Hin].
      * injection E as <- <-. split; [|split].
        -- intros Hu. apply mem_In in Hu. congruence.
        -- now apply Nat.eqb_eq.
        -- exact Ec.
      * destruct (Hall _ _ Hin) as [Hnot Hrest]. split; [|exact Hrest].
        intros Hu. apply Hnot. now right.
Qed.

Lemma NoDup_snd_key {A B : Type} (l : list (A * B)) (a1 a2 : A) (b : B) :
  NoDup (map snd l) -> In (a1, b) l -> In (a2, b) l -> a1 = a2.
Proof.
  induction l as [|[a0 b0] r IH]; simpl; intros ND H1 H2; [contradiction|].
  inversion ND as [|? ? Hn ND']; subst.
  destruct H1 as [E1|H1], H2 as [E2|H2].
  - congruence.
  - injection E1 as -> ->. exfalso. apply Hn. apply (in_map snd) in H2. exact H2.
  - injection E2 as -> ->. exfalso. apply Hn. apply (in_map snd) in H1. exact H1.
  - now apply IH.
Qed.

(** A [True] answer of [is_consistent] establishes the three constraints. *)
Lemma is_consistent_true (c : Crossword) (a : assignment) :
  built c -> NoDup (map fst a) ->
  is_consistent c a = Ok true -> consistent_assignment c a.
Proof.
  intros B ND H. unfold is_consistent in H.
  apply is_consistent_loop_true in H. destruct H as [NDs Hall].
  split; [|split].
  - intros v1 v2 w H1 H2. eapply NoDup_snd_key; eauto.
  - intros v w Hin. now destruct (Hall _ _ Hin) as [_ [Hl _]].
  - intros x y wx wy i j Hx Hy Ho.
    destruct (Hall _ _ Hx) as [_ [_ Hc]].
    destruct (proj2 (overlaps_get_built c x y B) _ Ho) as [Hxv [Hyv [Hn _]]].
    assert (Hnb : In y (neighbors c x)).
    { apply (neighbors_sym c y x B). apply neighbors_In.
      split; [exact Hxv|]. split; [exact Hn|]. now rewrite Ho. }
    assert (Hl : lookup Var_eqb y a = Some wy)
      by (apply (In_lookup Var_eqb Var_eqb_eq); assumption).
    destruct (check_neighbors_true _ _ _ _ _ Hc y wy Hnb Hl) as [i' [j' [ch [Ho' [H1 H2]]]]].
    rewrite Ho in Ho'. injection Ho' as <- <-. now exists ch.
Qed.

Lemma check_neighbors_safe (c : Crossword) (a : assignment) (var : Var) (word : string)
      (ns : list Var) :
  built c ->
  String.length word = var_length var ->
  (forall v w, In (v, w) a -> String.length w = var_length v) ->
  (forall n, In n ns -> In n (neighbors c var)) ->
  exists b, check_neighbors c a var word ns = Ok b.
Proof.
  intros B Hw Ha. induction ns as [|n ns' IH]; simpl; intros Hn.
  - now exists true.
  - assert (IH' : exists b, check_neighbors c a var word ns' = Ok b)
      by (apply IH; intros m Hm; apply Hn; now right).
    destruct (lookup Var_eqb n a) as [nw|] eqn:El; [|exact IH'].
    assert (Hnb : In var (neighbors c n))
      by (apply (neighbors_sym c var n B); apply Hn; now left).
    apply neighbors_In in Hnb. destruct Hnb as [_ [_ Ho]].
    apply not_None_Some in Ho. destruct Ho as [[i j] Ho]. rewrite Ho.
    destruct (proj2 (overlaps_sym c var n B) _ _ Ho) as [_ [Hi [Hj _]]].
    apply (lookup_In Var_eqb Var_eqb_eq) in El. apply Ha in El.
    destruct (get_in_range word i) as [ca Eca]; [lia|].
    destruct (get_in_range nw j) as [cb Ecb]; [lia|].
    unfold str_index. rewrite Eca, Ecb. simpl.
    destruct (Ascii.eqb ca cb); [exact IH' | now exists false].
Qed.

Lemma is_consistent_loop_safe (c : Crossword) (a entries : assignment) :
  built c ->
  (forall v w, In (v, w) a -> String.length w = var_length v) ->
  forall used, exists b, is_consistent_loop c a entries used = Ok b.
Proof.
  intros B Ha. induction entries as [|[var word] rest IH]; simpl; intros used.
  - now exists true.
  - destruct (mem word used); [now exists false|].
    destruct (String.length word =? var_length var) eqn:El; simpl; [|now exists false].
    apply Nat.eqb_eq in El.
    destruct (check_neighbors_safe c a var word (neighbors c var) B El Ha) as [b Hb];
      [auto|].
    rewrite Hb. simpl. destruct b; [apply IH | now exists false].
Qed.

Lemma is_consistent_safe (c : Crossword) (a : assignment) :
  built c ->
  (forall v w, In (v, w) a -> String.length w = var_length v) ->
  exists b, is_consistent c a = Ok b.
Proof. intros B Ha. now apply is_consistent_loop_safe. Qed.

(** * Variable selection *)

Lemma minus_assigned_In (vs : list Var) (a : assignment) (v : Var) :
  In v (minus_assigned vs a) <-> In v vs /\ lookup Var_eqb v a = None.
Proof.
  unfold minus_assigned. rewrite filter_In.
  destruct (lookup Var_eqb v a); split; intros [H1 H2]; split; auto; discriminate.
Qed.

Lemma select_loop_In (c : Crossword) (d : domains) (vs : list Var) :
  forall best v,
    select_loop c d vs best = Ok (Some v) -> In v vs \/ best = Some v.
Proof.
  induction vs as [|var vs' IH]; simpl; intros best v H.
  - injection H as ->. now right.
  - destruct best as [b|].
    + destruct (dom_get d var) as [dv| |]; simpl in H; try discriminate.
      destruct (dom_get d b) as [db| |]; simpl in H; try discriminate.
      destruct ((List.length dv <? List.length db)
                || (List.length (neighbors c b) <? List.length (neighbors c var)));
        apply IH in H; destruct H as [H|H]; auto.
      injection H as ->. auto.
    + apply IH in H. destruct H as [H|H]; auto. injection H as ->. auto.
Qed.

Lemma select_loop_safe (c : Crossword) (d : domains) (vs : list Var) :
  (forall v, In v vs -> In v (map fst d)) ->
  forall best,
    (forall b, best = Some b -> In b (map fst d)) ->
    exists r, select_loop c d vs best = Ok r /\
              (r = None -> vs = [] /\ best = None).
Proof.
  induction vs as [|var vs' IH]; simpl; intros Hvs best Hb.
  - exists best. auto.
  - assert (Hvs' : forall v, In v vs' -> In v (map fst d)) by auto.
    assert (Hvar : forall b, Some var = Some b -> In b (map fst d)).
    { intros b E. injection E as <-. auto. }
    destruct best as [b|].
    + destruct (dom_get_key d var) as [dv Hdv]; [auto|].
      destruct (dom_get_key d b) as [db Hdb]; [auto|].
      rewrite Hdv, Hdb. simpl.
      destruct ((List.length dv <? List.length db)
                || (List.length (neighbors c b) <? List.length (neighbors c var))).
      * destruct (IH Hvs' (Some var) Hvar) as [r [Hr Hn]].
        exists r. split; [exact Hr|]. intros E. destruct (Hn E). discriminate.
      * destruct (IH Hvs' (Some b) Hb) as [r [Hr Hn]].
        exists r. split; [exact Hr|]. intros E. destruct (Hn E). discriminate.
    + destruct (IH Hvs' (Some var) Hvar) as [r [Hr Hn]].
      exists r. split; [exact Hr|]. intros E. destruct (Hn E). discriminate.
Qed.

Lemma select_variable_In (c : Crossword) (d : domains) (a : assignment) (v : Var) :
  select_variable c d a = Ok (Some v) ->
  In v (variables c) /\ lookup Var_eqb v a = None.
Proof.
  unfold select_variable. intros H. apply select_loop_In in H.
  destruct H as [H|H]; [|discriminate]. now apply minus_assigned_In.
Qed.

(** * Partial assignments *)

Lemma keys_In (a : assignment) (v : Var) :
  In v (map fst a) <-> lookup Var_eqb v a <> None.
Proof.
  pose proof (lookup_None Var_eqb Var_eqb_eq v a) as H.
  destruct (lookup Var_eqb v a) as [w|].
  - split; [discriminate|]. intros _.
    destruct (in_dec Var_eq_dec v (map fst a)) as [Hin|Hn]; [exact Hin|].
    apply H in Hn. discriminate.
  - split; [|congruence]. intros Hin _. apply (proj1 H eq_refl Hin).
Qed.

Lemma complete_covers (c : Crossword) (d : domains) (s : assignment) :
  search_state c d s -> is_assignment_complete c s = true ->
  incl (variables c) (map fst s).
Proof.
  intros [ND [Hincl _]] Hc. unfold is_assignment_complete in Hc.
  apply Nat.eqb_eq in Hc.
  apply NoDup_length_incl; [exact ND | rewrite length_map; lia | exact Hincl].
Qed.

Lemma incomplete_unassigned (c : Crossword) (d : domains) (a : assignment) :
  NoDup (variables c) -> search_state c d a ->
  is_assignment_complete c a = false ->
  minus_assigned (variables c) a <> [].
Proof.
  intros NDv [ND [Hincl _]] Hc E.
  unfold is_assignment_complete in Hc. apply Nat.eqb_neq in Hc. apply Hc.
  assert (Hrev : incl (variables c) (map fst a)).
  { intros v Hv. apply keys_In. intros Hl.
    assert (Hin : In v (minus_assigned (variables c) a))
      by (apply minus_assigned_In; auto).
    rewrite E in Hin. contradiction. }
  pose proof (NoDup_incl_length NDv Hrev) as L1.
  pose proof (NoDup_incl_length ND Hincl) as L2.
  rewrite length_map in L1, L2. lia.
Qed.

Lemma filter_length_strict {A : Type} (f g : A -> bool) (l : list A) (x : A) :
  (forall a, g a = true -> f a = true) ->
  In x l -> f x = true -> g x = false ->
  List.length (filter g l) < List.length (filter f l).
Proof.
  intros Himp. 
  assert (Hle : forall l', List.length (filter g l') <= List.length (filter f l')).
  { induction l' as [|a r IH]; simpl; [lia|].
    destruct (g a) eqn:Eg; [rewrite (Himp a Eg); simpl; lia|].
    destruct (f a); simpl; lia. }
  induction l as [|a r IH]; simpl; intros Hin Hf Hg; [contradiction|].
  destruct Hin as [->|Hin].
  - rewrite Hf, Hg. simpl. specialize (Hle r). lia.
  - specialize (IH Hin Hf Hg).
    destruct (g a) eqn:Eg; [rewrite (Himp a Eg); simpl; lia|].
    destruct (f a); simpl; lia.
Qed.

Lemma extend_unassigned (vs : list Var) (a : assignment) (var : Var) (value : string) :
  In var vs -> lookup Var_eqb var a = None ->
  List.length (minus_assigned vs (a ++ [(var, value)]))
  < List.length (minus_assigned vs a).
Proof.
  intros Hin Hl. unfold minus_assigned.
  apply filter_length_strict with (x := var).
  - intros v. rewrite (lookup_app Var_eqb).
    destruct (lookup Var_eqb v a); [discriminate | reflexivity].
  - exact Hin.
  - now rewrite Hl.
  - rewrite (lookup_app Var_eqb), Hl. simpl. now rewrite Var_eqb_refl.
Qed.

Lemma extend_search_state (c : Crossword) (d : domains) (a : assignment)
      (var : Var) (value : string) (ws : list string) :
  search_state c d a -> lookup Var_eqb var a = None -> In var (variables c) ->
  lookup Var_eqb var d = Some ws -> In value ws ->
  search_state c d (a ++ [(var, value)]).
Proof.
  intros [ND [Hincl Hdom]] Hl Hv Hd Hw. split; [|split].
  - rewrite map_app. simpl. apply NoDup_app; [exact ND | repeat constructor; simpl; tauto |].
    intros v Hin [<-|[]]. apply keys_In in Hin. contradiction.
  - rewrite map_app. simpl. intros v Hin. apply in_app_iff in Hin.
    destruct Hin as [Hin|[<-|[]]]; auto.
  - intros v w Hin. apply in_app_iff in Hin.
    destruct Hin as [Hin|[E|[]]]; [now apply Hdom|].
    injection E as <- <-. now exists ws.
Qed.

Lemma search_state_lengths (c : Crossword) (d : domains) (a : assignment) :
  node_consistent d -> search_state c d a ->
  forall v w, In (v, w) a -> String.length w = var_length v.
Proof.
  intros N [_ [_ Hdom]] v w Hin. destruct (Hdom v w Hin) as [ws [Hl Hw]].
  eapply node_consistent_lookup; eauto.
Qed.

Lemma search_state_empty (c : Crossword) (d : domains) : search_state c d [].
Proof.
  split; [constructor|]. split; [intros v []|]. intros v w [].
Qed.

(** * Backtracking search *)

Lemma try_values_sound (c : Crossword) (d : domains)
      (recurse : assignment -> res (option assignment * trail))
      (a : assignment) (var : Var) (ws : list string) :
  (forall a' s t, search_state c d a' -> is_consistent c a' = Ok true ->
                  recurse a' = Ok (Some s, t) -> solved c d s) ->
  search_state c d a -> lookup Var_eqb var a = None -> In var (variables c) ->
  lookup Var_eqb var d = Some ws ->
  forall vals t0 s t,
    incl vals ws ->
    try_values c recurse a var vals t0 = Ok (Some s, t) -> solved c d s.
Proof.
  intros Hrec Ha Hl Hv Hd.
  induction vals as [|value vals' IH]; simpl; intros t0 s t Hincl H; [discriminate|].
  rewrite (assign_fresh Var_eqb _ _ value Hl) in H.
  assert (Hincl' : incl vals' ws) by (intros w Hw; apply Hincl; now right).
  destruct (is_consistent c (a ++ [(var, value)])) as [ok| |] eqn:Ec; simpl in H;
    try discriminate.
  destruct ok.
  - destruct (recurse (a ++ [(var, value)])) as [[result t']| |] eqn:Er; simpl in H;
      try discriminate.
    destruct result as [s'|].
    + injection H as <- _. eapply Hrec; [|exact Ec|exact Er].
      eapply extend_search_state; eauto. apply Hincl. now left.
    + eapply IH; eauto.
  - eapply IH; eauto.
Qed.

(** Whatever assignment the search returns is complete and has passed the
    consistency check. *)
Lemma backtrack_sound (c : Crossword) (d : domains) (fuel : nat) :
  forall a s t,
    search_state c d a -> (a = [] \/ is_consistent c a = Ok true) ->
    backtrack fuel c d a = Ok (Some s, t) -> solved c d s.
Proof.
  induction fuel as [|fuel IH]; intros a s t Ha Hc H; [discriminate|].
  simpl in H. destruct (is_assignment_complete c a) eqn:Ecomp.
  - injection H as <- _. split; [exact Ha|]. split; [exact Ecomp | exact Hc].
  - destruct (select_variable c d a) as [best| |] eqn:Es; simpl in H; try discriminate.
    destruct best as [var|]; [|discriminate].
    apply select_variable_In in Es. destruct Es as [Hv Hl].
    destruct (dom_get d var) as [vals| |] eqn:Ed; simpl in H; try discriminate.
    apply dom_get_Ok in Ed.
    refine (try_values_sound c d (backtrack fuel c d) a var vals _ Ha Hl Hv Ed
              vals [] s t (incl_refl _) H).
    intros a' s' t' Ha' Hc' Hr. eapply IH; eauto.
Qed.

Lemma try_values_safe (c : Crossword) (d : domains)
      (recurse : assignment -> res (option assignment * trail))
      (a : assignment) (var : Var) (ws : list string) :
  built c -> node_consistent d ->
  (forall a', search_state c d a' ->
              List.length (minus_assigned (variables c) a')
              < List.length (minus_assigned (variables c) a) ->
              exists r, recurse a' = Ok r) ->
  search_state c d a -> lookup Var_eqb var a = None -> In var (variables c) ->
  lookup Var_eqb var d = Some ws ->
  forall vals t0,
    incl vals ws ->
    exists r, try_values c recurse a var vals t0 = Ok r.
Proof.
  intros B N Hrec Ha Hl Hv Hd.
  induction vals as [|value vals' IH]; simpl; intros t0 Hincl; [eexists; reflexivity|].
  rewrite (assign_fresh Var_eqb _ _ value Hl).
  assert (Hincl' : incl vals' ws) by (intros w Hw; apply Hincl; now right).
  assert (Ha' : search_state c d (a ++ [(var, value)])).
  { eapply extend_search_state; eauto. apply Hincl. now left. }
  destruct (is_consistent_safe c (a ++ [(var, value)]) B) as [ok Hok].
  { now apply (search_state_lengths c d). }
  rewrite Hok. simpl. destruct ok; [|now apply IH].
  destruct (Hrec _ Ha') as [[result t'] Hr]; [now apply extend_unassigned|].
  rewrite Hr. simpl. destruct result; [eexists; reflexivity | now apply IH].
Qed.

(** With fuel above the number of unassigned variables the search finishes
    without an exception. *)
Lemma backtrack_safe (c : Crossword) (d : domains) (fuel : nat) :
  built c -> map fst d = variables c -> node_consistent d ->
  forall a,
    search_state c d a ->
    List.length (minus_assigned (variables c) a) < fuel ->
    exists r, backtrack fuel c d a = Ok r.
Proof.
  intros B K N. induction fuel as [|fuel IH]; intros a Ha Hf; [lia|].
  simpl. destruct (is_assignment_complete c a) eqn:Ecomp; [eexists; reflexivity|].
  pose proof (incomplete_unassigned c d a (variables_NoDup c B) Ha Ecomp) as Hne.
  destruct (select_loop_safe c d (minus_assigned (variables c) a)) with (best := @None Var)
    as [best [Hs Hnone]].
  { intros v Hin. apply minus_assigned_In in Hin. rewrite K. tauto. }
  { discriminate. }
  unfold select_variable. rewrite Hs. simpl.
  destruct best as [var|]; [|destruct (Hnone eq_refl); contradiction].
  apply select_variable_In in Hs. destruct Hs as [Hv Hl].
  destruct (lookup_key d var) as [vals Hd]; [now rewrite K|].
  apply dom_get_Ok in Hd. rewrite Hd. simpl. apply dom_get_Ok in Hd.
  refine (try_values_safe c d (backtrack fuel c d) a var vals B N _ Ha Hl Hv Hd
            vals [] (incl_refl _)).
  intros a' Ha' Hlt. apply IH; [exact Ha' | lia].
Qed.

Lemma perform_backtracking_sound (c : Crossword) (d : domains) (s : assignment)
      (t : trail) :
  perform_backtracking c d [] = Ok (Some s, t) -> solved c d s.
Proof.
  unfold perform_backtracking. intros H.
  eapply backtrack_sound; [apply search_state_empty | now left | exact H].
Qed.

(** The properties of a returned assignment, spelled out. *)
Lemma solved_valid (c : Crossword) (d : domains) (s : assignment) :
  built c -> solved c d s ->
  (forall v, In v (variables c) ->
             exists w, In (v, w) s /\ String.length w = var_length v /\
                       forall w', In (v, w') s -> w' = w) /\
  (forall v w, In (v, w) s -> In v (variables c)) /\
  (forall v1 v2 w, In (v1, w) s -> In (v2, w) s -> v1 = v2) /\
  (forall x y wx wy i j,
      In (x, wx) s -> In (y, wy) s ->
      overlaps_get c (x, y) = Some (Some (i, j)) ->
      exists ch, String.get i wx = Some ch /\ String.get j wy = Some ch).
Proof.
  intros B [Hst [Hcomp Hcons]].
  pose proof (complete_covers c d s Hst Hcomp) as Hcov.
  destruct Hst as [ND [Hincl Hdom]].
  assert (Hca : consistent_assignment c s).
  { destruct Hcons as [->|Hcons]; [|now apply is_consistent_true].
    split; [|split]; intros; contradiction. }
  destruct Hca as [Huniq [Hlen Hov]].
  split; [|split; [|split]].
  - intros v Hv. apply Hcov in Hv. apply in_map_iff in Hv.
    destruct Hv as [[v' w] [E Hin]]. simpl in E. subst v'.
    exists w. split; [exact Hin|]. split; [now apply Hlen|].
    intros w' Hin'.
    pose proof (In_lookup Var_eqb Var_eqb_eq v w s ND Hin) as L1.
    pose proof (In_lookup Var_eqb Var_eqb_eq v w' s ND Hin') as L2.
    congruence.
  - intros v w Hin. apply Hincl. apply (in_map fst) in Hin. exact Hin.
  - exact Huniq.
  - exact Hov.
Qed.

(** C1. Every assignment returned by [find_solution] gives each variable
    of the crossword exactly one word, of the variable's length, holds only
    variables of the crossword, uses no word for two variables, and has equal
    letters at the overlap indices of every two overlapping variables. *)
Theorem solution_valid (contents vocabulary : list string) (c : Crossword)
        (s : assignment) (t : trail) :
  Crossword_init contents vocabulary = Ok c ->
  find_solution c = Ok (Some s, t) ->
  (forall v, In v (variables c) ->
             exists w, In (v, w) s /\ String.length w = var_length v /\
                       forall w', In (v, w') s -> w' = w) /\
  (forall v w, In (v, w) s -> In v (variables c)) /\
  (forall v1 v2 w, In (v1, w) s -> In (v2, w) s -> v1 = v2) /\
  (forall x y wx wy i j,
      In (x, wx) s -> In (y, wy) s ->
      overlaps_get c (x, y) = Some (Some (i, j)) ->
      exists ch, String.get i wx = Some ch /\ String.get j wy = Some ch).
Proof.
  intros H Hs. apply Crossword_init_built in H. unfold find_solution in Hs.
  destruct (apply_ac3 c (ensure_node_consistency (init_domains c)) None)
    as [[b d']| |]; simpl in Hs; try discriminate.
  apply perform_backtracking_sound in Hs.
  now apply (solved_valid c d').
Qed.

(** * The discarded result of AC-3 *)

Lemma shrinks_node_consistent (d d' : domains) :
  NoDup (map fst d') -> shrinks d d' -> node_consistent d -> node_consistent d'.
Proof.
  intros ND [_ Hs] N v ws' w Hin Hw.
  apply (In_lookup Var_eqb Var_eqb_eq _ _ _ ND) in Hin.
  destruct (Hs _ _ Hin) as [ws [Hl Hincl]].
  eapply node_consistent_lookup; eauto.
Qed.

Lemma apply_ac3_shrinks (c : Crossword) (d d' : domains) (b : bool)
      (arcs : option (list (Var * Var))) :
  apply_ac3 c d arcs = Ok (b, d') -> shrinks d d'.
Proof.
  rewrite apply_ac3_unfold. intros H. apply ac3_loop_result in H. tauto.
Qed.

Lemma apply_ac3_false_emptied (c : Crossword) (d d' : domains)
      (arcs : option (list (Var * Var))) :
  apply_ac3 c d arcs = Ok (false, d') -> exists v, lookup Var_eqb v d' = Some [].
Proof.
  rewrite apply_ac3_unfold. intros H. apply ac3_loop_result in H.
  destruct H as [_ [_ Hf]]. destruct (Hf eq_refl) as [v [_ Hv]]. now exists v.
Qed.

(** C2 (amended). [find_solution] runs node consistency, then AC-3, then
    the backtracking search on the empty assignment whatever AC-3 returned;
    whenever AC-3 returned [False] that search ends without an assignment,
    so the solve still reports no solution. *)
Theorem ac3_failure_no_solution (contents vocabulary : list string) (c : Crossword)
        (d' : domains) :
  Crossword_init contents vocabulary = Ok c ->
  apply_ac3 c (ensure_node_consistency (init_domains c)) None = Ok (false, d') ->
  exists t, perform_backtracking c d' [] = Ok (None, t) /\
            find_solution c = Ok (None, t).
Proof.
  intros H Hac. apply Crossword_init_built in H.
  destruct (solver_domains_ready c) as [K N].
  pose proof (apply_ac3_shrinks _ _ _ _ _ Hac) as Hs.
  assert (K' : map fst d' = variables c) by (rewrite (proj1 Hs); exact K).
  assert (N' : node_consistent d').
  { eapply shrinks_node_consistent; eauto. rewrite K'. now apply variables_NoDup. }
  destruct (apply_ac3_false_emptied _ _ _ _ Hac) as [x Hx].
  destruct (backtrack_safe c d' (S (List.length (minus_assigned (variables c) [])))
              H K' N' [] (search_state_empty c d')) as [[result t] Hr]; [lia|].
  fold (perform_backtracking c d' []) in Hr.
  assert (result = None).
  { destruct result as [s|]; [|reflexivity]. exfalso.
    pose proof (perform_backtracking_sound _ _ _ _ Hr) as Hsol.
    destruct Hsol as [Hst [Hcomp _]].
    pose proof (complete_covers c d' s Hst Hcomp) as Hcov.
    assert (Hxv : In x (variables c)).
    { rewrite <- K'. eapply (lookup_Some_key Var_eqb Var_eqb_eq). exact Hx. }
    apply Hcov in Hxv. apply in_map_iff in Hxv.
    destruct Hxv as [[x' w] [E Hin]]. simpl in E. subst x'.
    destruct Hst as [_ [_ Hdom]]. destruct (Hdom _ _ Hin) as [ws [Hl Hw]].
    rewrite Hx in Hl. injection Hl as <-. contradiction. }
  subst result. exists t. split; [exact Hr|].
  unfold find_solution. rewrite Hac. simpl. exact Hr.
Qed.

(** The recursion of the search adds one unassigned variable per level, so
    the fuel [perform_backtracking] passes is never used up. *)
Lemma check_neighbors_not_timeout (c : Crossword) (a : assignment) (var : Var)
      (word : string) (ns : list Var) :
  check_neighbors c a var word ns <> OutOfFuel.
Proof.
  induction ns as [|n ns' IH]; simpl; [discriminate|].
  destruct (lookup Var_eqb n a) as [nw|]; [|exact IH].
  destruct (overlaps_get c (var, n)) as [[[i j]|]|]; try discriminate.
  unfold str_index. destruct (String.get i word); simpl; [|discriminate].
  destruct (String.get j nw) as [cb|]; simpl; [|discriminate].
  destruct (Ascii.eqb a0 cb); [exact IH | discriminate].
Qed.

Lemma is_consistent_not_timeout (c : Crossword) (a : assignment) :
  is_consistent c a <> OutOfFuel.
Proof.
  unfold is_consistent. generalize (@nil string). generalize a at 2.
  intros entries. induction entries as [|[var word] rest IH]; simpl; intros used;
    [discriminate|].
  destruct (mem word used); [discriminate|].
  destruct (negb (String.length word =? var_length var)); [discriminate|].
  destruct (check_neighbors c a var word (neighbors c var)) as [ok| |] eqn:E; simpl.
  - destruct ok; [apply IH | discriminate].
  - discriminate.
  - now apply check_neighbors_not_timeout in E.
Qed.

Lemma select_loop_not_timeout (c : Crossword) (d : domains) (vs : list Var) :
  forall best, select_loop c d vs best <> OutOfFuel.
Proof.
  induction vs as [|var vs' IH]; simpl; intros best; [discriminate|].
  destruct best as [b|]; [|apply IH].
  unfold dom_get. destruct (lookup Var_eqb var d); simpl; [|discriminate].
  destruct (lookup Var_eqb b d); simpl; [|discriminate].
  destruct ((List.length l <? List.length l0)
            || (List.length (neighbors c b) <? List.length (neighbors c var)));
    apply IH.
Qed.

Lemma try_values_not_timeout (c : Crossword)
      (recurse : assignment -> res (option assignment * trail))
      (a : assignment) (var : Var) (vals : list string) :
  (forall value, recurse (assign Var_eqb a var value) <> OutOfFuel) ->
  forall t, try_values c recurse a var vals t <> OutOfFuel.
Proof.
  intros Hrec. induction vals as [|value vals' IH]; simpl; intros t; [discriminate|].
  destruct (is_consistent c (assign Var_eqb a var value)) as [ok| |] eqn:E; simpl.
  - destruct ok; [|apply IH].
    destruct (recurse (assign Var_eqb a var value)) as [[result t']| |] eqn:Er; simpl.
    + destruct result; [discriminate | apply IH].
    + discriminate.
    + now apply Hrec in Er.
  - discriminate.
  - now apply is_consistent_not_timeout in E.
Qed.

Lemma backtrack_terminates (c : Crossword) (d : domains) (fuel : nat) :
  forall a,
    List.length (minus_assigned (variables c) a) < fuel ->
    backtrack fuel c d a <> OutOfFuel.
Proof.
  induction fuel as [|fuel IH]; intros a Hf; [lia|].
  simpl. destruct (is_assignment_complete c a); [discriminate|].
  destruct (select_variable c d a) as [best| |] eqn:Es; simpl.
  - destruct best as [var|]; [|discriminate].
    apply select_variable_In in Es. destruct Es as [Hv Hl].
    unfold dom_get. destruct (lookup Var_eqb var d) as [vals|]; simpl; [|discriminate].
    apply try_values_not_timeout. intros value. apply IH.
    rewrite (assign_fresh Var_eqb _ _ value Hl).
    pose proof (extend_unassigned (variables c) a var value Hv Hl). lia.
  - discriminate.
  - unfold select_variable in Es. now apply select_loop_not_timeout in Es.
Qed.

Lemma perform_backtracking_terminates (c : Crossword) (d : domains) (a : assignment) :
  perform_backtracking c d a <> OutOfFuel.
Proof. unfold perform_backtracking. apply backtrack_terminates. lia. Qed.

(** On a crossword built by [Crossword.__init__] the whole solve returns
    normally: an assignment or [None], never an exception. *)
Lemma find_solution_returns (c : Crossword) :
  built c -> exists result t, find_solution c = Ok (result, t).
Proof.
  intros B. destruct (solver_domains_ready c) as [K N].
  destruct (apply_ac3_safe c _ B K N) as [b [d' Hac]].
  pose proof (apply_ac3_shrinks _ _ _ _ _ Hac) as Hs.
  assert (K' : map fst d' = variables c) by (rewrite (proj1 Hs); exact K).
  assert (N' : node_consistent d').
  { eapply shrinks_node_consistent; eauto. rewrite K'. now apply variables_NoDup. }
  destruct (backtrack_safe c d' (S (List.length (minus_assigned (variables c) [])))
              B K' N' [] (search_state_empty c d')) as [[result t] Hr]; [lia|].
  exists result, t. unfold find_solution. rewrite Hac. simpl. exact Hr.
Qed.

(** * Small fixed cases *)

Example solve_single_slot :
  solve ["___"]%string ["CAT"]%string
  = Ok (Some [(mkVar 0 0 ACROSS 3, "CAT"%string)],
        [(mkVar 0 0 ACROSS 3, "CAT"%string)]).
Proof. reflexivity. Qed.

Example solve_wrong_lengths :
  solve ["_____"]%string ["ABC"; "ABCD"]%string = Ok (None, []).
Proof. reflexivity. Qed.

Example solve_no_repeat :
  exists t, solve ["__#__"]%string ["AB"]%string = Ok (None, t).
Proof. eexists. reflexivity. Qed.

Example solve_crossing :
  exists t,
    solve ["#_#"; "___"; "#_#"]%string ["CAT"; "CAR"; "ARM"]%string
    = Ok (Some [(mkVar 0 1 DOWN 3, "CAT"); (mkVar 1 0 ACROSS 3, "CAR")]%string, t).
Proof. eexists. reflexivity. Qed.

Example solve_empty_structure_file :
  solve [] ["CAT"]%string = Raise ValueError.
Proof. reflexivity. Qed.

(** * The claims on concrete puzzles *)

Lemma solution_valid_witness :
  let c := the_crossword grid_bottom words_bottom in
  let s := [(mkVar 1 0 ACROSS 3, "CAT"); (mkVar 0 0 DOWN 2, "OC");
            (mkVar 0 2 DOWN 2, "OT")]%string in
  (forall v, In v (variables c) ->
             exists w, In (v, w) s /\ String.length w = var_length v /\
                       forall w', In (v, w') s -> w' = w) /\
  (forall v w, In (v, w) s -> In v (variables c)) /\
  (forall v1 v2 w, In (v1, w) s -> In (v2, w) s -> v1 = v2) /\
  (forall x y wx wy i j,
      In (x, wx) s -> In (y, wy) s ->
      overlaps_get c (x, y) = Some (Some (i, j)) ->
      exists ch, String.get i wx = Some ch /\ String.get j wy = Some ch).
Proof.
  intros c s.
  (* on this puzzle the trail of the search is the solution itself *)
  apply (solution_valid grid_bottom words_bottom c s s); reflexivity.
Defined.

(** C2, as stated, fails: on this puzzle AC-3 returns [False] (the domain of
    the DOWN word at the top left is emptied), yet the search is entered and
    tries [CAT] for the ACROSS word before reporting no solution. *)
Lemma ac3_failure_still_searches :
  let c := the_crossword grid_top words_top in
  Crossword_init grid_top words_top = Ok c /\
  (exists d', apply_ac3 c (start_domains c) None = Ok (false, d')) /\
  find_solution c = Ok (None, [(mkVar 0 0 ACROSS 3, "CAT"%string)]).
Proof.
  split; [reflexivity|]. split; [eexists; reflexivity | reflexivity].
Qed.

Lemma ac3_failure_no_solution_witness :
  let c := the_crossword grid_top words_top in
  let d' := [(mkVar 0 0 DOWN 2, []); (mkVar 0 0 ACROSS 3, ["CAT"]);
             (mkVar 0 2 DOWN 2, ["TO"; "TA"])]%string in
  exists t, perform_backtracking c d' [] = Ok (None, t) /\
            find_solution c = Ok (None, t).
Proof.
  intros c d'.
  apply (ac3_failure_no_solution grid_top words_top c d'); reflexivity.
Defined.

(** C3 on a concrete puzzle: the first recursive call selects the ACROSS
    word, whose domain after AC-3 is [BB], [AC].  The least-constraining-value
    count of [BB] is 2 (it rules out [CD] and [CE] for the DOWN word) and that
    of [AC] is 1 (it rules out [BB]), so the ascending order is [AC], [BB],
    which is also what [order_values] returns; but the search tries [BB]
    first, fails on every word of the DOWN variable under it, and only then
    tries [AC]. *)
Lemma backtracking_ignores_order_values :
  let c := the_crossword grid_corner words_square in
  let A := mkVar 0 0 ACROSS 2 in
  let D := mkVar 0 1 DOWN 2 in
  exists d,
    Crossword_init grid_corner words_square = Ok c /\
    apply_ac3 c (start_domains c) None = Ok (true, d) /\
    select_variable c d [] = Ok (Some A) /\
    dom_get d A = Ok ["BB"; "AC"]%string /\
    dom_get d D = Ok ["BB"; "CD"; "CE"]%string /\
    lcv_count_spec c d A [] "BB" = 2 /\
    lcv_count_spec c d A [] "AC" = 1 /\
    order_values c d A [] = Ok ["AC"; "BB"]%string /\
    find_solution c =
      Ok (Some [(A, "AC"); (D, "CD")],
          [(A, "BB"); (D, "BB"); (D, "CD"); (D, "CE");
           (A, "AC"); (D, "BB"); (D, "CD")])%string.
Proof.
  eexists. repeat split; reflexivity.
Qed.

(** C4 on a concrete puzzle: after node consistency and AC-3 the DOWN word
    at the top left has one candidate left and the ACROSS word two, and
    [select_variable] returns the ACROSS word, which has more neighbors. *)
Lemma select_variable_prefers_degree :
  let c := the_crossword grid_bottom words_bottom in
  let A := mkVar 1 0 ACROSS 3 in
  let D := mkVar 0 0 DOWN 2 in
  exists d,
    Crossword_init grid_bottom words_bottom = Ok c /\
    apply_ac3 c (start_domains c) None = Ok (true, d) /\
    minus_assigned (variables c) [] = [D; mkVar 0 2 DOWN 2; A] /\
    dom_get d D = Ok ["OC"]%string /\
    dom_get d A = Ok ["CAT"; "COT"]%string /\
    List.length (neighbors c D) = 1 /\
    List.length (neighbors c A) = 2 /\
    select_variable c d [] = Ok (Some A).
Proof.
  eexists. repeat split; reflexivity.
Qed.

(** C5 on a concrete puzzle: for the ACROSS word, [XA] would eliminate two
    words of the DOWN word's domain and [AB] one, but [order_values] counts
    the neighbors whose domain contains the candidate itself and puts [XA]
    first. *)
Lemma order_values_counts_membership :
  let c := the_crossword grid_corner words_corner in
  let A := mkVar 0 0 ACROSS 2 in
  let D := mkVar 0 1 DOWN 2 in
  exists d,
    Crossword_init grid_corner words_corner = Ok c /\
    apply_ac3 c (start_domains c) None = Ok (true, d) /\
    dom_get d A = Ok ["AB"; "XA"]%string /\
    dom_get d D = Ok ["AB"; "BC"; "BD"]%string /\
    overlaps_get c (A, D) = Some (Some (1, 0)) /\
    lcv_count_spec c d A [] "XA" = 2 /\
    lcv_count_spec c d A [] "AB" = 1 /\
    count_values c d A [] ["AB"; "XA"]%string = Ok [("AB", 1); ("XA", 0)]%string /\
    order_values c d A [] = Ok ["XA"; "AB"]%string.
Proof.
  eexists. repeat split; reflexivity.
Qed.

(** C6, as stated, fails for a worklist given by the caller: with an empty
    worklist [apply_ac3] returns [True] at once, and [BC] stays in the
    domain of the ACROSS word although no word of the DOWN word's domain
    starts with [C]. *)
Lemma ac3_given_worklist_not_consistent :
  let c := the_crossword grid_corner words_corner in
  let A := mkVar 0 0 ACROSS 2 in
  let D := mkVar 0 1 DOWN 2 in
  Crossword_init grid_corner words_corner = Ok c /\
  apply_ac3 c (start_domains c) (Some []) = Ok (true, start_domains c) /\
  overlaps_get c (A, D) = Some (Some (1, 0)) /\
  (exists dx, lookup Var_eqb A (start_domains c) = Some dx /\ In "BC"%string dx) /\
  (exists dy, lookup Var_eqb D (start_domains c) = Some dy /\
              forall wy, In wy dy -> String.get 1 "BC" <> String.get 0 wy).
Proof.
  split; [reflexivity|]. split; [reflexivity|]. split; [reflexivity|]. split.
  - eexists. split; [reflexivity|]. simpl. tauto.
  - eexists. split; [reflexivity|].
    intros wy [<-|[<-|[<-|[<-|[]]]]]; discriminate.
Qed.

Lemma ac3_success_arc_consistent_witness :
  let c := the_crossword grid_corner words_corner in
  let d := start_domains c in
  let d' := [(mkVar 0 0 ACROSS 2, ["AB"; "XA"]);
             (mkVar 0 1 DOWN 2, ["AB"; "BC"; "BD"])]%string in
  apply_ac3 c d None = Ok (true, d') /\
  forall x y i j dx wx,
    overlaps_get c (x, y) = Some (Some (i, j)) ->
    lookup Var_eqb x d' = Some dx -> In wx dx ->
    exists dy wy ch,
      lookup Var_eqb y d' = Some dy /\ In wy dy /\
      String.get i wx = Some ch /\ String.get j wy = Some ch.
Proof.
  intros c d d'. split; [reflexivity|].
  apply (ac3_success_arc_consistent grid_corner words_corner c d None d').
  - reflexivity.
  - apply default_worklist_covers. reflexivity.
  - reflexivity.
Defined.

Lemma slot_discovery_exact_witness :
  let c := the_crossword grid_bottom words_bottom in
  NoDup (variables c) /\
  (forall i j n,
      In (mkVar i j DOWN n) (variables c) <-> maximal_run_down c i j n /\ 2 <= n) /\
  (forall i j n,
      In (mkVar i j ACROSS n) (variables c) <-> maximal_run_across c i j n /\ 2 <= n).
Proof.
  intros c. apply (slot_discovery_exact grid_bottom words_bottom c). reflexivity.
Defined.

Lemma overlap_symmetry_witness :
  let c := the_crossword grid_bottom words_bottom in
  let A := mkVar 1 0 ACROSS 3 in
  let B := mkVar 0 2 DOWN 2 in
  overlaps_get c (A, B) <> None /\ overlaps_get c (B, A) <> None /\
  (overlaps_get c (A, B) = Some None <-> overlaps_get c (B, A) = Some None) /\
  (forall i j, overlaps_get c (A, B) = Some (Some (i, j)) ->
     overlaps_get c (B, A) = Some (Some (j, i)) /\
     exists x, nth_error (cells A) i = Some x /\ nth_error (cells B) j = Some x).
Proof.
  intros c A B.
  apply (overlap_symmetry grid_bottom words_bottom c A B).
  - reflexivity.
  - simpl. tauto.
  - simpl. tauto.
  - discriminate.
Defined.

Lemma revise_never_raises_witness :
  let c := the_crossword grid_bottom words_bottom in
  let d := ensure_node_consistency (init_domains c) in
  (forall x y,
      In (x, y) (all_arcs c d) ->
      exists i j dx dy,
        overlaps_get c (x, y) = Some (Some (i, j)) /\
        lookup Var_eqb x d = Some dx /\ lookup Var_eqb y d = Some dy /\
        (forall w, In w dx -> i < String.length w) /\
        (forall w, In w dy -> j < String.length w)) /\
  exists b d', apply_ac3 c d None = Ok (b, d').
Proof.
  intros c. apply (revise_never_raises grid_bottom words_bottom c). reflexivity.
Defined.

(** * More on crossword.py *)

Lemma cells_nth_error (v : Var) (k : nat) :
  k < var_length v -> nth_error (cells v) k = Some (cell_at v k).
Proof.
  intros Hk. unfold cells.
  rewrite nth_error_map, nth_error_seq.
  destruct (k <? var_length v) eqn:E; [|apply Nat.ltb_ge in E; lia].
  simpl. unfold cell_at. destruct (var_direction v); simpl;
    now rewrite Nat.add_0_r.
Qed.

Lemma cell_at_inj (v : Var) (k k' : nat) : cell_at v k = cell_at v k' -> k = k'.
Proof.
  unfold cell_at. destruct (var_direction v); intros H; injection H; lia.
Qed.

Lemma cells_NoDup (v : Var) : NoDup (cells v).
Proof.
  apply NoDup_nth_error. intros i j Hi E. rewrite cells_length in Hi.
  rewrite (cells_nth_error v i Hi) in E.
  destruct (Nat.lt_ge_cases j (var_length v)) as [Hj|Hj].
  - rewrite (cells_nth_error v j Hj) in E. injection E as E.
    now apply cell_at_inj in E.
  - assert (Hn : nth_error (cells v) j = None)
      by (apply nth_error_None; now rewrite cells_length).
    rewrite Hn in E. discriminate.
Qed.

(** X1. A variable occupies [length] distinct cells; the one at position [k]
    is [(i + k, j)] for a DOWN variable and [(i, j + k)] for an ACROSS one. *)
Theorem cells_layout (v : Var) :
  List.length (cells v) = var_length v /\
  NoDup (cells v) /\
  (forall k, k < var_length v ->
     nth_error (cells v) k =
     Some (match var_direction v with
           | DOWN => (var_i v + k, var_j v)
           | ACROSS => (var_i v, var_j v + k)
           end)) /\
  (forall k, var_length v <= k -> nth_error (cells v) k = None).
Proof.
  split; [apply cells_length|]. split; [apply cells_NoDup|]. split.
  - intros k Hk. apply (cells_nth_error v k Hk).
  - intros k Hk. apply nth_error_None. now rewrite cells_length.
Qed.

(** X2. [Variable.__eq__] holds exactly for variables with equal row,
    column, direction and length, so it is an equivalence, and variables it
    equates hash the same tuple. *)
Theorem eq_hash_contract (a b c : Var) :
  (Var_eqb a b = true <-> a = b) /\
  (Var_eqb a b = true <-> hash_key a = hash_key b) /\
  Var_eqb a a = true /\
  Var_eqb a b = Var_eqb b a /\
  (Var_eqb a b = true -> Var_eqb b c = true -> Var_eqb a c = true).
Proof.
  split; [apply Var_eqb_eq|]. split; [|split; [apply Var_eqb_refl|split]].
  - rewrite Var_eqb_eq. unfold hash_key. split; [now intros ->|].
    destruct a, b; simpl. intros H. injection H as -> -> -> ->. reflexivity.
  - apply Var_eqb_sym.
  - rewrite !Var_eqb_eq. congruence.
Qed.

Lemma fold_max_spec (l : list nat) :
  forall a,
    a <= fold_left Nat.max l a /\
    (forall x, In x l -> x <= fold_left Nat.max l a) /\
    (fold_left Nat.max l a = a \/ In (fold_left Nat.max l a) l).
Proof.
  induction l as [|y r IH]; simpl; intros a.
  - split; [lia|]. split; [contradiction | now left].
  - destruct (IH (Nat.max a y)) as [H1 [H2 H3]]. split; [lia|]. split.
    + intros x [<-|Hx]; [lia | now apply H2].
    + destruct H3 as [H3|H3]; [|right; now right].
      rewrite H3. destruct (Nat.max_spec a y) as [[_ ->]|[_ ->]]; auto.
Qed.

Lemma get_Some_lt (w : string) (i : nat) (a : ascii) :
  String.get i w = Some a -> i < String.length w.
Proof.
  revert i. induction w as [|ch r IH]; simpl; intros i H; [discriminate|].
  destruct i; [lia|]. apply IH in H. lia.
Qed.

Lemma structure_row_nth (w : nat) (line : string) (j : nat) :
  j < w ->
  (nth j (structure_row w line) false = true <-> String.get j line = Some "_"%char).
Proof.
  intros Hj. unfold structure_row. rewrite nth_map_seq.
  apply Nat.ltb_lt in Hj. rewrite Hj. simpl.
  destruct (String.get j line) as [ch|] eqn:E.
  - apply get_Some_lt in E. apply Nat.ltb_lt in E. rewrite E. simpl.
    rewrite Ascii.eqb_eq. split; [now intros -> | intros H; now injection H].
  - rewrite andb_false_r. split; discriminate.
Qed.

(** X3. The grid read from the structure file has one row per line and as
    many columns as the longest line; a cell is fillable exactly when its
    line has an underscore at that column, so short lines are padded with
    blocked cells. *)
Theorem structure_from_lines (contents vocabulary : list string) (c : Crossword) :
  Crossword_init contents vocabulary = Ok c ->
  height c = List.length contents /\
  List.length (structure c) = height c /\
  (forall row, In row (structure c) -> List.length row = width c) /\
  (forall line, In line contents -> String.length line <= width c) /\
  (exists line, In line contents /\ String.length line = width c) /\
  (forall i j line,
      nth_error contents i = Some line -> j < width c ->
      (structure_at (structure c) i j = true <-> String.get j line = Some "_"%char)).
Proof.
  intros H. pose proof (Crossword_init_rectangular _ _ _ H) as [R1 R2].
  apply Crossword_init_inv in H. destruct H as [w [Hw ->]]. simpl in *.
  split; [reflexivity|]. split; [exact R1|]. split; [exact R2|].
  destruct contents as [|l ls]; [discriminate|]. simpl in Hw. injection Hw as <-.
  destruct (fold_max_spec (map String.length ls) (String.length l)) as [M1 [M2 M3]].
  split; [|split].
  - intros line [<-|Hin]; [exact M1|]. apply M2. now apply in_map.
  - destruct M3 as [M3|M3].
    + exists l. split; [now left | now symmetry].
    + apply in_map_iff in M3. destruct M3 as [line [E Hin]].
      exists line. split; [now right | exact E].
  - intros i j line Hn Hj. unfold structure_at.
    assert (E : nth i (map (structure_row
                  (fold_left Nat.max (map String.length ls) (String.length l)))
                  (l :: ls)) []
                = structure_row
                    (fold_left Nat.max (map String.length ls) (String.length l)) line).
    { apply nth_error_nth. rewrite nth_error_map, Hn. reflexivity. }
    rewrite E. now apply structure_row_nth.
Qed.

Lemma structure_from_lines_witness :
  let c := the_crossword grid_bottom words_bottom in
  height c = 2 /\
  List.length (structure c) = height c /\
  (forall row, In row (structure c) -> List.length row = width c) /\
  (forall line, In line grid_bottom -> String.length line <= width c) /\
  (exists line, In line grid_bottom /\ String.length line = width c) /\
  (forall i j line,
      nth_error grid_bottom i = Some line -> j < width c ->
      (structure_at (structure c) i j = true <-> String.get j line = Some "_"%char)).
Proof.
  intros c. apply (structure_from_lines grid_bottom words_bottom c). reflexivity.
Defined.

Lemma variable_cells_fillable (c : Crossword) (v : Var) :
  built c -> In v (variables c) ->
  2 <= var_length v /\
  forall r k, In (r, k) (cells v) -> fillable c r k.
Proof.
  intros H Hv. destruct v as [i j dr n]. destruct dr.
  - apply (variables_across c i j n H) in Hv.
    destruct Hv as [[_ [Hf _]] Hn]. split; [exact Hn|].
    intros r k Hin. apply cells_In in Hin. simpl in Hin. destruct Hin as [-> Hk].
    replace k with (j + (k - j)) by lia. apply Hf. lia.
  - apply (variables_down c i j n H) in Hv.
    destruct Hv as [[_ [Hf _]] Hn]. split; [exact Hn|].
    intros r k Hin. apply cells_In in Hin. simpl in Hin. destruct Hin as [-> Hr].
    replace r with (i + (r - i)) by lia. apply Hf. lia.
Qed.

(** X4. Every variable of a crossword has length at least 2 and occupies
    only fillable cells inside the grid. *)
Theorem variables_in_grid (contents vocabulary : list string) (c : Crossword)
        (v : Var) :
  Crossword_init contents vocabulary = Ok c ->
  In v (variables c) ->
  2 <= var_length v /\
  forall r k, In (r, k) (cells v) -> fillable c r k.
Proof.
  intros H Hv. apply Crossword_init_built in H.
  now apply variable_cells_fillable.
Qed.

Lemma variables_in_grid_witness :
  let c := the_crossword grid_bottom words_bottom in
  let v := mkVar 1 0 ACROSS 3 in
  2 <= var_length v /\
  forall r k, In (r, k) (cells v) -> fillable c r k.
Proof.
  intros c v. apply (variables_in_grid grid_bottom words_bottom c v).
  - reflexivity.
  - simpl. tauto.
Defined.

Lemma run_start (f : nat -> bool) (k : nat) :
  f k = true ->
  exists j0, j0 <= k /\ (forall t, j0 <= t -> t <= k -> f t = true) /\
             (j0 = 0 \/ f (j0 - 1) = false).
Proof.
  induction k as [|k IH]; intros Hk.
  - exists 0. split; [lia|]. split; [|now left].
    intros t H1 H2. replace t with 0 by lia. exact Hk.
  - destruct (f k) eqn:E.
    + destruct (IH eq_refl) as [j0 [H1 [H2 H3]]].
      exists j0. split; [lia|]. split; [|exact H3].
      intros t Ht1 Ht2. destruct (Nat.eq_dec t (S k)) as [->|Hne]; [exact Hk|].
      apply H2; lia.
    + exists (S k). split; [lia|]. split.
      * intros t Ht1 Ht2. replace t with (S k) by lia. exact Hk.
      * right. simpl. now rewrite Nat.sub_0_r.
Qed.

(** Variables of the same orientation that share a cell are the same
    variable. *)
Lemma same_direction_disjoint (c : Crossword) (a b : Var) (x : cell) :
  built c -> In a (variables c) -> In b (variables c) ->
  var_direction a = var_direction b ->
  In x (cells a) -> In x (cells b) -> a = b.
Proof.
  intros B Ha Hb Hd Hxa Hxb. destruct x as [r k].
  apply cells_In in Hxa, Hxb.
  destruct a as [ia ja da na], b as [ib jb db nb]; simpl in *. subst db.
  destruct da.
  - apply (variables_across _ _ _ _ B) in Ha, Hb.
    destruct Ha as [[_ [Fa [Sa Ea]]] _], Hb as [[_ [Fb [Sb Eb]]] _].
    destruct Hxa as [-> Hxa], Hxb as [E Hxb]. subst ib.
    assert (ja = jb).
    { destruct (Nat.lt_trichotomy ja jb) as [L|[L|L]]; [|exact L|].
      - destruct Sb as [Sb|Sb]; [lia|]. exfalso. apply Sb.
        replace (jb - 1) with (ja + (jb - 1 - ja)) by lia. apply Fa. lia.
      - destruct Sa as [Sa|Sa]; [lia|]. exfalso. apply Sa.
        replace (ja - 1) with (jb + (ja - 1 - jb)) by lia. apply Fb. lia. }
    subst jb.
    assert (na = nb).
    { destruct (Nat.lt_trichotomy na nb) as [L|[L|L]]; [|exact L|].
      - exfalso. apply Ea. apply Fb. exact L.
      - exfalso. apply Eb. apply Fa. exact L. }
    now subst nb.
  - apply (variables_down _ _ _ _ B) in Ha, Hb.
    destruct Ha as [[_ [Fa [Sa Ea]]] _], Hb as [[_ [Fb [Sb Eb]]] _].
    destruct Hxa as [-> Hxa], Hxb as [E Hxb]. subst jb.
    assert (ia = ib).
    { destruct (Nat.lt_trichotomy ia ib) as [L|[L|L]]; [|exact L|].
      - destruct Sb as [Sb|Sb]; [lia|]. exfalso. apply Sb.
        replace (ib - 1) with (ia + (ib - 1 - ia)) by lia. apply Fa. lia.
      - destruct Sa as [Sa|Sa]; [lia|]. exfalso. apply Sa.
        replace (ia - 1) with (ib + (ia - 1 - ib)) by lia. apply Fb. lia. }
    subst ib.
    assert (na = nb).
    { destruct (Nat.lt_trichotomy na nb) as [L|[L|L]]; [|exact L|].
      - exfalso. apply Ea. apply Fb. exact L.
      - exfalso. apply Eb. apply Fa. exact L. }
    now subst nb.
Qed.

Lemma across_cover (c : Crossword) (r k : nat) :
  built c -> fillable c r k ->
  fillable c r (k + 1) \/ (0 < k /\ fillable c r (k - 1)) ->
  exists v, In v (variables c) /\ var_direction v = ACROSS /\ In (r, k) (cells v).
Proof.
  intros B Hk Hnb. pose proof (proj1 B) as R.
  apply (fillable_iff c r k R) in Hk.
  destruct (run_start (fun t => structure_at (structure c) r t) k Hk)
    as [j0 [Hle [Hrun Hst]]].
  set (n := across_length (structure c) (width c) r j0).
  assert (H0 : structure_at (structure c) r j0 = true) by (apply Hrun; lia).
  destruct (proj1 (across_length_maximal c r j0 n R) (conj H0 eq_refl))
    as [Hn1 [Hall Hend]].
  assert (Hkn : k < j0 + n).
  { destruct (Nat.lt_ge_cases k (j0 + n)) as [L|L]; [exact L|].
    exfalso. apply Hend. apply (fillable_iff c r (j0 + n) R). apply Hrun; lia. }
  assert (Hn2 : 2 <= n).
  { destruct (Nat.eq_dec n 1) as [E|E]; [|lia]. exfalso.
    assert (k = j0) by lia. subst k. rewrite E in Hend.
    destruct Hnb as [Hnb|[Hpos Hnb]]; [now apply Hend|].
    destruct Hst as [Hst|Hst]; [lia|].
    apply (fillable_iff c r (j0 - 1) R) in Hnb. congruence. }
  exists (mkVar r j0 ACROSS n). split; [|split; [reflexivity|]].
  - apply (variables_across c r j0 n B). split; [|exact Hn2].
    split; [exact Hn1|]. split; [exact Hall|]. split; [|exact Hend].
    destruct Hst as [Hst|Hst]; [now left | right].
    now apply (not_fillable_iff c r (j0 - 1) R).
  - apply cells_In. simpl. lia.
Qed.

Lemma down_cover (c : Crossword) (r k : nat) :
  built c -> fillable c r k ->
  fillable c (r + 1) k \/ (0 < r /\ fillable c (r - 1) k) ->
  exists v, In v (variables c) /\ var_direction v = DOWN /\ In (r, k) (cells v).
Proof.
  intros B Hk Hnb. pose proof (proj1 B) as R.
  apply (fillable_iff c r k R) in Hk.
  destruct (run_start (fun t => structure_at (structure c) t k) r Hk)
    as [i0 [Hle [Hrun Hst]]].
  set (n := down_length (structure c) (height c) i0 k).
  assert (H0 : structure_at (structure c) i0 k = true) by (apply Hrun; lia).
  destruct (proj1 (down_length_maximal c i0 k n R) (conj H0 eq_refl))
    as [Hn1 [Hall Hend]].
  assert (Hkn : r < i0 + n).
  { destruct (Nat.lt_ge_cases r (i0 + n)) as [L|L]; [exact L|].
    exfalso. apply Hend. apply (fillable_iff c (i0 + n) k R). apply Hrun; lia. }
  assert (Hn2 : 2 <= n).
  { destruct (Nat.eq_dec n 1) as [E|E]; [|lia]. exfalso.
    assert (r = i0) by lia. subst r. rewrite E in Hend.
    destruct Hnb as [Hnb|[Hpos Hnb]]; [now apply Hend|].
    destruct Hst as [Hst|Hst]; [lia|].
    apply (fillable_iff c (i0 - 1) k R) in Hnb. congruence. }
  exists (mkVar i0 k DOWN n). split; [|split; [reflexivity|]].
  - apply (variables_down c i0 k n B). split; [|exact Hn2].
    split; [exact Hn1|]. split; [exact Hall|]. split; [|exact Hend].
    destruct Hst as [Hst|Hst]; [now left | right].
    now apply (not_fillable_iff c (i0 - 1) k R).
  - apply cells_In. simpl. lia.
Qed.

(** X5. Every fillable cell with a fillable cell to its left or right lies
    in exactly one ACROSS variable, and every fillable cell with a fillable
    cell above or below lies in exactly one DOWN variable. *)
Theorem fillable_cells_covered (contents vocabulary : list string) (c : Crossword)
        (r k : nat) :
  Crossword_init contents vocabulary = Ok c ->
  fillable c r k ->
  (fillable c r (k + 1) \/ (0 < k /\ fillable c r (k - 1)) ->
   exists v, In v (variables c) /\ var_direction v = ACROSS /\ In (r, k) (cells v) /\
             forall v', In v' (variables c) -> var_direction v' = ACROSS ->
                        In (r, k) (cells v') -> v' = v) /\
  (fillable c (r + 1) k \/ (0 < r /\ fillable c (r - 1) k) ->
   exists v, In v (variables c) /\ var_direction v = DOWN /\ In (r, k) (cells v) /\
             forall v', In v' (variables c) -> var_direction v' = DOWN ->
                        In (r, k) (cells v') -> v' = v).
Proof.
  intros H Hk. apply Crossword_init_built in H. split; intros Hnb.
  - destruct (across_cover c r k H Hk Hnb) as [v [Hv [Hd Hin]]].
    exists v. repeat (split; [assumption|]).
    intros v' Hv' Hd' Hin'.
    apply (same_direction_disjoint c v' v (r, k)); try assumption. congruence.
  - destruct (down_cover c r k H Hk Hnb) as [v [Hv [Hd Hin]]].
    exists v. repeat (split; [assumption|]).
    intros v' Hv' Hd' Hin'.
    apply (same_direction_disjoint c v' v (r, k)); try assumption. congruence.
Qed.

Lemma fillable_cells_covered_witness :
  let c := the_crossword grid_bottom words_bottom in
  (fillable c 1 1 /\ fillable c 1 2) /\
  (fillable c 1 (1 + 1) \/ (0 < 1 /\ fillable c 1 (1 - 1)) ->
   exists v, In v (variables c) /\ var_direction v = ACROSS /\ In (1, 1) (cells v) /\
             forall v', In v' (variables c) -> var_direction v' = ACROSS ->
                        In (1, 1) (cells v') -> v' = v) /\
  (fillable c (1 + 1) 1 \/ (0 < 1 /\ fillable c (1 - 1) 1) ->
   exists v, In v (variables c) /\ var_direction v = DOWN /\ In (1, 1) (cells v) /\
             forall v', In v' (variables c) -> var_direction v' = DOWN ->
                        In (1, 1) (cells v') -> v' = v).
Proof.
  intros c.
  assert (F : forall k, k < 3 -> fillable c 1 k).
  { intros k Hk. unfold fillable. simpl.
    destruct k as [|[|[|k]]]; try lia; repeat split; lia. }
  split; [split; apply F; lia|].
  apply (fillable_cells_covered grid_bottom words_bottom c 1 1).
  - reflexivity.
  - apply F. lia.
Defined.

Lemma overlap_of_Some_iff (a b : Var) :
  (exists p, overlap_of a b = Some p) <->
  exists x, In x (cells a) /\ In x (cells b).
Proof.
  unfold overlap_of. split.
  - intros [p H].
    destruct (intersection (cells a) (cells b)) as [|x r] eqn:E; [discriminate|].
    exists x. apply intersection_In. rewrite E. now left.
  - intros [x Hx]. apply intersection_In in Hx.
    destruct (intersection (cells a) (cells b)) as [|y r]; [contradiction|].
    eexists. reflexivity.
Qed.

(** X6. The neighbors of [x] are exactly the other variables of the
    crossword that share a cell with [x] (none if [x] is not a variable of
    the crossword); being a neighbor is symmetric and no variable is its own
    neighbor. *)
Theorem neighbors_share_cell (contents vocabulary : list string) (c : Crossword)
        (x y : Var) :
  Crossword_init contents vocabulary = Ok c ->
  (In y (neighbors c x) <->
   In x (variables c) /\ In y (variables c) /\ x <> y /\
   exists cl, In cl (cells x) /\ In cl (cells y)) /\
  (In y (neighbors c x) <-> In x (neighbors c y)) /\
  ~ In x (neighbors c x).
Proof.
  intros H. apply Crossword_init_built in H.
  assert (Hchar : forall x y,
    In y (neighbors c x) <->
    In x (variables c) /\ In y (variables c) /\ x <> y /\
    exists cl, In cl (cells x) /\ In cl (cells y)).
  { clear x y. intros x y. rewrite neighbors_In, not_None_Some. split.
    - intros [Hy [Hn [p Ho]]].
      apply (overlaps_get_built c y x H) in Ho.
      destruct Ho as [_ [Hx [_ Ho]]].
      split; [exact Hx|]. split; [exact Hy|]. split; [congruence|].
      destruct (proj1 (overlap_of_Some_iff y x)) as [cl [H1 H2]];
        [exists p; now symmetry|].
      exists cl. auto.
    - intros [Hx [Hy [Hn [cl [H1 H2]]]]].
      split; [exact Hy|]. split; [congruence|].
      destruct (proj2 (overlap_of_Some_iff y x)) as [p Hp]; [exists cl; auto|].
      exists p. rewrite (proj1 (overlaps_get_built c y x H)) by auto.
      now rewrite Hp. }
  split; [apply Hchar|]. split.
  - rewrite !Hchar. split; intros [H1 [H2 [H3 [cl [H4 H5]]]]];
      (split; [assumption|]; split; [assumption|]; split; [congruence|]);
      exists cl; auto.
  - intros Hin. apply neighbors_In in Hin. now destruct Hin as [_ [Hn _]].
Qed.

Lemma neighbors_share_cell_witness :
  let c := the_crossword grid_bottom words_bottom in
  let x := mkVar 1 0 ACROSS 3 in
  let y := mkVar 0 2 DOWN 2 in
  (In y (neighbors c x) <->
   In x (variables c) /\ In y (variables c) /\ x <> y /\
   exists cl, In cl (cells x) /\ In cl (cells y)) /\
  (In y (neighbors c x) <-> In x (neighbors c y)) /\
  ~ In x (neighbors c x).
Proof.
  intros c x y. apply (neighbors_share_cell grid_bottom words_bottom c x y).
  reflexivity.
Defined.

(** X7. The overlap table has an entry exactly for the ordered pairs of
    distinct variables of the crossword; an entry that is not [None] joins an
    ACROSS and a DOWN variable, its indices lie inside the two variables, the
    cell of the first at its index is the cell of the second at its index,
    and that cell is the only one they share; a [None] entry means that the
    two variables share no cell. *)
Theorem overlaps_table (contents vocabulary : list string) (c : Crossword)
        (a b : Var) :
  Crossword_init contents vocabulary = Ok c ->
  (overlaps_get c (a, b) <> None <->
   In a (variables c) /\ In b (variables c) /\ a <> b) /\
  (forall i j,
      overlaps_get c (a, b) = Some (Some (i, j)) ->
      var_direction a <> var_direction b /\
      i < var_length a /\ j < var_length b /\
      exists x,
        nth_error (cells a) i = Some x /\ nth_error (cells b) j = Some x /\
        forall x', In x' (cells a) -> In x' (cells b) -> x' = x) /\
  (overlaps_get c (a, b) = Some None ->
   forall x, In x (cells a) -> ~ In x (cells b)).
Proof.
  intros H. apply Crossword_init_built in H. split; [|split].
  - split.
    + intros Hn. destruct (overlaps_get c (a, b)) as [o|] eqn:E; [|contradiction].
      apply (overlaps_get_built c a b H) in E. tauto.
    + intros [Ha [Hb Hn]]. rewrite (proj1 (overlaps_get_built c a b H)) by auto.
      discriminate.
  - intros i j Ho.
    destruct (proj2 (overlaps_get_built c a b H) _ Ho) as [Ha [Hb [Hn _]]].
    destruct (proj2 (overlaps_sym c a b H) _ _ Ho) as [_ [Hi [Hj [x0 [Hx1 Hx2]]]]].
    split; [|split; [exact Hi|split; [exact Hj|]]].
    + intros Hd. apply Hn.
      apply (same_direction_disjoint c a b x0 H Ha Hb Hd);
        eapply nth_error_In; eauto.
    + exists x0. split; [exact Hx1|]. split; [exact Hx2|].
      intros x Hxa Hxb.
      apply (variables_meet_once c a b H Ha Hb Hn); try assumption;
        eapply nth_error_In; eauto.
  - intros Ho x Hxa Hxb.
    destruct (proj2 (overlaps_get_built c a b H) _ Ho) as [_ [_ [_ Hov]]].
    destruct (proj2 (overlap_of_Some_iff a b)) as [p Hp]; [exists x; auto|].
    congruence.
Qed.

Lemma overlaps_table_witness :
  let c := the_crossword grid_bottom words_bottom in
  let a := mkVar 1 0 ACROSS 3 in
  let b := mkVar 0 2 DOWN 2 in
  (overlaps_get c (a, b) <> None <->
   In a (variables c) /\ In b (variables c) /\ a <> b) /\
  (forall i j,
      overlaps_get c (a, b) = Some (Some (i, j)) ->
      var_direction a <> var_direction b /\
      i < var_length a /\ j < var_length b /\
      exists x,
        nth_error (cells a) i = Some x /\ nth_error (cells b) j = Some x /\
        forall x', In x' (cells a) -> In x' (cells b) -> x' = x) /\
  (overlaps_get c (a, b) = Some None ->
   forall x, In x (cells a) -> ~ In x (cells b)).
Proof.
  intros c a b. apply (overlaps_table grid_bottom words_bottom c a b). reflexivity.
Defined.

(** * More on the consistency engine *)

Lemma ensure_node_consistency_filter (d : domains) :
  ensure_node_consistency d
  = map (fun e => (fst e, filter (fun w => String.length w =? var_length (fst e)) (snd e))) d.
Proof.
  unfold ensure_node_consistency. apply map_ext. intros [v ws]. simpl. f_equal.
  rewrite node_filter_fold. apply filter_ext_in. intros w Hw.
  destruct (String.length w =? var_length v) eqn:E.
  - apply negb_true_iff. apply not_true_is_false. intros Hm.
    apply mem_In, filter_In in Hm. destruct Hm as [_ Hm]. rewrite E in Hm. discriminate.
  - apply negb_false_iff. apply mem_In, filter_In. split; [exact Hw|]. now rewrite E.
Qed.

Lemma lookup_ensure_node_consistency (d : domains) (v : Var) :
  lookup Var_eqb v (ensure_node_consistency d)
  = option_map (filter (fun w => String.length w =? var_length v)) (lookup Var_eqb v d).
Proof.
  rewrite ensure_node_consistency_filter.
  induction d as [|[k ws] r IH]; simpl; [reflexivity|].
  destruct (Var_eqb k v) eqn:E; [|exact IH].
  apply Var_eqb_eq in E. subst k. reflexivity.
Qed.

(** X8. Node consistency leaves the keys of the domain map as they are and
    turns each domain into exactly its words of the variable's length: the
    wrong lengths are removed and every word of the right length stays; a
    second run changes nothing. *)
Theorem node_consistency_exact (d : domains) :
  map fst (ensure_node_consistency d) = map fst d /\
  (forall v,
      lookup Var_eqb v (ensure_node_consistency d)
      = option_map (filter (fun w => String.length w =? var_length v))
                   (lookup Var_eqb v d)) /\
  ensure_node_consistency (ensure_node_consistency d) = ensure_node_consistency d.
Proof.
  split; [apply ensure_node_consistency_keys|].
  split; [apply lookup_ensure_node_consistency|].
  rewrite !ensure_node_consistency_filter, map_map. apply map_ext.
  intros [v ws]. simpl. f_equal. rewrite filter_filter. apply filter_ext.
  intros w. apply andb_diag.
Qed.

Lemma existsb_negb_false {A : Type} (f : A -> bool) (l : list A) :
  existsb (fun a => negb (f a)) l = false <-> forall a, In a l -> f a = true.
Proof.
  split.
  - intros H a Ha. destruct (f a) eqn:E; [reflexivity|].
    assert (existsb (fun a => negb (f a)) l = true).
    { apply existsb_exists. exists a. split; [exact Ha|]. now rewrite E. }
    congruence.
  - intros H. apply not_true_is_false. intros E. apply existsb_exists in E.
    destruct E as [a [Ha E]]. rewrite (H a Ha) in E. discriminate.
Qed.

(** X9. A revision of [(x, y)] that returns leaves in the domain of [x]
    exactly the words that agree with some word of the domain of [y] at the
    overlap, changes no other domain, and returns [True] iff it removed a
    word. *)
Theorem revise_domains_postcondition (contents vocabulary : list string)
        (c : Crossword) (d d' : domains) (x y : Var) (b : bool) :
  Crossword_init contents vocabulary = Ok c ->
  revise_domains c d x y = Ok (b, d') ->
  exists i j dx,
    overlaps_get c (x, y) = Some (Some (i, j)) /\
    lookup Var_eqb x d = Some dx /\
    lookup Var_eqb x d' = Some (filter (supported_in d y i j) dx) /\
    (forall v, v <> x -> lookup Var_eqb v d' = lookup Var_eqb v d) /\
    map fst d' = map fst d /\
    (b = true <-> exists w, In w dx /\ supported_in d y i j w = false) /\
    (b = false -> d' = d).
Proof.
  intros H E. apply Crossword_init_built in H.
  pose proof (revise_domains_distinct c d x y _ H E) as Hn.
  pose proof (revise_domains_size c d d' x y b E) as [_ Hf].
  apply revise_domains_exact in E; [|exact Hn].
  destruct E as [i [j [dx [H1 [H2 [H3 [H4 [H5 H6]]]]]]]].
  exists i, j, dx. repeat (split; [assumption|]). split; [|exact Hf].
  rewrite H6. rewrite existsb_exists. split.
  - intros [w [Hw Hs]]. exists w. split; [exact Hw|]. now apply negb_true_iff.
  - intros [w [Hw Hs]]. exists w. split; [exact Hw|]. now apply negb_true_iff.
Qed.

Lemma revise_domains_postcondition_witness :
  let c := the_crossword grid_corner words_corner in
  let d := start_domains c in
  let x := mkVar 0 0 ACROSS 2 in
  let y := mkVar 0 1 DOWN 2 in
  let d' := [(x, ["AB"; "XA"]); (y, ["AB"; "BC"; "BD"; "XA"])]%string in
  exists i j dx,
    overlaps_get c (x, y) = Some (Some (i, j)) /\
    lookup Var_eqb x d = Some dx /\
    lookup Var_eqb x d' = Some (filter (supported_in d y i j) dx) /\
    (forall v, v <> x -> lookup Var_eqb v d' = lookup Var_eqb v d) /\
    map fst d' = map fst d /\
    (true = true <-> exists w, In w dx /\ supported_in d y i j w = false) /\
    (true = false -> d' = d).
Proof.
  intros c d x y d'.
  apply (revise_domains_postcondition grid_corner words_corner c d d' x y true);
    reflexivity.
Defined.

(** X10. On a crossword, revising a pair that is not made of two distinct
    variables raises [KeyError] (the table has no such key), and revising two
    distinct variables that share no cell raises [TypeError] (their entry is
    [None]); in both cases before any domain is touched. *)
Theorem revise_domains_errors (contents vocabulary : list string) (c : Crossword)
        (d : domains) (x y : Var) :
  Crossword_init contents vocabulary = Ok c ->
  (~ In x (variables c) \/ ~ In y (variables c) \/ x = y ->
   revise_domains c d x y = Raise KeyError) /\
  (In x (variables c) -> In y (variables c) -> x <> y ->
   (forall cl, In cl (cells x) -> ~ In cl (cells y)) ->
   revise_domains c d x y = Raise TypeError).
Proof.
  intros H. apply Crossword_init_built in H. unfold revise_domains. split.
  - intros Hbad. destruct (overlaps_get c (x, y)) as [o|] eqn:E; [|reflexivity].
    apply (overlaps_get_built c x y H) in E. tauto.
  - intros Hx Hy Hn Hdis.
    rewrite (proj1 (overlaps_get_built c x y H)) by auto.
    destruct (overlap_of x y) as [p|] eqn:E; [|reflexivity].
    destruct (proj1 (overlap_of_Some_iff x y)) as [cl [H1 H2]]; [now exists p|].
    exfalso. exact (Hdis cl H1 H2).
Qed.

Lemma revise_domains_errors_witness :
  let c := the_crossword grid_bottom words_bottom in
  let d := start_domains c in
  let x := mkVar 0 0 DOWN 2 in
  let y := mkVar 0 2 DOWN 2 in
  revise_domains c d x x = Raise KeyError /\
  revise_domains c d x y = Raise TypeError.
Proof.
  intros c d x y.
  assert (Hc : Crossword_init grid_bottom words_bottom = Ok c) by reflexivity.
  split.
  - apply (revise_domains_errors grid_bottom words_bottom c d x x Hc). auto.
  - apply (revise_domains_errors grid_bottom words_bottom c d x y Hc).
    + simpl. tauto.
    + simpl. tauto.
    + discriminate.
    + intros cl [<-|[<-|[]]] [E|[E|[]]]; discriminate.
Defined.

(** * More on AC-3 *)

Lemma ac3_loop_noop (c : Crossword) (d : domains) (fuel : nat) :
  forall arcs,
    List.length arcs < fuel ->
    (forall x y, In (x, y) arcs -> revise_domains c d x y = Ok (false, d)) ->
    ac3_loop fuel c d arcs = Ok (true, d).
Proof.
  induction fuel as [|fuel IH]; intros arcs Hf Hall; [lia|].
  destruct arcs as [|[x y] rest]; [reflexivity|]. simpl.
  rewrite (Hall x y) by now left. simpl. apply IH; [simpl in Hf; lia|].
  intros p q Hpq. apply Hall. now right.
Qed.

Lemma revise_consistent_noop (c : Crossword) (d : domains) (x y : Var) :
  built c -> map fst d = variables c -> node_consistent d ->
  In y (neighbors c x) -> In x (variables c) ->
  arc_consistent c d x y ->
  revise_domains c d x y = Ok (false, d).
Proof.
  intros B K N Hnb Hx Hc.
  apply (neighbors_sym c x y B) in Hnb. apply neighbors_In in Hnb.
  destruct Hnb as [_ [Hn Ho]].
  destruct (revise_domains_safe c d x y B K N Ho) as [[b d1] E].
  pose proof (revise_domains_size c d d1 x y b E) as [_ Hf].
  pose proof E as E'. apply revise_domains_exact in E'; [|exact Hn].
  destruct E' as [i [j [dx [H1 [H2 [_ [_ [_ H6]]]]]]]].
  assert (Hb : b = false).
  { rewrite H6. apply existsb_negb_false. intros w Hw.
    apply supported_in_true. exact (Hc i j dx w H1 H2 Hw). }
  rewrite (Hf Hb), Hb in E. exact E.
Qed.

(** X11. Re-running AC-3 is a no-op: on node-consistent domains in which
    every arc is already consistent, and so on the domains a successful run
    has left, [apply_ac3] returns [True] and changes nothing. *)
Theorem apply_ac3_idempotent (contents vocabulary : list string) (c : Crossword)
        (d d' : domains) :
  Crossword_init contents vocabulary = Ok c ->
  map fst d = variables c -> node_consistent d ->
  apply_ac3 c d None = Ok (true, d') ->
  apply_ac3 c d' None = Ok (true, d').
Proof.
  intros H K N Hac. apply Crossword_init_built in H.
  pose proof (apply_ac3_shrinks _ _ _ _ _ Hac) as Hs.
  assert (K' : map fst d' = variables c) by (rewrite (proj1 Hs); exact K).
  assert (N' : node_consistent d').
  { eapply shrinks_node_consistent; eauto. rewrite K'. now apply variables_NoDup. }
  rewrite apply_ac3_unfold in Hac.
  pose proof (ac3_loop_consistent c (variables c) _ H _ _ _
                (default_worklist_covers c d K) Hac) as Hcons.
  rewrite apply_ac3_unfold. apply ac3_loop_noop; [unfold ac3_fuel; lia|].
  intros x y Hxy. unfold initial_worklist in Hxy. apply in_rev in Hxy.
  apply all_arcs_In in Hxy. destruct Hxy as [Hx Hy]. rewrite K' in Hx.
  apply revise_consistent_noop; auto.
Qed.

Lemma apply_ac3_idempotent_witness :
  let c := the_crossword grid_corner words_corner in
  let d' := [(mkVar 0 0 ACROSS 2, ["AB"; "XA"]);
             (mkVar 0 1 DOWN 2, ["AB"; "BC"; "BD"])]%string in
  apply_ac3 c (start_domains c) None = Ok (true, d') /\
  apply_ac3 c d' None = Ok (true, d').
Proof.
  intros c d'. split; [reflexivity|].
  apply (apply_ac3_idempotent grid_corner words_corner c (start_domains c) d').
  - reflexivity.
  - reflexivity.
  - apply ensure_node_consistency_ok.
  - reflexivity.
Defined.

Lemma full_solution_lookup (c : Crossword) (d : domains) (s : assignment) (v : Var) :
  full_solution c d s -> In v (variables c) ->
  exists w ws, In (v, w) s /\ lookup Var_eqb v d = Some ws /\ In w ws.
Proof.
  intros [_ [Hall [_ Hdom]]] Hv. destruct (Hall v Hv) as [w Hw].
  destruct (Hdom v w Hw) as [ws [H1 H2]]. exists w, ws. auto.
Qed.

Lemma revise_keeps_solution (c : Crossword) (d d1 : domains) (s : assignment)
      (x y : Var) (b : bool) :
  built c -> full_solution c d s ->
  revise_domains c d x y = Ok (b, d1) ->
  full_solution c d1 s.
Proof.
  intros B Hs E.
  pose proof (revise_domains_distinct c d x y _ B E) as Hn.
  apply revise_domains_exact in E; [|exact Hn].
  destruct E as [i [j [dx [Ho [Hdx [Hdx1 [Hother _]]]]]]].
  destruct (proj2 (overlaps_get_built c x y B) _ Ho) as [Hx [Hy _]].
  destruct Hs as [ND [Hall [Hcons Hdom]]].
  split; [exact ND|]. split; [exact Hall|]. split; [exact Hcons|].
  intros v w Hin. destruct (Hdom v w Hin) as [ws [Hl Hw]].
  destruct (Var_eq_dec v x) as [->|Hv].
  - rewrite Hdx in Hl. injection Hl as <-.
    exists (filter (supported_in d y i j) dx). split; [exact Hdx1|].
    apply filter_In. split; [exact Hw|].
    destruct (Hall y Hy) as [wy Hwy]. destruct (Hdom y wy Hwy) as [dy [Hly Hwy']].
    apply supported_in_true. exists dy, wy. split; [exact Hly|]. split; [exact Hwy'|].
    destruct Hcons as [_ [_ Hov]].
    destruct (Hov x y w wy i j Hin Hwy Ho) as [ch [E1 E2]].
    unfold agree. rewrite E1, E2. apply Ascii.eqb_refl.
  - exists ws. split; [|exact Hw]. now rewrite (Hother v Hv).
Qed.

Lemma ac3_loop_keeps_solution (c : Crossword) (s : assignment) (fuel : nat) :
  built c ->
  forall d arcs b d',
    full_solution c d s ->
    ac3_loop fuel c d arcs = Ok (b, d') ->
    b = true /\ full_solution c d' s.
Proof.
  intros B. induction fuel as [|fuel IH]; intros d arcs b d' Hs H; [discriminate|].
  destruct arcs as [|[x y] rest]; simpl in H.
  - injection H as <- <-. auto.
  - destruct (revise_domains c d x y) as [[rv d1]| |] eqn:E; simpl in H; try discriminate.
    pose proof (revise_keeps_solution c d d1 s x y rv B Hs E) as Hs1.
    destruct rv; [|now apply (IH d1 rest)].
    destruct (dom_get d1 x) as [dx| |] eqn:Ed; simpl in H; try discriminate.
    destruct dx as [|w0 dx]; [|now apply (IH d1 (enqueue c x y rest))].
    exfalso. apply dom_get_Ok in Ed.
    assert (Hx : In x (variables c)).
    { unfold revise_domains in E.
      destruct (overlaps_get c (x, y)) as [o|] eqn:Ho; [|discriminate].
      apply (overlaps_get_built c x y B) in Ho. tauto. }
    destruct (full_solution_lookup c d1 s x Hs1 Hx) as [w [ws [_ [Hl Hw]]]].
    rewrite Ed in Hl. injection Hl as <-. contradiction.
Qed.

(** X12. AC-3 never loses a solution: if some complete assignment takes
    each variable's word from its domain and meets all constraints, then a
    run of [apply_ac3] that returns (from any worklist) returns [True] and
    still has every word of that assignment in its domain. *)
Theorem ac3_keeps_solutions (contents vocabulary : list string) (c : Crossword)
        (d : domains) (arcs : option (list (Var * Var))) (s : assignment)
        (b : bool) (d' : domains) :
  Crossword_init contents vocabulary = Ok c ->
  full_solution c d s ->
  apply_ac3 c d arcs = Ok (b, d') ->
  b = true /\ full_solution c d' s.
Proof.
  intros H Hs Hac. apply Crossword_init_built in H.
  rewrite apply_ac3_unfold in Hac.
  exact (ac3_loop_keeps_solution c s _ H _ _ _ _ Hs Hac).
Qed.

(** * More on the checks of the search *)

Lemma check_neighbors_complete (c : Crossword) (a : assignment) (var : Var)
      (word : string) (ns : list Var) :
  built c -> consistent_assignment c a -> In (var, word) a ->
  (forall n, In n ns -> In n (neighbors c var)) ->
  check_neighbors c a var word ns = Ok true.
Proof.
  intros B [_ [_ Hov]] Hin. induction ns as [|n ns' IH]; simpl; intros Hns;
    [reflexivity|].
  assert (IH' : check_neighbors c a var word ns' = Ok true)
    by (apply IH; intros m Hm; apply Hns; now right).
  destruct (lookup Var_eqb n a) as [nw|] eqn:El; [|exact IH'].
  apply (lookup_In Var_eqb Var_eqb_eq) in El.
  assert (Hnb : In var (neighbors c n))
    by (apply (neighbors_sym c var n B); apply Hns; now left).
  apply neighbors_In in Hnb. destruct Hnb as [_ [_ Ho]].
  apply not_None_Some in Ho. destruct Ho as [[i j] Ho]. rewrite Ho.
  destruct (Hov var n word nw i j Hin El Ho) as [ch [E1 E2]].
  unfold str_index. rewrite E1, E2. simpl. now rewrite Ascii.eqb_refl.
Qed.

Lemma is_consistent_loop_complete (c : Crossword) (a : assignment) :
  built c -> consistent_assignment c a ->
  forall entries used,
    incl entries a -> NoDup (map fst entries) ->
    (forall u, In u used -> exists v, In (v, u) a /\ ~ In v (map fst entries)) ->
    is_consistent_loop c a entries used = Ok true.
Proof.
  intros B Hc. induction entries as [|[var word] rest IH]; simpl;
    intros used Hincl ND Hused; [reflexivity|].
  assert (Hin : In (var, word) a) by (apply Hincl; now left).
  inversion ND as [|? ? Hnot ND']; subst.
  destruct (mem word used) eqn:Em.
  { exfalso. apply mem_In in Em. destruct (Hused word Em) as [v [Hv Hnv]].
    destruct Hc as [Huniq _]. rewrite (Huniq v var word Hv Hin) in Hnv.
    apply Hnv. now left. }
  destruct Hc as [Huniq [Hlen Hov]].
  rewrite (proj2 (Nat.eqb_eq _ _) (Hlen var word Hin)). simpl.
  rewrite (check_neighbors_complete c a var word (neighbors c var) B
             (conj Huniq (conj Hlen Hov)) Hin) by auto.
  simpl. apply IH.
  - intros e He. apply Hincl. now right.
  - exact ND'.
  - intros u [<-|Hu].
    + exists var. auto.
    + destruct (Hused u Hu) as [v [Hv Hnv]]. exists v. split; [exact Hv|].
      intros Hr. apply Hnv. now right.
Qed.

Lemma is_consistent_complete (c : Crossword) (a : assignment) :
  built c -> NoDup (map fst a) -> consistent_assignment c a ->
  is_consistent c a = Ok true.
Proof.
  intros B ND Hc. unfold is_consistent.
  apply is_consistent_loop_complete; auto.
  - apply incl_refl.
  - intros u [].
Qed.

(** X13. On a dictionary of a crossword [is_consistent] returns [True]
    exactly when no word is used for two variables, every word has the
    length of its variable, and any two assigned variables that overlap
    carry the same letter in the shared cell. *)
Theorem is_consistent_iff (contents vocabulary : list string) (c : Crossword)
        (a : assignment) :
  Crossword_init contents vocabulary = Ok c ->
  NoDup (map fst a) ->
  (is_consistent c a = Ok true <-> consistent_assignment c a).
Proof.
  intros H ND. apply Crossword_init_built in H. split.
  - now apply is_consistent_true.
  - now apply is_consistent_complete.
Qed.

Lemma is_consistent_iff_witness :
  let c := the_crossword grid_bottom words_bottom in
  let a := [(mkVar 1 0 ACROSS 3, "CAT"); (mkVar 0 0 DOWN 2, "OC")]%string in
  is_consistent c a = Ok true /\
  (is_consistent c a = Ok true <-> consistent_assignment c a).
Proof.
  intros c a. split; [reflexivity|].
  apply (is_consistent_iff grid_bottom words_bottom c a).
  - reflexivity.
  - repeat constructor; simpl; intuition discriminate.
Defined.

(** X14. For a dictionary whose keys are variables of the crossword,
    [is_assignment_complete] returns [True] exactly when every variable has
    a word. *)
Theorem assignment_complete_iff (contents vocabulary : list string) (c : Crossword)
        (a : assignment) :
  Crossword_init contents vocabulary = Ok c ->
  NoDup (map fst a) -> incl (map fst a) (variables c) ->
  (is_assignment_complete c a = true <->
   forall v, In v (variables c) -> exists w, In (v, w) a).
Proof.
  intros H ND Hincl. apply Crossword_init_built in H.
  pose proof (variables_NoDup c H) as NDv.
  unfold is_assignment_complete. rewrite Nat.eqb_eq. split.
  - intros E v Hv.
    assert (Hk : In v (map fst a)).
    { refine (NoDup_length_incl ND _ Hincl v Hv). rewrite length_map. lia. }
    apply in_map_iff in Hk. destruct Hk as [[v' w] [Ev Hin]]. simpl in Ev. subst v'.
    now exists w.
  - intros Hall.
    assert (Hrev : incl (variables c) (map fst a)).
    { intros v Hv. destruct (Hall v Hv) as [w Hw].
      apply (in_map fst) in Hw. exact Hw. }
    pose proof (NoDup_incl_length NDv Hrev) as L1.
    pose proof (NoDup_incl_length ND Hincl) as L2.
    rewrite length_map in L1, L2. lia.
Qed.

Lemma assignment_complete_iff_witness :
  let c := the_crossword grid_bottom words_bottom in
  let a := [(mkVar 1 0 ACROSS 3, "CAT"); (mkVar 0 0 DOWN 2, "OC")]%string in
  is_assignment_complete c a = false /\
  (is_assignment_complete c a = true <->
   forall v, In v (variables c) -> exists w, In (v, w) a).
Proof.
  intros c a. split; [reflexivity|].
  apply (assignment_complete_iff grid_bottom words_bottom c a).
  - reflexivity.
  - repeat constructor; simpl; intuition discriminate.
  - intros v [<-|[<-|[]]]; simpl; tauto.
Defined.

(** * More on the ordering heuristics *)

Lemma select_loop_ties (c : Crossword) (d : domains) (vs : list Var) :
  forall best r,
    select_loop c d vs best = Ok (Some r) ->
    ((forall u v, (In u vs \/ best = Some u) -> (In v vs \/ best = Some v) ->
                  degree c u = degree c v) ->
     forall v, In v vs \/ best = Some v -> domain_size d r <= domain_size d v) /\
    ((forall u v, (In u vs \/ best = Some u) -> (In v vs \/ best = Some v) ->
                  domain_size d u = domain_size d v) ->
     forall v, In v vs \/ best = Some v -> degree c v <= degree c r).
Proof.
  induction vs as [|var vs' IH]; simpl; intros best r H.
  - injection H as ->. split; intros _ v [[]|Hv]; injection Hv as ->; lia.
  - destruct best as [b|].
    + destruct (dom_get d var) as [dv| |] eqn:Ev; simpl in H; try discriminate.
      destruct (dom_get d b) as [db| |] eqn:Eb; simpl in H; try discriminate.
      apply dom_get_Ok in Ev, Eb.
      assert (Sv : domain_size d var = List.length dv)
        by (unfold domain_size; now rewrite Ev).
      assert (Sb : domain_size d b = List.length db)
        by (unfold domain_size; now rewrite Eb).
      fold (degree c b) in H. fold (degree c var) in H.
      destruct ((List.length dv <? List.length db) || (degree c b <? degree c var))
        eqn:Ec; apply IH in H; destruct H as [H1 H2]; split.
      * intros Hdeg v Hv.
        assert (Hr : forall v, In v vs' \/ Some var = Some v ->
                               domain_size d r <= domain_size d v).
        { apply H1. intros u w Hu Hw. apply Hdeg.
          - destruct Hu as [Hu|Hu]; [left; now right | injection Hu as ->; left; now left].
          - destruct Hw as [Hw|Hw]; [left; now right | injection Hw as ->; left; now left]. }
        destruct Hv as [[<-|Hv]|Hv]; [apply Hr; now right | apply Hr; now left |].
        injection Hv as <-.
        assert (degree c b = degree c var)
          by (apply Hdeg; [now right | left; now left]).
        apply orb_true_iff in Ec. destruct Ec as [Ec|Ec].
        -- apply Nat.ltb_lt in Ec. specialize (Hr var (or_intror eq_refl)). lia.
        -- apply Nat.ltb_lt in Ec. lia.
      * intros Hsz v Hv.
        assert (Hr : forall v, In v vs' \/ Some var = Some v ->
                               degree c v <= degree c r).
        { apply H2. intros u w Hu Hw. apply Hsz.
          - destruct Hu as [Hu|Hu]; [left; now right | injection Hu as ->; left; now left].
          - destruct Hw as [Hw|Hw]; [left; now right | injection Hw as ->; left; now left]. }
        destruct Hv as [[<-|Hv]|Hv]; [apply Hr; now right | apply Hr; now left |].
        injection Hv as <-.
        assert (domain_size d b = domain_size d var)
          by (apply Hsz; [now right | left; now left]).
        apply orb_true_iff in Ec. destruct Ec as [Ec|Ec].
        -- apply Nat.ltb_lt in Ec. lia.
        -- apply Nat.ltb_lt in Ec. specialize (Hr var (or_intror eq_refl)). lia.
      * intros Hdeg v Hv.
        assert (Hr : forall v, In v vs' \/ Some b = Some v ->
                               domain_size d r <= domain_size d v).
        { apply H1. intros u w Hu Hw. apply Hdeg.
          - destruct Hu as [Hu|Hu]; [left; now right | now right].
          - destruct Hw as [Hw|Hw]; [left; now right | now right]. }
        destruct Hv as [[<-|Hv]|Hv]; [| apply Hr; now left | apply Hr; now right].
        apply orb_false_iff in Ec. destruct Ec as [Ec _].
        apply Nat.ltb_ge in Ec. specialize (Hr b (or_intror eq_refl)). lia.
      * intros Hsz v Hv.
        assert (Hr : forall v, In v vs' \/ Some b = Some v ->
                               degree c v <= degree c r).
        { apply H2. intros u w Hu Hw. apply Hsz.
          - destruct Hu as [Hu|Hu]; [left; now right | now right].
          - destruct Hw as [Hw|Hw]; [left; now right | now right]. }
        destruct Hv as [[<-|Hv]|Hv]; [| apply Hr; now left | apply Hr; now right].
        apply orb_false_iff in Ec. destruct Ec as [_ Ec].
        apply Nat.ltb_ge in Ec. specialize (Hr b (or_intror eq_refl)). lia.
    + apply IH in H. destruct H as [H1 H2]. split.
      * intros Hdeg v Hv. apply H1.
        -- intros u w Hu Hw. apply Hdeg.
           ++ destruct Hu as [Hu|Hu]; [left; now right | injection Hu as ->; left; now left].
           ++ destruct Hw as [Hw|Hw]; [left; now right | injection Hw as ->; left; now left].
        -- destruct Hv as [[<-|Hv]|Hv]; [now right | now left | discriminate].
      * intros Hsz v Hv. apply H2.
        -- intros u w Hu Hw. apply Hsz.
           ++ destruct Hu as [Hu|Hu]; [left; now right | injection Hu as ->; left; now left].
           ++ destruct Hw as [Hw|Hw]; [left; now right | injection Hw as ->; left; now left].
        -- destruct Hv as [[<-|Hv]|Hv]; [now right | now left | discriminate].
Qed.

(** X15. When every variable has a domain, [select_variable] raises
    nothing; it returns [None] exactly when every variable of the crossword
    is assigned, and otherwise a variable of the crossword that the
    assignment does not hold. *)
Theorem select_variable_unassigned (c : Crossword) (d : domains) (a : assignment) :
  (forall v, In v (variables c) -> In v (map fst d)) ->
  (exists r, select_variable c d a = Ok r) /\
  (select_variable c d a = Ok None <->
   forall v, In v (variables c) -> lookup Var_eqb v a <> None) /\
  (forall v, select_variable c d a = Ok (Some v) ->
             In v (variables c) /\ lookup Var_eqb v a = None).
Proof.
  intros K.
  destruct (select_loop_safe c d (minus_assigned (variables c) a)) with (best := @None Var)
    as [r [Hr Hnone]].
  { intros v Hv. apply minus_assigned_In in Hv. apply K. tauto. }
  { discriminate. }
  fold (select_variable c d a) in Hr.
  split; [now exists r|]. split; [|apply select_variable_In].
  split.
  - intros E. rewrite Hr in E. injection E as ->.
    destruct (Hnone eq_refl) as [Hempty _]. intros v Hv Hl.
    assert (Hin : In v (minus_assigned (variables c) a))
      by (apply minus_assigned_In; auto).
    rewrite Hempty in Hin. contradiction.
  - intros Hall. destruct r as [v|]; [|exact Hr].
    apply select_variable_In in Hr. destruct Hr as [Hv Hl].
    exfalso. exact (Hall v Hv Hl).
Qed.

Lemma select_variable_unassigned_witness :
  let c := the_crossword grid_bottom words_bottom in
  let d := start_domains c in
  let a := [(mkVar 1 0 ACROSS 3, "CAT"%string)] in
  (exists r, select_variable c d a = Ok r) /\
  (select_variable c d a = Ok None <->
   forall v, In v (variables c) -> lookup Var_eqb v a <> None) /\
  (forall v, select_variable c d a = Ok (Some v) ->
             In v (variables c) /\ lookup Var_eqb v a = None).
Proof.
  intros c d a. apply (select_variable_unassigned c d a).
  intros v Hv. exact Hv.
Defined.

(** X16. What [select_variable] guarantees about its heuristics: among
    unassigned variables that all have the same number of neighbors it
    returns one with the fewest remaining words, and among unassigned
    variables that all have the same number of remaining words it returns
    one with the most neighbors. *)
Theorem select_variable_on_ties (c : Crossword) (d : domains) (a : assignment)
        (r : Var) :
  select_variable c d a = Ok (Some r) ->
  ((forall u v, In u (minus_assigned (variables c) a) ->
                In v (minus_assigned (variables c) a) ->
                degree c u = degree c v) ->
   forall v, In v (minus_assigned (variables c) a) ->
             domain_size d r <= domain_size d v) /\
  ((forall u v, In u (minus_assigned (variables c) a) ->
                In v (minus_assigned (variables c) a) ->
                domain_size d u = domain_size d v) ->
   forall v, In v (minus_assigned (variables c) a) ->
             degree c v <= degree c r).
Proof.
  unfold select_variable. intros H. apply select_loop_ties in H.
  destruct H as [H1 H2]. split.
  - intros Hdeg v Hv. apply H1; [|now left].
    intros u w [Hu|Hu] [Hw|Hw]; try discriminate. now apply Hdeg.
  - intros Hsz v Hv. apply H2; [|now left].
    intros u w [Hu|Hu] [Hw|Hw]; try discriminate. now apply Hsz.
Qed.

Lemma select_variable_on_ties_witness :
  let c := the_crossword grid_bottom words_bottom in
  let d := start_domains c in
  let a := [(mkVar 1 0 ACROSS 3, "CAT"%string)] in
  let r := mkVar 0 0 DOWN 2 in
  ((forall u v, In u (minus_assigned (variables c) a) ->
                In v (minus_assigned (variables c) a) ->
                degree c u = degree c v) ->
   forall v, In v (minus_assigned (variables c) a) ->
             domain_size d r <= domain_size d v) /\
  ((forall u v, In u (minus_assigned (variables c) a) ->
                In v (minus_assigned (variables c) a) ->
                domain_size d u = domain_size d v) ->
   forall v, In v (minus_assigned (variables c) a) ->
             degree c v <= degree c r).
Proof.
  intros c d a r. apply (select_variable_on_ties c d a r). reflexivity.
Defined.

Lemma count_value_spec (d : domains) (value : string) (ns : list Var) :
  forall n k,
    count_value d value ns n = Ok k ->
    k = n + List.length
              (filter (fun neighbor =>
                         match lookup Var_eqb neighbor d with
                         | Some dn => mem value dn
                         | None => false
                         end) ns).
Proof.
  induction ns as [|nb ns' IH]; simpl; intros n k H.
  - injection H as <-. lia.
  - unfold dom_get in H. destruct (lookup Var_eqb nb d) as [dn|]; simpl in H;
      [|discriminate].
    apply IH in H. destruct (mem value dn); simpl; lia.
Qed.

Lemma count_values_spec (c : Crossword) (d : domains) (var : Var) (a : assignment)
      (vals : list string) :
  forall n,
    count_values c d var a vals = Ok n ->
    n = map (fun value => (value, membership_count c d var a value)) vals.
Proof.
  induction vals as [|value vals' IH]; simpl; intros n H.
  - now injection H as <-.
  - destruct (count_value d value (minus_assigned (neighbors c var) a) 0)
      as [k| |] eqn:Ek; simpl in H; try discriminate.
    destruct (count_values c d var a vals') as [r| |]; simpl in H; try discriminate.
    injection H as <-. apply count_value_spec in Ek. simpl in Ek. subst k.
    now rewrite (IH r eq_refl).
Qed.

Lemma insert_by_count_perm (e : string * nat) (l : list (string * nat)) :
  Permutation (insert_by_count e l) (e :: l).
Proof.
  induction l as [|e' r IH]; simpl; [reflexivity|].
  destruct (snd e' <? snd e); [|reflexivity].
  rewrite IH. apply perm_swap.
Qed.

Lemma insert_by_count_sorted (e : string * nat) (l : list (string * nat)) :
  StronglySorted (fun p q => snd p <= snd q) l ->
  StronglySorted (fun p q => snd p <= snd q) (insert_by_count e l).
Proof.
  induction l as [|e' r IH]; simpl; intros Hs.
  - constructor; constructor.
  - inversion Hs as [|? ? Hr Hall]; subst.
    destruct (snd e' <? snd e) eqn:E.
    + apply Nat.ltb_lt in E. constructor; [now apply IH|].
      eapply Permutation_Forall.
      * symmetry. apply insert_by_count_perm.
      * constructor; [lia | exact Hall].
    + apply Nat.ltb_ge in E. constructor; [exact Hs|].
      constructor; [exact E|].
      rewrite Forall_forall in *. intros p Hp. specialize (Hall p Hp). lia.
Qed.

Lemma sort_by_count_spec (n : list (string * nat)) :
  Permutation (fold_right insert_by_count [] n) n /\
  StronglySorted (fun p q => snd p <= snd q) (fold_right insert_by_count [] n).
Proof.
  induction n as [|e r [IHp IHs]]; simpl.
  - split; constructor.
  - split.
    + rewrite insert_by_count_perm. now constructor.
    + now apply insert_by_count_sorted.
Qed.

Lemma sorted_map_fst (f : string -> nat) (l : list (string * nat)) :
  Forall (fun p => snd p = f (fst p)) l ->
  StronglySorted (fun p q => snd p <= snd q) l ->
  StronglySorted (fun v w => f v <= f w) (map fst l).
Proof.
  induction l as [|p r IH]; simpl; intros Hf Hs; [constructor|].
  inversion Hf as [|? ? Hp Hfr]; subst. inversion Hs as [|? ? Hr Hall]; subst.
  constructor; [now apply IH|].
  rewrite Forall_forall in *. intros w Hw. apply in_map_iff in Hw.
  destruct Hw as [q [<- Hq]]. rewrite <- Hp, <- (Hfr q Hq). now apply Hall.
Qed.

(** X17. [order_values] raises [KeyError] for a variable without a domain;
    when it returns, the list holds the words of the variable's domain, each
    as often as the domain does, in ascending order of the number of
    neighbors outside the assignment whose domain contains the word. *)
Theorem order_values_sorted (c : Crossword) (d : domains) (var : Var)
        (a : assignment) :
  (lookup Var_eqb var d = None -> order_values c d var a = Raise KeyError) /\
  (forall l,
      order_values c d var a = Ok l ->
      exists vals,
        lookup Var_eqb var d = Some vals /\
        Permutation vals l /\
        StronglySorted
          (fun v w => membership_count c d var a v <= membership_count c d var a w) l).
Proof.
  unfold order_values, dom_get. split.
  - intros ->. reflexivity.
  - intros l H. destruct (lookup Var_eqb var d) as [vals|]; simpl in H; [|discriminate].
    destruct (count_values c d var a vals) as [n| |] eqn:En; simpl in H; try discriminate.
    injection H as <-. apply count_values_spec in En.
    destruct (sort_by_count_spec n) as [Hp Hs].
    exists vals. split; [reflexivity|]. unfold sorted_by_count. split.
    + assert (E : vals = map fst n).
      { rewrite En, map_map. simpl. symmetry. apply map_id. }
      rewrite E at 1. apply Permutation_map. now symmetry.
    + apply sorted_map_fst; [|exact Hs].
      eapply Permutation_Forall; [symmetry; exact Hp|].
      rewrite En. apply Forall_forall. intros p Hp'. apply in_map_iff in Hp'.
      destruct Hp' as [v [<- _]]. reflexivity.
Qed.

(** * Completeness of the search *)

Lemma consistent_assignment_incl (c : Crossword) (a s : assignment) :
  incl a s -> consistent_assignment c s -> consistent_assignment c a.
Proof.
  intros Hincl [H1 [H2 H3]]. split; [|split].
  - intros v1 v2 w Ha Hb. apply (H1 v1 v2 w); now apply Hincl.
  - intros v w Ha. apply H2. now apply Hincl.
  - intros x y wx wy i j Hx Hy. apply H3; now apply Hincl.
Qed.

Lemma try_values_complete (c : Crossword) (d : domains)
      (recurse : assignment -> res (option assignment * trail))
      (a : assignment) (var : Var) (w : string) :
  built c -> node_consistent d ->
  search_state c d a -> lookup Var_eqb var a = None -> In var (variables c) ->
  (forall value, search_state c d (a ++ [(var, value)]) ->
                 exists r, recurse (a ++ [(var, value)]) = Ok r) ->
  is_consistent c (a ++ [(var, w)]) = Ok true ->
  (exists s' t, recurse (a ++ [(var, w)]) = Ok (Some s', t)) ->
  forall ws vals t0,
    lookup Var_eqb var d = Some ws -> incl vals ws -> In w vals ->
    exists s' t, try_values c recurse a var vals t0 = Ok (Some s', t).
Proof.
  intros B N Ha Hl Hv Hsafe Hcw [sw [tw Hrw]] ws.
  induction vals as [|value vals' IH]; simpl; intros t0 Hd Hincl Hw; [contradiction|].
  rewrite (assign_fresh Var_eqb _ _ value Hl).
  assert (Ha' : search_state c d (a ++ [(var, value)])).
  { eapply extend_search_state; eauto. apply Hincl. now left. }
  assert (Hincl' : incl vals' ws) by (intros u Hu; apply Hincl; now right).
  destruct (is_consistent_safe c (a ++ [(var, value)]) B) as [ok Hok].
  { now apply (search_state_lengths c d). }
  rewrite Hok. simpl.
  destruct (string_dec value w) as [->|Hne].
  - rewrite Hcw in Hok. injection Hok as <-. rewrite Hrw. simpl.
    eexists. eexists. reflexivity.
  - assert (Hw' : In w vals') by (destruct Hw as [Hw|Hw]; [contradiction | exact Hw]).
    destruct ok; [|now apply IH].
    destruct (Hsafe value Ha') as [[result t'] Hr]. rewrite Hr. simpl.
    destruct result; [eexists; eexists; reflexivity | now apply IH].
Qed.

Lemma backtrack_complete (c : Crossword) (d : domains) (s : assignment) (fuel : nat) :
  built c -> map fst d = variables c -> node_consistent d ->
  full_solution c d s ->
  forall a,
    search_state c d a -> incl a s ->
    List.length (minus_assigned (variables c) a) < fuel ->
    exists s' t, backtrack fuel c d a = Ok (Some s', t).
Proof.
  intros B K N Hs. induction fuel as [|fuel IH]; intros a Ha Hincl Hf; [lia|].
  simpl. destruct (is_assignment_complete c a) eqn:Ecomp;
    [eexists; eexists; reflexivity|].
  pose proof (incomplete_unassigned c d a (variables_NoDup c B) Ha Ecomp) as Hne.
  destruct (select_loop_safe c d (minus_assigned (variables c) a)) with (best := @None Var)
    as [best [Hsel Hnone]].
  { intros v Hin. apply minus_assigned_In in Hin. rewrite K. tauto. }
  { discriminate. }
  unfold select_variable. rewrite Hsel. simpl.
  destruct best as [var|]; [|destruct (Hnone eq_refl); contradiction].
  apply select_variable_In in Hsel. destruct Hsel as [Hv Hl].
  destruct (full_solution_lookup c d s var Hs Hv) as [w [ws [Hin [Hd Hw]]]].
  apply dom_get_Ok in Hd. rewrite Hd. simpl. apply dom_get_Ok in Hd.
  assert (Hincl' : incl (a ++ [(var, w)]) s).
  { intros e He. apply in_app_iff in He. destruct He as [He|[<-|[]]]; auto. }
  assert (Ha' : search_state c d (a ++ [(var, w)]))
    by (eapply extend_search_state; eauto).
  assert (Hlt : forall value,
             List.length (minus_assigned (variables c) (a ++ [(var, value)])) < fuel).
  { intros value. pose proof (extend_unassigned (variables c) a var value Hv Hl). lia. }
  refine (try_values_complete c d (backtrack fuel c d) a var w B N Ha Hl Hv _ _ _
            ws ws [] Hd (incl_refl _) Hw).
  - intros value Hst. apply (backtrack_safe c d fuel B K N); [exact Hst | apply Hlt].
  - apply is_consistent_complete; [exact B | apply Ha' |].
    apply (consistent_assignment_incl c _ s Hincl'). apply Hs.
  - apply IH; [exact Ha' | exact Hincl' | apply Hlt].
Qed.

Lemma solved_full_solution (c : Crossword) (d : domains) (s : assignment) :
  built c -> solved c d s -> full_solution c d s.
Proof.
  intros B Hsol. pose proof Hsol as [Hst [Hcomp Hcons]].
  pose proof (complete_covers c d s Hst Hcomp) as Hcov.
  destruct Hst as [ND [Hincl Hdom]].
  split; [exact ND|]. split; [|split; [|exact Hdom]].
  - intros v Hv. apply Hcov in Hv. apply in_map_iff in Hv.
    destruct Hv as [[v' w] [E Hin]]. simpl in E. subst v'. now exists w.
  - destruct Hcons as [->|Hcons]; [|now apply is_consistent_true].
    split; [|split]; intros; contradiction.
Qed.

(** X18. The search is complete: on node-consistent domains for the
    variables of a crossword, if some complete assignment within the domains
    meets all constraints, then [perform_backtracking] started from the empty
    assignment returns one (not necessarily the same). *)
Theorem backtracking_complete (contents vocabulary : list string) (c : Crossword)
        (d : domains) (s : assignment) :
  Crossword_init contents vocabulary = Ok c ->
  map fst d = variables c -> node_consistent d ->
  full_solution c d s ->
  exists s' t, perform_backtracking c d [] = Ok (Some s', t) /\ full_solution c d s'.
Proof.
  intros H K N Hs. apply Crossword_init_built in H.
  destruct (backtrack_complete c d s (S (List.length (minus_assigned (variables c) [])))
              H K N Hs [] (search_state_empty c d)) as [s' [t Hr]].
  - intros e [].
  - lia.
  - fold (perform_backtracking c d []) in Hr. exists s', t. split; [exact Hr|].
    apply (solved_full_solution c d s' H).
    eapply perform_backtracking_sound; eauto.
Qed.

Lemma backtracking_complete_witness :
  let c := the_crossword grid_corner words_corner in
  let d := start_domains c in
  exists s' t, perform_backtracking c d [] = Ok (Some s', t) /\ full_solution c d s'.
Proof.
  intros c d.
  assert (Hc : Crossword_init grid_corner words_corner = Ok c) by reflexivity.
  apply (backtracking_complete grid_corner words_corner c d
           [(mkVar 0 0 ACROSS 2, "XA"); (mkVar 0 1 DOWN 2, "AB")]%string Hc).
  - reflexivity.
  - apply ensure_node_consistency_ok.
  - apply solved_full_solution; [now apply (Crossword_init_built _ _ _ Hc)|].
    split; [|split; [reflexivity | right; reflexivity]].
    split; [repeat constructor; simpl; intuition discriminate|].
    split.
    + intros v [<-|[<-|[]]]; simpl; tauto.
    + intros v w [E|[E|[]]]; injection E as <- <-; eexists;
        (split; [reflexivity | simpl; tauto]).
Defined.

Lemma ac3_keeps_solutions_witness :
  let c := the_crossword grid_corner words_corner in
  let d := start_domains c in
  let s := [(mkVar 0 0 ACROSS 2, "XA"); (mkVar 0 1 DOWN 2, "AB")]%string in
  let d' := [(mkVar 0 0 ACROSS 2, ["AB"; "XA"]);
             (mkVar 0 1 DOWN 2, ["AB"; "BC"; "BD"])]%string in
  apply_ac3 c d None = Ok (true, d') /\ true = true /\ full_solution c d' s.
Proof.
  intros c d s d'. split; [reflexivity|].
  assert (Hc : Crossword_init grid_corner words_corner = Ok c) by reflexivity.
  apply (ac3_keeps_solutions grid_corner words_corner c d None s true d' Hc);
    [|reflexivity].
  apply solved_full_solution; [now apply (Crossword_init_built _ _ _ Hc)|].
  split; [|split; [reflexivity | right; reflexivity]].
  split; [repeat constructor; simpl; intuition discriminate|].
  split.
  - intros v [<-|[<-|[]]]; simpl; tauto.
  - intros v w [E|[E|[]]]; injection E as <- <-; eexists;
      (split; [reflexivity | simpl; tauto]).
Defined.

(** * The solver as a whole *)

Lemma lookup_init_domains (c : Crossword) (v : Var) :
  In v (variables c) -> lookup Var_eqb v (init_domains c) = Some (words c).
Proof.
  intros Hv. unfold init_domains.
  induction (variables c) as [|u r IH]; simpl; [contradiction|].
  destruct (Var_eqb u v) eqn:E; [reflexivity|].
  apply IH. destruct Hv as [->|Hv]; [|exact Hv].
  rewrite Var_eqb_refl in E. discriminate.
Qed.

Lemma lookup_start_domains (c : Crossword) (v : Var) :
  In v (variables c) ->
  lookup Var_eqb v (start_domains c)
  = Some (filter (fun w => String.length w =? var_length v) (words c)).
Proof.
  intros Hv. unfold start_domains.
  now rewrite lookup_ensure_node_consistency, (lookup_init_domains c v Hv).
Qed.

Lemma puzzle_solution_start (c : Crossword) (s : assignment) :
  puzzle_solution c s -> full_solution c (start_domains c) s.
Proof.
  intros [ND [Hall [Hvoc Hcons]]]. split; [exact ND|]. split; [exact Hall|].
  split; [exact Hcons|]. intros v w Hin. destruct (Hvoc v w Hin) as [Hv Hw].
  exists (filter (fun w => String.length w =? var_length v) (words c)).
  split; [now apply lookup_start_domains|].
  apply filter_In. split; [exact Hw|]. apply Nat.eqb_eq.
  destruct Hcons as [_ [Hlen _]]. now apply Hlen.
Qed.

Lemma solved_puzzle_solution (c : Crossword) (d' : domains) (s : assignment) :
  built c -> shrinks (start_domains c) d' -> solved c d' s -> puzzle_solution c s.
Proof.
  intros B [_ Hsh] Hsol. pose proof (solved_full_solution c d' s B Hsol) as Hfull.
  destruct Hfull as [ND [Hall [Hcons Hdom]]].
  destruct Hsol as [[_ [Hincl _]] _].
  split; [exact ND|]. split; [exact Hall|]. split; [|exact Hcons].
  intros v w Hin.
  assert (Hv : In v (variables c)).
  { apply Hincl. apply (in_map fst) in Hin. exact Hin. }
  split; [exact Hv|].
  destruct (Hdom v w Hin) as [ws' [Hl Hw]].
  destruct (Hsh v ws' Hl) as [ws [Hl0 Hsub]].
  rewrite (lookup_start_domains c v Hv) in Hl0. injection Hl0 as <-.
  apply Hsub in Hw. apply filter_In in Hw. tauto.
Qed.

Lemma find_solution_sound (c : Crossword) (s : assignment) (t : trail) :
  built c -> find_solution c = Ok (Some s, t) -> puzzle_solution c s.
Proof.
  intros B Hs. unfold find_solution in Hs. fold (start_domains c) in Hs.
  destruct (apply_ac3 c (start_domains c) None) as [[b d']| |] eqn:Hac; simpl in Hs;
    try discriminate.
  apply (solved_puzzle_solution c d' s B).
  - eapply apply_ac3_shrinks; eauto.
  - eapply perform_backtracking_sound; eauto.
Qed.

Lemma find_solution_finds (c : Crossword) (s : assignment) :
  built c -> puzzle_solution c s ->
  exists s' t, find_solution c = Ok (Some s', t).
Proof.
  intros B Hs. apply puzzle_solution_start in Hs.
  destruct (solver_domains_ready c) as [K N]. fold (start_domains c) in K, N.
  destruct (apply_ac3_safe c _ B K N) as [b [d' Hac]].
  pose proof (apply_ac3_shrinks _ _ _ _ _ Hac) as Hsh.
  assert (K' : map fst d' = variables c) by (rewrite (proj1 Hsh); exact K).
  assert (N' : node_consistent d').
  { eapply shrinks_node_consistent; eauto. rewrite K'. now apply variables_NoDup. }
  pose proof Hac as Hac'. rewrite apply_ac3_unfold in Hac'.
  destruct (ac3_loop_keeps_solution c s _ B _ _ _ _ Hs Hac') as [_ Hs'].
  destruct (backtrack_complete c d' s (S (List.length (minus_assigned (variables c) [])))
              B K' N' Hs' [] (search_state_empty c d')) as [s' [t Hr]].
  - intros e [].
  - lia.
  - exists s', t. unfold find_solution. fold (start_domains c). rewrite Hac. simpl.
    exact Hr.
Qed.

Lemma find_solution_none (c : Crossword) :
  built c -> (forall s, ~ puzzle_solution c s) ->
  exists t, find_solution c = Ok (None, t).
Proof.
  intros B Hno. destruct (find_solution_returns c B) as [[s|] [t Hr]].
  - exfalso. apply (Hno s). eapply find_solution_sound; eauto.
  - now exists t.
Qed.

(** X19. The solver is sound and complete: on a crossword, [find_solution]
    returns an assignment exactly when the puzzle has a solution (one
    vocabulary word per variable, no word used twice, lengths and
    overlapping letters matching), what it returns is such a solution, and
    it returns [None] exactly when there is none. *)
Theorem find_solution_iff_solvable (contents vocabulary : list string)
        (c : Crossword) :
  Crossword_init contents vocabulary = Ok c ->
  ((exists s t, find_solution c = Ok (Some s, t)) <-> exists s, puzzle_solution c s) /\
  (forall s t, find_solution c = Ok (Some s, t) -> puzzle_solution c s) /\
  ((exists t, find_solution c = Ok (None, t)) <-> forall s, ~ puzzle_solution c s).
Proof.
  intros H. apply Crossword_init_built in H. split; [|split].
  - split.
    + intros [s [t Hr]]. exists s. eapply find_solution_sound; eauto.
    + intros [s Hs]. eapply find_solution_finds; eauto.
  - intros s t Hr. eapply find_solution_sound; eauto.
  - split.
    + intros [t Hr] s Hs. destruct (find_solution_finds c s H Hs) as [s' [t' Hr']].
      congruence.
    + now apply find_solution_none.
Qed.

Lemma find_solution_iff_solvable_witness :
  let c := the_crossword grid_bottom words_bottom in
  ((exists s t, find_solution c = Ok (Some s, t)) <-> exists s, puzzle_solution c s) /\
  (forall s t, find_solution c = Ok (Some s, t) -> puzzle_solution c s) /\
  ((exists t, find_solution c = Ok (None, t)) <-> forall s, ~ puzzle_solution c s).
Proof.
  intros c. apply (find_solution_iff_solvable grid_bottom words_bottom c). reflexivity.
Defined.

(** X20. The whole program raises [ValueError] for an empty structure file
    and otherwise returns normally, with an assignment or [None]: no
    structure and no vocabulary makes the solver fail with an exception. *)
Theorem solve_outcome (contents vocabulary : list string) :
  (contents = [] -> solve contents vocabulary = Raise ValueError) /\
  (contents <> [] -> exists result t, solve contents vocabulary = Ok (result, t)).
Proof.
  split.
  - intros ->. reflexivity.
  - intros Hne. unfold solve.
    destruct (Crossword_init contents vocabulary) as [c| |] eqn:E.
    + simpl. apply find_solution_returns. eapply Crossword_init_built; eauto.
    + exfalso. unfold Crossword_init in E. destruct contents; [contradiction|].
      discriminate.
    + exfalso. unfold Crossword_init in E. destruct contents; discriminate.
Qed.

(** X21. A crossword with a variable for which the vocabulary has no word
    of the right length has no solution, and [find_solution] reports that by
    returning [None]. *)
Theorem no_word_of_length_no_solution (contents vocabulary : list string)
        (c : Crossword) (v : Var) :
  Crossword_init contents vocabulary = Ok c ->
  In v (variables c) ->
  (forall w, In w (words c) -> String.length w <> var_length v) ->
  exists t, find_solution c = Ok (None, t).
Proof.
  intros H Hv Hlen. apply Crossword_init_built in H.
  apply find_solution_none; [exact H|].
  intros s [_ [Hall [Hvoc [_ [Hl _]]]]].
  destruct (Hall v Hv) as [w Hw]. destruct (Hvoc v w Hw) as [_ Hin].
  exact (Hlen w Hin (Hl v w Hw)).
Qed.

Lemma no_word_of_length_no_solution_witness :
  let c := the_crossword ["_____"]%string ["ABC"; "ABCD"]%string in
  exists t, find_solution c = Ok (None, t).
Proof.
  intros c.
  apply (no_word_of_length_no_solution ["_____"]%string ["ABC"; "ABCD"]%string c
           (mkVar 0 0 ACROSS 5)).
  - reflexivity.
  - simpl. tauto.
  - intros w [<-|[<-|[]]]; discriminate.
Defined.

Lemma NoDup_values (s : assignment) :
  NoDup (map fst s) ->
  (forall v1 v2 w, In (v1, w) s -> In (v2, w) s -> v1 = v2) ->
  NoDup (map snd s).
Proof.
  induction s as [|[v w] r IH]; simpl; intros ND Hu; [constructor|].
  inversion ND as [|? ? Hn ND']; subst. constructor.
  - intros Hin. apply in_map_iff in Hin. destruct Hin as [[v' w'] [E Hin]].
    simpl in E. subst w'. apply Hn.
    assert (v' = v) by (apply (Hu v' v w); [now right | now left]).
    subst v'. apply (in_map fst) in Hin. exact Hin.
  - apply IH; [exact ND'|]. intros v1 v2 u H1 H2. apply (Hu v1 v2 u); now right.
Qed.

(** X22. A crossword with more variables than vocabulary words has no
    solution, since no word may be used twice, and [find_solution] returns
    [None]. *)
Theorem fewer_words_than_variables (contents vocabulary : list string)
        (c : Crossword) :
  Crossword_init contents vocabulary = Ok c ->
  List.length (words c) < List.length (variables c) ->
  exists t, find_solution c = Ok (None, t).
Proof.
  intros H Hlt. apply Crossword_init_built in H.
  apply find_solution_none; [exact H|].
  intros s [ND [Hall [Hvoc [Huniq _]]]].
  pose proof (NoDup_values s ND Huniq) as NDw.
  assert (I1 : incl (map snd s) (words c)).
  { intros w Hw. apply in_map_iff in Hw. destruct Hw as [[v w'] [E Hin]].
    simpl in E. subst w'. now destruct (Hvoc v w Hin). }
  assert (I2 : incl (variables c) (map fst s)).
  { intros v Hv. destruct (Hall v Hv) as [w Hw]. apply (in_map fst) in Hw. exact Hw. }
  pose proof (NoDup_incl_length NDw I1) as L1.
  pose proof (NoDup_incl_length (variables_NoDup c H) I2) as L2.
  rewrite length_map in L1, L2. lia.
Qed.

Lemma fewer_words_than_variables_witness :
  let c := the_crossword ["__#__"]%string ["AB"]%string in
  exists t, find_solution c = Ok (None, t).
Proof.
  intros c. apply (fewer_words_than_variables ["__#__"]%string ["AB"]%string c).
  - reflexivity.
  - simpl. lia.
Defined.

(** * The letter grid *)

Lemma list_set_length {A : Type} (l : list A) (n : nat) (x : A) :
  List.length (list_set l n x) = List.length l.
Proof.
  revert n. induction l as [|y r IH]; intros n; simpl; [reflexivity|].
  destruct n; simpl; [reflexivity | now rewrite IH].
Qed.

Lemma list_set_nth_error {A : Type} (l : list A) (n m : nat) (x : A) :
  n < List.length l ->
  nth_error (list_set l n x) m = if m =? n then Some x else nth_error l m.
Proof.
  revert n m. induction l as [|y r IH]; intros n m Hn; simpl in *; [lia|].
  destruct n, m; simpl; try reflexivity.
  apply IH. lia.
Qed.

Lemma write_cell (var : Var) (index : nat) :
  (var_i var + (if direction_eqb (var_direction var) DOWN then index else 0),
   var_j var + (if direction_eqb (var_direction var) ACROSS then index else 0))
  = cell_at var index.
Proof.
  unfold cell_at. destruct (var_direction var); simpl; now rewrite Nat.add_0_r.
Qed.

Lemma write_word_step (var : Var) (word : string) (k : nat) (rest : list nat)
      (g : letter_grid) :
  write_word var word (k :: rest) g
  = (ch <- str_index word k ;;
     g' <- grid_set g (fst (cell_at var k)) (snd (cell_at var k)) ch ;;
     write_word var word rest g').
Proof. simpl. now rewrite <- write_cell. Qed.

Lemma grid_set_Ok (g g' : letter_grid) (cl : cell) (ch : ascii) :
  grid_set g (fst cl) (snd cl) ch = Ok g' ->
  grid_at g cl <> None /\
  List.length g' = List.length g /\
  grid_at g' cl = Some (Some ch) /\
  (forall cl', cl' <> cl -> grid_at g' cl' = grid_at g cl').
Proof.
  unfold grid_set, grid_at. destruct cl as [r k]. simpl.
  destruct (nth_error g r) as [line|] eqn:Er; [|discriminate].
  destruct (k <? List.length line) eqn:Ek; [|discriminate].
  apply Nat.ltb_lt in Ek. intros H. injection H as <-.
  assert (Hr : r < List.length g) by (apply nth_error_Some; congruence).
  split; [apply nth_error_Some; exact Ek|].
  split; [apply list_set_length|]. split.
  - rewrite (list_set_nth_error g r r _ Hr), Nat.eqb_refl.
    now rewrite (list_set_nth_error line k k _ Ek), Nat.eqb_refl.
  - intros [r' k'] Hne. simpl.
    rewrite (list_set_nth_error g r r' _ Hr).
    destruct (r' =? r) eqn:E; [|reflexivity].
    apply Nat.eqb_eq in E. subst r'. rewrite Er.
    rewrite (list_set_nth_error line k k' _ Ek).
    destruct (k' =? k) eqn:E'; [|reflexivity].
    apply Nat.eqb_eq in E'. subst k'. contradiction.
Qed.

Lemma grid_set_outcome (g : letter_grid) (cl : cell) (ch : ascii) :
  (grid_at g cl <> None -> exists g', grid_set g (fst cl) (snd cl) ch = Ok g') /\
  (grid_at g cl = None -> grid_set g (fst cl) (snd cl) ch = Raise IndexError).
Proof.
  unfold grid_set, grid_at. destruct cl as [r k]. simpl.
  destruct (nth_error g r) as [line|]; [|split; [contradiction | reflexivity]].
  destruct (k <? List.length line) eqn:Ek.
  - split; [eexists; reflexivity|]. intros H. apply nth_error_None in H.
    apply Nat.ltb_lt in Ek. lia.
  - split; [|reflexivity]. intros H. apply nth_error_Some in H.
    apply Nat.ltb_ge in Ek. lia.
Qed.

Lemma grid_at_blank (h w : nat) (cl : cell) :
  grid_at (repeat (repeat None w) h) cl
  = if (fst cl <? h) && (snd cl <? w) then Some None else None.
Proof.
  unfold grid_at. destruct cl as [r k]. simpl.
  destruct (r <? h) eqn:Er.
  - apply Nat.ltb_lt in Er. rewrite (nth_error_repeat _ Er). simpl.
    destruct (k <? w) eqn:Ek.
    + apply Nat.ltb_lt in Ek. now rewrite (nth_error_repeat _ Ek).
    + apply Nat.ltb_ge in Ek. apply nth_error_None. now rewrite repeat_length.
  - apply Nat.ltb_ge in Er. simpl.
    assert (E : nth_error (repeat (repeat (@None ascii) w) h) r = None)
      by (apply nth_error_None; now rewrite repeat_length).
    now rewrite E.
Qed.

(** Writing letters that all come from one letter-per-cell relation. *)
Section Coherent.
Variable P : cell -> ascii -> Prop.
Hypothesis P_functional : forall cl x y, P cl x -> P cl y -> x = y.

Lemma write_word_coherent (var : Var) (word : string) (indices : list nat) :
  (forall k x, In k indices -> String.get k word = Some x -> P (cell_at var k) x) ->
  (forall k, In k indices -> k < String.length word) ->
  forall g,
    (forall k, In k indices -> grid_at g (cell_at var k) <> None) ->
    (forall cl x, grid_at g cl = Some (Some x) -> P cl x) ->
    exists g',
      write_word var word indices g = Ok g' /\
      extends_grid P g g' /\
      (forall k x, In k indices -> String.get k word = Some x ->
                   grid_at g' (cell_at var k) = Some (Some x)) /\
      (forall cl x, grid_at g' cl = Some (Some x) ->
                    grid_at g cl = Some (Some x) \/
                    exists k, In k indices /\ cl = cell_at var k).
Proof.
  intros HP Hlen. induction indices as [|k rest IH]; intros g Hrange HJ.
  - exists g. split; [reflexivity|]. split; [|split].
    + split; [reflexivity|]. split; [tauto|]. split; auto.
    + intros k x [].
    + auto.
  - rewrite write_word_step.
    destruct (get_in_range word k) as [ch Hch]; [apply Hlen; now left|].
    unfold str_index. rewrite Hch. simpl.
    destruct (proj1 (grid_set_outcome g (cell_at var k) ch)) as [g1 Hg1];
      [apply Hrange; now left|].
    rewrite Hg1. simpl.
    destruct (grid_set_Ok g g1 (cell_at var k) ch Hg1) as [_ [L1 [Hset Hother]]].
    assert (Hshape1 : forall cl, grid_at g1 cl = None <-> grid_at g cl = None).
    { intros cl. destruct (Nat.eq_dec (fst cl) (fst (cell_at var k))) as [E1|E1];
        [destruct (Nat.eq_dec (snd cl) (snd (cell_at var k))) as [E2|E2]|].
      - assert (cl = cell_at var k) by (destruct cl, (cell_at var k); simpl in *; congruence).
        subst cl. rewrite Hset. split; [discriminate|].
        intros Hn. exfalso. apply (Hrange k); [now left | exact Hn].
      - rewrite Hother; [tauto|]. intros ->. contradiction.
      - rewrite Hother; [tauto|]. intros ->. contradiction. }
    assert (Pk : P (cell_at var k) ch) by (apply HP; [now left | exact Hch]).
    assert (HJ1 : forall cl x, grid_at g1 cl = Some (Some x) -> P cl x).
    { intros cl x Hx.
      destruct (Nat.eq_dec (fst cl) (fst (cell_at var k))) as [E1|E1];
        [destruct (Nat.eq_dec (snd cl) (snd (cell_at var k))) as [E2|E2]|].
      - assert (cl = cell_at var k) by (destruct cl, (cell_at var k); simpl in *; congruence).
        subst cl. rewrite Hset in Hx. injection Hx as <-. exact Pk.
      - rewrite Hother in Hx; [now apply HJ|]. intros ->. contradiction.
      - rewrite Hother in Hx; [now apply HJ|]. intros ->. contradiction. }
    assert (Hkeep1 : forall cl x, grid_at g cl = Some (Some x) ->
                                  grid_at g1 cl = Some (Some x)).
    { intros cl x Hx.
      destruct (Nat.eq_dec (fst cl) (fst (cell_at var k))) as [E1|E1];
        [destruct (Nat.eq_dec (snd cl) (snd (cell_at var k))) as [E2|E2]|].
      - assert (cl = cell_at var k) by (destruct cl, (cell_at var k); simpl in *; congruence).
        subst cl. rewrite Hset. f_equal. f_equal.
        apply (P_functional (cell_at var k)); [exact Pk | now apply HJ].
      - rewrite Hother; [exact Hx|]. intros ->. contradiction.
      - rewrite Hother; [exact Hx|]. intros ->. contradiction. }
    destruct (IH (fun k' x Hk' => HP k' x (or_intror Hk'))
                 (fun k' Hk' => Hlen k' (or_intror Hk')) g1) as [g' [Hw [Hext [Hwr Hsrc]]]].
    { intros k' Hk' Hn. apply Hshape1 in Hn. apply (Hrange k'); [now right | exact Hn]. }
    { exact HJ1. }
    exists g'. split; [exact Hw|].
    destruct Hext as [L2 [Hshape2 [Hkeep2 HJ2]]]. split; [|split].
    + split; [congruence|]. split; [|split; [|exact HJ2]].
      * intros cl. rewrite Hshape2. apply Hshape1.
      * intros cl x Hx. apply Hkeep2. now apply Hkeep1.
    + intros k' x [<-|Hk'] Hx.
      * apply Hkeep2. rewrite Hset. congruence.
      * now apply Hwr.
    + intros cl x Hx. destruct (Hsrc cl x Hx) as [H1|[k' [Hk' ->]]].
      * destruct (Nat.eq_dec (fst cl) (fst (cell_at var k))) as [E1|E1];
          [destruct (Nat.eq_dec (snd cl) (snd (cell_at var k))) as [E2|E2]|].
        -- right. exists k. split; [now left|].
           destruct cl, (cell_at var k); simpl in *; congruence.
        -- left. rewrite Hother in H1; [exact H1|]. intros ->. contradiction.
        -- left. rewrite Hother in H1; [exact H1|]. intros ->. contradiction.
      * right. exists k'. split; [now right | reflexivity].
Qed.

Lemma write_words_coherent (a : assignment) :
  (forall v w k x, In (v, w) a -> String.get k w = Some x -> P (cell_at v k) x) ->
  forall g,
    (forall v w k, In (v, w) a -> k < String.length w ->
                   grid_at g (cell_at v k) <> None) ->
    (forall cl x, grid_at g cl = Some (Some x) -> P cl x) ->
    exists g',
      write_words a g = Ok g' /\
      extends_grid P g g' /\
      (forall v w k x, In (v, w) a -> String.get k w = Some x ->
                       grid_at g' (cell_at v k) = Some (Some x)) /\
      (forall cl x, grid_at g' cl = Some (Some x) ->
                    grid_at g cl = Some (Some x) \/
                    exists v w k, In (v, w) a /\ k < String.length w /\
                                  cl = cell_at v k).
Proof.
  induction a as [|[var word] rest IH]; intros HP g Hrange HJ.
  - exists g. split; [reflexivity|]. split; [|split].
    + split; [reflexivity|]. split; [tauto|]. split; auto.
    + intros v w k x [].
    + auto.
  - simpl.
    destruct (write_word_coherent var word (seq 0 (String.length word))) with (g := g)
      as [g1 [Hw1 [Hext1 [Hwr1 Hsrc1]]]].
    { intros k x _ Hx. apply (HP var word k x); [now left | exact Hx]. }
    { intros k Hk. apply in_seq in Hk. lia. }
    { intros k Hk. apply in_seq in Hk. apply (Hrange var word k); [now left | lia]. }
    { exact HJ. }
    rewrite Hw1. simpl.
    destruct Hext1 as [L1 [Hshape1 [Hkeep1 HJ1]]].
    destruct (IH (fun v w k x Hin => HP v w k x (or_intror Hin)) g1)
      as [g' [Hw [Hext [Hwr Hsrc]]]].
    { intros v w k Hin Hk Hn. apply Hshape1 in Hn.
      apply (Hrange v w k); [now right | exact Hk | exact Hn]. }
    { exact HJ1. }
    exists g'. split; [exact Hw|].
    destruct Hext as [L2 [Hshape2 [Hkeep2 HJ2]]]. split; [|split].
    + split; [congruence|]. split; [|split; [|exact HJ2]].
      * intros cl. rewrite Hshape2. apply Hshape1.
      * intros cl x Hx. apply Hkeep2. now apply Hkeep1.
    + intros v w k x [E|Hin] Hx.
      * injection E as <- <-. apply Hkeep2. apply Hwr1; [|exact Hx].
        apply in_seq. apply get_Some_lt in Hx. lia.
      * now apply (Hwr v w k x).
    + intros cl x Hx. destruct (Hsrc cl x Hx) as [H1|[v [w [k [Hin [Hk ->]]]]]].
      * destruct (Hsrc1 cl x H1) as [H0|[k [Hk ->]]]; [now left | right].
        exists var, word, k. split; [now left|]. split; [|reflexivity].
        apply in_seq in Hk. lia.
      * right. exists v, w, k. split; [now right|]. auto.
Qed.
End Coherent.

Lemma index_of_nth (l : list cell) (k : nat) (x : cell) :
  NoDup l -> nth_error l k = Some x -> index x l = k.
Proof.
  revert k. induction l as [|y r IH]; intros k ND H; [destruct k; discriminate|].
  inversion ND as [|? ? Hn ND']; subst. simpl.
  destruct k as [|k]; simpl in H.
  - injection H as ->.
    assert (E : cell_eqb x x = true) by (now apply cell_eqb_eq). now rewrite E.
  - destruct (cell_eqb y x) eqn:E.
    + apply cell_eqb_eq in E. subst y. exfalso. apply Hn. eapply nth_error_In; eauto.
    + f_equal. now apply IH.
Qed.

(** Two variables that hold the same cell at positions [k1] and [k2] have
    the overlap entry [(k1, k2)]. *)
Lemma shared_cell_overlap (c : Crossword) (v1 v2 : Var) (k1 k2 : nat) :
  built c -> In v1 (variables c) -> In v2 (variables c) -> v1 <> v2 ->
  k1 < var_length v1 -> k2 < var_length v2 ->
  cell_at v1 k1 = cell_at v2 k2 ->
  overlaps_get c (v1, v2) = Some (Some (k1, k2)).
Proof.
  intros B H1 H2 Hn Hk1 Hk2 E.
  rewrite (proj1 (overlaps_get_built c v1 v2 B)) by auto. f_equal.
  pose proof (cells_nth_error v1 k1 Hk1) as N1.
  pose proof (cells_nth_error v2 k2 Hk2) as N2. rewrite <- E in N2.
  assert (I1 : In (cell_at v1 k1) (cells v1)) by (eapply nth_error_In; eauto).
  assert (I2 : In (cell_at v1 k1) (cells v2)) by (eapply nth_error_In; eauto).
  unfold overlap_of.
  destruct (intersection (cells v1) (cells v2)) as [|x r] eqn:Ei.
  - assert (Hin : In (cell_at v1 k1) (intersection (cells v1) (cells v2)))
      by (apply intersection_In; auto).
    rewrite Ei in Hin. contradiction.
  - assert (Hx : In x (cells v1) /\ In x (cells v2)).
    { apply intersection_In. rewrite Ei. now left. }
    assert (x = cell_at v1 k1).
    { apply (variables_meet_once c v1 v2 B H1 H2 Hn); tauto. }
    subst x. f_equal. f_equal.
    + apply index_of_nth; [apply cells_NoDup | exact N1].
    + apply index_of_nth; [apply cells_NoDup | exact N2].
Qed.

Lemma puts_functional (c : Crossword) (a : assignment) :
  built c -> NoDup (map fst a) ->
  (forall v w, In (v, w) a -> In v (variables c)) ->
  consistent_assignment c a ->
  forall cl x y, puts a cl x -> puts a cl y -> x = y.
Proof.
  intros B ND Hvars [_ [Hlen Hov]] cl x y
         [v1 [w1 [k1 [I1 [G1 C1]]]]] [v2 [w2 [k2 [I2 [G2 C2]]]]].
  destruct (Var_eq_dec v1 v2) as [->|Hn].
  - pose proof (In_lookup Var_eqb Var_eqb_eq v2 w1 a ND I1) as L1.
    pose proof (In_lookup Var_eqb Var_eqb_eq v2 w2 a ND I2) as L2.
    assert (w1 = w2) by congruence. subst w2.
    assert (k1 = k2) by (apply (cell_at_inj v2); congruence). subst k2. congruence.
  - assert (Hk1 : k1 < var_length v1).
    { rewrite <- (Hlen v1 w1 I1). eapply get_Some_lt; eauto. }
    assert (Hk2 : k2 < var_length v2).
    { rewrite <- (Hlen v2 w2 I2). eapply get_Some_lt; eauto. }
    assert (Ho : overlaps_get c (v1, v2) = Some (Some (k1, k2))).
    { apply shared_cell_overlap; eauto. congruence. }
    destruct (Hov v1 v2 w1 w2 k1 k2 I1 I2 Ho) as [ch [E1 E2]]. congruence.
Qed.

Lemma grid_at_blank_range (h w : nat) (cl : cell) :
  grid_at (repeat (repeat None w) h) cl <> None <-> fst cl < h /\ snd cl < w.
Proof.
  rewrite grid_at_blank.
  destruct (fst cl <? h) eqn:E1; destruct (snd cl <? w) eqn:E2; simpl.
  - apply Nat.ltb_lt in E1, E2. split; [auto | discriminate].
  - apply Nat.ltb_ge in E2. split; [intros H; now contradiction H | lia].
  - apply Nat.ltb_ge in E1. split; [intros H; now contradiction H | lia].
  - apply Nat.ltb_ge in E1. split; [intros H; now contradiction H | lia].
Qed.

Lemma cell_at_in_cells (v : Var) (k : nat) :
  k < var_length v -> In (cell_at v k) (cells v).
Proof.
  intros Hk. eapply nth_error_In. apply (cells_nth_error v k Hk).
Qed.

(** X23. The letter grid of an assignment that meets the constraints (a
    partial one included): [create_letter_grid] returns a grid of the
    crossword's height and width in which every cell of every assigned
    variable holds that variable's letter, and every cell that no assigned
    variable occupies is [None]. *)
Theorem letter_grid_of_assignment (contents vocabulary : list string)
        (c : Crossword) (a : assignment) :
  Crossword_init contents vocabulary = Ok c ->
  NoDup (map fst a) ->
  (forall v w, In (v, w) a -> In v (variables c)) ->
  consistent_assignment c a ->
  exists g,
    create_letter_grid c a = Ok g /\
    List.length g = height c /\
    (forall cl, grid_at g cl <> None <-> fst cl < height c /\ snd cl < width c) /\
    (forall v w k x, In (v, w) a -> String.get k w = Some x ->
                     grid_at g (cell_at v k) = Some (Some x)) /\
    (forall cl, fst cl < height c -> snd cl < width c ->
                (forall v w, In (v, w) a -> ~ In cl (cells v)) ->
                grid_at g cl = Some None).
Proof.
  intros H ND Hvars Hcons. apply Crossword_init_built in H.
  pose proof (puts_functional c a H ND Hvars Hcons) as PF.
  pose proof (grid_at_blank_range (height c) (width c)) as Hblank.
  destruct (write_words_coherent (puts a) PF a) with
      (g := repeat (repeat (@None ascii) (width c)) (height c))
    as [g [Hw [[L [Hshape [_ HJ]]] [Hwr Hsrc]]]].
  - intros v w k x Hin Hx. exists v, w, k. auto.
  - intros v w k Hin Hk. apply Hblank.
    assert (Hk' : k < var_length v).
    { destruct Hcons as [_ [Hlen _]]. now rewrite <- (Hlen v w Hin). }
    pose proof (cell_at_in_cells v k Hk') as Hc.
    destruct (cell_at v k) as [r q]. simpl.
    destruct (variable_cells_fillable c v H (Hvars v w Hin)) as [_ Hf].
    destruct (Hf r q Hc) as [F1 [F2 _]]. auto.
  - intros cl x Hx. rewrite grid_at_blank in Hx.
    destruct ((fst cl <? height c) && (snd cl <? width c)); discriminate.
  - exists g. split; [exact Hw|]. split; [now rewrite L, repeat_length|].
    split; [|split; [exact Hwr|]].
    + intros cl. rewrite <- Hblank. split; intros Hn Hn'; apply Hn; now apply Hshape.
    + intros cl H1 H2 Hfree.
      destruct (grid_at g cl) as [[x|]|] eqn:Eg.
      * exfalso. destruct (Hsrc cl x Eg) as [H0|[v [w [k [Hin [Hk ->]]]]]].
        -- rewrite grid_at_blank in H0.
           destruct ((fst cl <? height c) && (snd cl <? width c)); discriminate.
        -- apply (Hfree v w Hin). apply cell_at_in_cells.
           destruct Hcons as [_ [Hlen _]]. now rewrite <- (Hlen v w Hin).
      * reflexivity.
      * exfalso. apply Hshape in Eg. revert Eg. apply Hblank. auto.
Qed.

Lemma letter_grid_of_assignment_witness :
  let c := the_crossword grid_bottom words_bottom in
  let a := [(mkVar 1 0 ACROSS 3, "CAT"); (mkVar 0 0 DOWN 2, "OC")]%string in
  exists g,
    create_letter_grid c a = Ok g /\
    List.length g = height c /\
    (forall cl, grid_at g cl <> None <-> fst cl < height c /\ snd cl < width c) /\
    (forall v w k x, In (v, w) a -> String.get k w = Some x ->
                     grid_at g (cell_at v k) = Some (Some x)) /\
    (forall cl, fst cl < height c -> snd cl < width c ->
                (forall v w, In (v, w) a -> ~ In cl (cells v)) ->
                grid_at g cl = Some None).
Proof.
  intros c a.
  assert (Hc : Crossword_init grid_bottom words_bottom = Ok c) by reflexivity.
  assert (ND : NoDup (map fst a))
    by (repeat constructor; simpl; intuition discriminate).
  apply (letter_grid_of_assignment grid_bottom words_bottom c a Hc ND).
  - intros v w [E|[E|[]]]; injection E as <- <-; simpl; tauto.
  - apply is_consistent_true;
      [now apply (Crossword_init_built _ _ _ Hc) | exact ND | reflexivity].
Defined.

(** Writing letters with no assumption on them: the shape of the grid
    decides the outcome. *)
Lemma write_word_outcome (var : Var) (word : string) (indices : list nat) :
  (forall k, In k indices -> k < String.length word) ->
  forall g,
    ((forall k, In k indices -> grid_at g (cell_at var k) <> None) ->
     exists g', write_word var word indices g = Ok g' /\
                forall cl, grid_at g' cl = None <-> grid_at g cl = None) /\
    ((exists k, In k indices /\ grid_at g (cell_at var k) = None) ->
     write_word var word indices g = Raise IndexError).
Proof.
  intros Hlen. induction indices as [|k rest IH]; intros g.
  - split; [|intros [k [[] _]]]. intros _. exists g. split; [reflexivity | tauto].
  - rewrite write_word_step.
    destruct (get_in_range word k) as [ch Hch]; [apply Hlen; now left|].
    unfold str_index. rewrite Hch. simpl.
    destruct (grid_at g (cell_at var k)) as [o|] eqn:Eg.
    + destruct (proj1 (grid_set_outcome g (cell_at var k) ch)) as [g1 Hg1];
        [congruence|].
      rewrite Hg1. simpl.
      destruct (grid_set_Ok g g1 (cell_at var k) ch Hg1) as [_ [_ [Hset Hother]]].
      assert (Hshape1 : forall cl, grid_at g1 cl = None <-> grid_at g cl = None).
      { intros cl. destruct (Nat.eq_dec (fst cl) (fst (cell_at var k))) as [E1|E1];
          [destruct (Nat.eq_dec (snd cl) (snd (cell_at var k))) as [E2|E2]|].
        - assert (cl = cell_at var k)
            by (destruct cl, (cell_at var k); simpl in *; congruence).
          subst cl. rewrite Hset, Eg. split; discriminate.
        - rewrite Hother; [tauto|]. intros ->. contradiction.
        - rewrite Hother; [tauto|]. intros ->. contradiction. }
      destruct (IH (fun k' Hk' => Hlen k' (or_intror Hk')) g1) as [IHok IHbad]. split.
      * intros Hrange. destruct IHok as [g' [Hw Hs]].
        { intros k' Hk' Hn. apply Hshape1 in Hn. apply (Hrange k'); [now right | exact Hn]. }
        exists g'. split; [exact Hw|]. intros cl. rewrite Hs. apply Hshape1.
      * intros [k' [[<-|Hk'] Hn]]; [congruence|].
        apply IHbad. exists k'. split; [exact Hk'|]. now apply Hshape1.
    + rewrite (proj2 (grid_set_outcome g (cell_at var k) ch) Eg). simpl. split.
      * intros Hrange. exfalso. apply (Hrange k); [now left | exact Eg].
      * reflexivity.
Qed.

Lemma cells_range_dec (var : Var) (g : letter_grid) (indices : list nat) :
  (forall k, In k indices -> grid_at g (cell_at var k) <> None) \/
  (exists k, In k indices /\ grid_at g (cell_at var k) = None).
Proof.
  induction indices as [|k rest [IH|[k' [Hk' Hn]]]].
  - left. intros k [].
  - destruct (grid_at g (cell_at var k)) as [o|] eqn:E.
    + left. intros k' [<-|Hk']; [congruence | now apply IH].
    + right. exists k. split; [now left | exact E].
  - right. exists k'. split; [now right | exact Hn].
Qed.

Lemma write_words_outcome (a : assignment) :
  forall g,
    ((forall v w k, In (v, w) a -> k < String.length w ->
                    grid_at g (cell_at v k) <> None) ->
     exists g', write_words a g = Ok g' /\
                forall cl, grid_at g' cl = None <-> grid_at g cl = None) /\
    ((exists v w k, In (v, w) a /\ k < String.length w /\
                    grid_at g (cell_at v k) = None) ->
     write_words a g = Raise IndexError).
Proof.
  induction a as [|[var word] rest IH]; intros g.
  - split; [|intros [v [w [k [[] _]]]]]. intros _. exists g. split; [reflexivity | tauto].
  - simpl.
    destruct (write_word_outcome var word (seq 0 (String.length word))
                (fun k Hk => proj2 (proj1 (in_seq _ _ _) Hk)) g) as [Hok Hbad].
    destruct (cells_range_dec var g (seq 0 (String.length word))) as [Hall|Hsome].
    + destruct (Hok Hall) as [g1 [Hw1 Hs1]]. rewrite Hw1. simpl.
      destruct (IH g1) as [IHok IHbad]. split.
      * intros Hrange. destruct IHok as [g' [Hw Hs]].
        { intros v w k Hin Hk Hn. apply Hs1 in Hn.
          apply (Hrange v w k); [now right | exact Hk | exact Hn]. }
        exists g'. split; [exact Hw|]. intros cl. rewrite Hs. apply Hs1.
      * intros [v [w [k [[E|Hin] [Hk Hn]]]]].
        -- injection E as <- <-. exfalso. apply (Hall k); [apply in_seq; lia | exact Hn].
        -- apply IHbad. exists v, w, k. split; [exact Hin|]. split; [exact Hk|].
           now apply Hs1.
    + rewrite (Hbad Hsome). simpl. split; [|reflexivity].
      intros Hrange. exfalso. destruct Hsome as [k [Hk Hn]].
      apply in_seq in Hk. apply (Hrange var word k); [now left | lia | exact Hn].
Qed.

(** X24. For any assignment, [create_letter_grid] returns a grid of the
    crossword's height and width when every letter of every word falls
    inside the grid, and raises [IndexError] as soon as one falls outside (a
    word too long for the room after its variable's start). *)
Theorem letter_grid_index_error (c : Crossword) (a : assignment) :
  ((forall v w k, In (v, w) a -> k < String.length w ->
                  fst (cell_at v k) < height c /\ snd (cell_at v k) < width c) ->
   exists g, create_letter_grid c a = Ok g /\
             forall cl, grid_at g cl <> None <->
                        fst cl < height c /\ snd cl < width c) /\
  ((exists v w k, In (v, w) a /\ k < String.length w /\
                  ~ (fst (cell_at v k) < height c /\ snd (cell_at v k) < width c)) ->
   create_letter_grid c a = Raise IndexError).
Proof.
  unfold create_letter_grid.
  destruct (write_words_outcome a (repeat (repeat None (width c)) (height c)))
    as [Hok Hbad].
  split.
  - intros Hrange. destruct Hok as [g [Hw Hs]].
    { intros v w k Hin Hk. apply grid_at_blank_range. now apply (Hrange v w k). }
    exists g. split; [exact Hw|]. intros cl.
    rewrite <- grid_at_blank_range. split; intros Hn Hn'; apply Hn; now apply Hs.
  - intros [v [w [k [Hin [Hk Hout]]]]]. apply Hbad.
    exists v, w, k. split; [exact Hin|]. split; [exact Hk|].
    destruct (grid_at (repeat (repeat None (width c)) (height c)) (cell_at v k))
      as [o|] eqn:E; [|reflexivity].
    exfalso. apply Hout. apply grid_at_blank_range. congruence.
Qed.

(** * What the search adds *)

Lemma try_values_extends (c : Crossword) (d : domains)
      (recurse : assignment -> res (option assignment * trail))
      (a : assignment) (var : Var) :
  (forall value s t,
      recurse (a ++ [(var, value)]) = Ok (Some s, t) ->
      exists rest, s = (a ++ [(var, value)]) ++ rest) ->
  lookup Var_eqb var a = None ->
  forall vals t0 s t,
    try_values c recurse a var vals t0 = Ok (Some s, t) ->
    exists rest, s = a ++ rest.
Proof.
  intros Hrec Hl. induction vals as [|value vals' IH]; simpl; intros t0 s t H;
    [discriminate|].
  rewrite (assign_fresh Var_eqb _ _ value Hl) in H.
  destruct (is_consistent c (a ++ [(var, value)])) as [ok| |]; simpl in H;
    try discriminate.
  destruct ok; [|eapply IH; eauto].
  destruct (recurse (a ++ [(var, value)])) as [[result t']| |] eqn:Er; simpl in H;
    try discriminate.
  destruct result as [s'|]; [|eapply IH; eauto].
  injection H as <- _. destruct (Hrec value s' t' Er) as [rest ->].
  exists ((var, value) :: rest). now rewrite <- app_assoc.
Qed.

Lemma backtrack_extends (c : Crossword) (d : domains) (fuel : nat) :
  forall a s t,
    backtrack fuel c d a = Ok (Some s, t) -> exists rest, s = a ++ rest.
Proof.
  induction fuel as [|fuel IH]; intros a s t H; [discriminate|].
  simpl in H. destruct (is_assignment_complete c a).
  - injection H as <- _. exists []. now rewrite app_nil_r.
  - destruct (select_variable c d a) as [best| |] eqn:Es; simpl in H; try discriminate.
    destruct best as [var|]; [|discriminate].
    apply select_variable_In in Es. destruct Es as [_ Hl].
    destruct (dom_get d var) as [vals| |]; simpl in H; try discriminate.
    eapply (try_values_extends c d (backtrack fuel c d) a var); [|exact Hl|exact H].
    intros value s' t' Hr. eapply IH; eauto.
Qed.

Lemma NoDup_extend (a : assignment) (var : Var) (value : string) :
  NoDup (map fst a) -> lookup Var_eqb var a = None ->
  NoDup (map fst (a ++ [(var, value)])).
Proof.
  intros ND Hl. rewrite map_app. simpl.
  apply NoDup_app; [exact ND | repeat constructor; simpl; tauto |].
  intros u Hu [E|[]]. subst u. apply keys_In in Hu. contradiction.
Qed.

Lemma try_values_sources (c : Crossword) (d : domains)
      (recurse : assignment -> res (option assignment * trail))
      (a : assignment) (var : Var) (ws : list string) (Q : assignment -> Prop) :
  (forall value s t,
      In value ws -> recurse (a ++ [(var, value)]) = Ok (Some s, t) -> Q s) ->
  lookup Var_eqb var a = None ->
  forall vals t0 s t,
    incl vals ws ->
    try_values c recurse a var vals t0 = Ok (Some s, t) -> Q s.
Proof.
  intros Hrec Hl. induction vals as [|value vals' IH]; simpl; intros t0 s t Hsub H;
    [discriminate|].
  rewrite (assign_fresh Var_eqb _ _ value Hl) in H.
  assert (Hsub' : incl vals' ws) by (intros u Hu; apply Hsub; now right).
  destruct (is_consistent c (a ++ [(var, value)])) as [ok| |]; simpl in H;
    try discriminate.
  destruct ok; [|eapply IH; eauto].
  destruct (recurse (a ++ [(var, value)])) as [[result t']| |] eqn:Er; simpl in H;
    try discriminate.
  destruct result as [s'|]; [|eapply IH; eauto].
  injection H as <- _. apply (Hrec value s' t'); [apply Hsub; now left | exact Er].
Qed.

Lemma backtrack_sources (c : Crossword) (d : domains) (fuel : nat) :
  forall a s t,
    NoDup (map fst a) ->
    backtrack fuel c d a = Ok (Some s, t) ->
    NoDup (map fst s) /\
    forall v w, In (v, w) s ->
      In (v, w) a \/
      (In v (variables c) /\ exists ws, lookup Var_eqb v d = Some ws /\ In w ws).
Proof.
  induction fuel as [|fuel IH]; intros a s t ND H; [discriminate|].
  simpl in H. destruct (is_assignment_complete c a).
  - injection H as <- _. split; [exact ND | auto].
  - destruct (select_variable c d a) as [best| |] eqn:Es; simpl in H; try discriminate.
    destruct best as [var|]; [|discriminate].
    apply select_variable_In in Es. destruct Es as [Hv Hl].
    destruct (dom_get d var) as [vals| |] eqn:Ed; simpl in H; try discriminate.
    apply dom_get_Ok in Ed.
    refine (try_values_sources c d (backtrack fuel c d) a var vals
              (fun s => NoDup (map fst s) /\
                 forall v w, In (v, w) s ->
                   In (v, w) a \/
                   (In v (variables c) /\
                    exists ws, lookup Var_eqb v d = Some ws /\ In w ws))
              _ Hl vals [] s t (incl_refl _) H).
    intros value s' t' Hval Hr.
    destruct (IH _ _ _ (NoDup_extend a var value ND Hl) Hr) as [ND' Hsrc].
    split; [exact ND'|]. intros v w Hin.
    destruct (Hsrc v w Hin) as [Ha|Hn]; [|now right].
    apply in_app_iff in Ha. destruct Ha as [Ha|[E|[]]]; [now left | right].
    injection E as <- <-. split; [exact Hv|]. now exists vals.
Qed.

(** X25. The search only ever extends the assignment it is given: what
    [perform_backtracking] returns starts with the entries of its argument
    in their order, followed by entries for variables of the crossword that
    were unassigned, each with a word from that variable's domain. *)
Theorem perform_backtracking_extends (c : Crossword) (d : domains)
        (a s : assignment) (t : trail) :
  NoDup (map fst a) ->
  perform_backtracking c d a = Ok (Some s, t) ->
  exists rest,
    s = a ++ rest /\
    NoDup (map fst s) /\
    forall v w, In (v, w) rest ->
      In v (variables c) /\ lookup Var_eqb v a = None /\
      exists ws, lookup Var_eqb v d = Some ws /\ In w ws.
Proof.
  intros ND H. unfold perform_backtracking in H.
  destruct (backtrack_extends c d _ a s t H) as [rest ->].
  destruct (backtrack_sources c d _ a (a ++ rest) t ND H) as [ND' Hsrc].
  exists rest. split; [reflexivity|]. split; [exact ND'|].
  intros v w Hin.
  assert (Hnew : ~ In v (map fst a)).
  { intros Hk. rewrite map_app in ND'.
    apply (in_map fst) in Hin. simpl in Hin.
    revert ND' Hk Hin. generalize (map fst a) (map fst rest). clear.
    intros l1 l2. induction l1 as [|u r IH]; simpl; intros ND Hk Hin; [contradiction|].
    inversion ND as [|? ? Hn NDt]; subst.
    destruct Hk as [->|Hk]; [apply Hn; apply in_app_iff; now right | now apply IH]. }
  destruct (Hsrc v w (proj2 (in_app_iff _ _ _) (or_intror Hin))) as [Ha|[Hv Hd]].
  - exfalso. apply Hnew. apply (in_map fst) in Ha. exact Ha.
  - split; [exact Hv|]. split; [|exact Hd].
    now apply (lookup_None Var_eqb Var_eqb_eq).
Qed.

Lemma perform_backtracking_extends_witness :
  let c := the_crossword grid_bottom words_bottom in
  let d := start_domains c in
  let a := [(mkVar 0 2 DOWN 2, "OT"%string)] in
  let s := [(mkVar 0 2 DOWN 2, "OT"); (mkVar 1 0 ACROSS 3, "CAT");
            (mkVar 0 0 DOWN 2, "OC")]%string in
  exists rest,
    s = a ++ rest /\
    NoDup (map fst s) /\
    forall v w, In (v, w) rest ->
      In v (variables c) /\ lookup Var_eqb v a = None /\
      exists ws, lookup Var_eqb v d = Some ws /\ In w ws.
Proof.
  intros c d a s.
  apply (perform_backtracking_extends c d a s
           [(mkVar 1 0 ACROSS 3, "CAT"); (mkVar 0 0 DOWN 2, "OC")]%string).
  - repeat constructor; simpl; tauto.
  - reflexivity.
Defined.
